(** * Black-Scholes pricer of [Finance/Black-Scholes.ipynb]

    A shallow embedding of the notebook's [black_scholes] function, of the
    function that rebinds its name in the example cell and of the two
    sweeps.  The code is read twice: over exact real arithmetic, for what
    its formula computes, and over Python and NumPy floats with the range
    of binary64, for what a call raises, what it returns at the edges of
    that range and what it reads and leaves behind.

    The standard normal distribution function that the code takes from
    [scipy.stats.norm] is built here from the Riemann integral of the
    kernel [exp (- t^2 / 2)]; the Gaussian integral, through the Wallis
    integrals, gives its normalising constant [sqrt (2 pi)]. *)

From Stdlib Require Import Reals Lra Lia String List Factorial QArith Qreals.
Import ListNotations.

Local Open Scope string_scope.
Local Open Scope R_scope.

(** ** Integrals of continuous functions *)

Section ContinuousIntegral.

Variable f : R -> R.
Hypothesis f_cont : continuity f.

Definition cont_integrable (a b : R) : Riemann_integrable f a b :=
  match Rle_dec a b with
  | left h => continuity_implies_RiemannInt h (fun x _ => f_cont x)
  | right h =>
      RiemannInt_P1
        (continuity_implies_RiemannInt
           (Rlt_le _ _ (Rnot_le_lt _ _ h)) (fun x _ => f_cont x))
  end.

Definition cint (a b : R) : R := RiemannInt (cont_integrable a b).

Lemma cint_eq a b (pr : Riemann_integrable f a b) : RiemannInt pr = cint a b.
Proof. apply RiemannInt_P5. Qed.

Lemma cint_refl a : cint a a = 0.
Proof. apply RiemannInt_P9. Qed.

Lemma cint_chasles a b c : cint a b + cint b c = cint a c.
Proof. apply RiemannInt_P26. Qed.

Lemma cint_split a b c : cint a c = cint a b + cint b c.
Proof. symmetry; apply cint_chasles. Qed.

(** The integral from a fixed point is an antiderivative. *)
Lemma cint_derivable a x : derivable_pt_lim (fun y => cint a y) x (f x).
Proof.
  set (lo := Rmin a x - 1).
  set (hi := Rmax a x + 1).
  assert (Hlo_a : lo <= a) by (unfold lo; pose proof (Rmin_l a x); lra).
  assert (Hlo_x : lo < x) by (unfold lo; pose proof (Rmin_r a x); lra).
  assert (Hx_hi : x < hi) by (unfold hi; pose proof (Rmax_r a x); lra).
  assert (Hlh : lo <= hi) by lra.
  pose (C0 := fun (y : R) (_ : lo <= y <= hi) => f_cont y).
  pose proof (RiemannInt_P27 (f := f) (x := x) Hlh C0 (conj Hlo_x Hx_hi)) as HD.
  (* near [x] the function agrees with the primitive up to a constant *)
  assert (Hloc : forall y, lo <= y <= hi ->
             cint a y = primitive Hlh (FTC_P1 Hlh C0) y - cint lo a).
  { intros y [Hy1 Hy2]. unfold primitive.
    destruct (Rle_dec lo y) as [r|n]; [|lra].
    destruct (Rle_dec y hi) as [r0|n]; [|lra].
    rewrite cint_eq. rewrite (cint_split lo a y). lra. }
  intros eps Heps.
  destruct (HD eps Heps) as [delta Hdelta].
  set (d := Rmin delta (Rmin (x - lo) (hi - x))).
  assert (Hd : 0 < d).
  { unfold d. apply Rmin_pos; [apply cond_pos|apply Rmin_pos; lra]. }
  exists (mkposreal d Hd). intros h Hh0 Hh. simpl in Hh.
  assert (Hh1 : Rabs h < delta).
  { eapply Rlt_le_trans; [exact Hh|apply Rmin_l]. }
  assert (Hh2 : Rabs h < x - lo).
  { eapply Rlt_le_trans; [exact Hh|].
    unfold d. eapply Rle_trans; [apply Rmin_r|apply Rmin_l]. }
  assert (Hh3 : Rabs h < hi - x).
  { eapply Rlt_le_trans; [exact Hh|].
    unfold d. eapply Rle_trans; [apply Rmin_r|apply Rmin_r]. }
  assert (Hxh : lo <= x + h <= hi).
  { destruct (Rabs_def2 _ _ Hh2). destruct (Rabs_def2 _ _ Hh3). lra. }
  rewrite (Hloc (x + h) Hxh), (Hloc x) by lra.
  replace (primitive Hlh (FTC_P1 Hlh C0) (x + h) - cint lo a -
           (primitive Hlh (FTC_P1 Hlh C0) x - cint lo a))
    with (primitive Hlh (FTC_P1 Hlh C0) (x + h) -
          primitive Hlh (FTC_P1 Hlh C0) x) by ring.
  apply Hdelta; assumption.
Qed.

End ContinuousIntegral.

(** ** Consequences of the mean value theorem *)

Lemma deriv_nonneg_le (F F' : R -> R) (a b : R) :
  a <= b ->
  (forall c, a <= c <= b -> derivable_pt_lim F c (F' c)) ->
  (forall c, a < c < b -> 0 <= F' c) ->
  F a <= F b.
Proof.
  intros [Hab|Hab] HD Hpos; [|subst; lra].
  destruct (MVT_cor2 F F' a b Hab HD) as [c [Hc Hin]].
  pose proof (Hpos c Hin) as Hc0.
  assert (0 <= F' c * (b - a)) by (apply Rmult_le_pos; lra).
  lra.
Qed.

Lemma deriv_zero_eq (F : R -> R) (a b : R) :
  (forall c, derivable_pt_lim F c 0) -> F a = F b.
Proof.
  intros HD.
  assert (Hle : forall x y, x <= y -> F x = F y).
  { intros x y Hxy.
    apply Rle_antisym.
    - apply (deriv_nonneg_le F (fun _ => 0) x y Hxy); intros; [apply HD|lra].
    - apply Ropp_le_cancel.
      apply (deriv_nonneg_le (fun t => - F t) (fun _ => 0) x y Hxy);
        intros; [|lra].
      replace 0 with (- 0) by ring.
      apply (derivable_pt_lim_opp F c 0), HD. }
  destruct (Rle_dec a b) as [H|H]; [apply Hle; exact H|].
  symmetry; apply Hle; lra.
Qed.

Section IntegralFacts.

Variable f : R -> R.
Hypothesis f_cont : continuity f.

(** Evaluation of an integral through an antiderivative. *)
Lemma cint_antiderivative (F : R -> R) (a b : R) :
  (forall x, derivable_pt_lim F x (f x)) ->
  cint f f_cont a b = F b - F a.
Proof.
  intros HF.
  assert (HD : forall c, derivable_pt_lim (fun y => cint f f_cont a y - F y) c 0).
  { intros c. replace 0 with (f c - f c) by ring.
    apply (derivable_pt_lim_minus (fun y => cint f f_cont a y) F).
    - apply cint_derivable.
    - apply HF. }
  pose proof (deriv_zero_eq _ a b HD) as H. simpl in H.
  rewrite cint_refl in H. lra.
Qed.

End IntegralFacts.

(** Monotonicity of the integral in the integrand. *)
Lemma cint_le (f g : R -> R) (fc : continuity f) (gc : continuity g) (a b : R) :
  a <= b -> (forall x, a < x < b -> f x <= g x) ->
  cint f fc a b <= cint g gc a b.
Proof.
  intros Hab Hfg. unfold cint. apply RiemannInt_P19; assumption.
Qed.

Lemma cint_nonneg (f : R -> R) (fc : continuity f) (a b : R) :
  a <= b -> (forall x, a < x < b -> 0 <= f x) -> 0 <= cint f fc a b.
Proof.
  intros Hab Hpos.
  pose proof (deriv_nonneg_le (fun y => cint f fc a y) f a b Hab) as H.
  simpl in H. rewrite cint_refl in H. apply H.
  - intros c _. apply cint_derivable.
  - exact Hpos.
Qed.

Lemma deriv_pos_lt (F F' : R -> R) (a b : R) :
  a < b ->
  (forall c, a <= c <= b -> derivable_pt_lim F c (F' c)) ->
  (forall c, a < c < b -> 0 < F' c) ->
  F a < F b.
Proof.
  intros Hab HD Hpos.
  destruct (MVT_cor2 F F' a b Hab HD) as [c [Hc Hin]].
  pose proof (Hpos c Hin) as Hc0.
  assert (0 < F' c * (b - a)) by (apply Rmult_lt_0_compat; lra).
  lra.
Qed.

(** ** Derivatives by structure *)

Lemma derivable_pt_lim_eq (f : R -> R) (x l l' : R) :
  derivable_pt_lim f x l -> l = l' -> derivable_pt_lim f x l'.
Proof. intros H <-. exact H. Qed.

(** Rules for the functions defined later on are added to [deriv_special]. *)
Ltac deriv_special := fail.

Ltac deriv_step :=
  first
    [ deriv_special
    | lazymatch goal with
      | |- derivable_pt_lim (fun _ => ?c) _ _ => apply (derivable_pt_lim_const c)
      | |- derivable_pt_lim (fun x => x) _ _ => apply derivable_pt_lim_id
      | |- derivable_pt_lim (fun x => @?f x + @?g x) _ _ =>
          eapply (derivable_pt_lim_plus f g)
      | |- derivable_pt_lim (fun x => @?f x - @?g x) _ _ =>
          eapply (derivable_pt_lim_minus f g)
      | |- derivable_pt_lim (fun x => @?f x * @?g x) _ _ =>
          eapply (derivable_pt_lim_mult f g)
      | |- derivable_pt_lim (fun x => @?f x / @?g x) _ _ =>
          eapply (derivable_pt_lim_div f g)
      | |- derivable_pt_lim (fun x => - @?f x) _ _ =>
          eapply (derivable_pt_lim_opp f)
      | |- derivable_pt_lim (fun x => exp (@?f x)) _ _ =>
          eapply (derivable_pt_lim_comp f exp); [|apply derivable_pt_lim_exp]
      | |- derivable_pt_lim (fun x => sin (@?f x)) _ _ =>
          eapply (derivable_pt_lim_comp f sin); [|apply derivable_pt_lim_sin]
      | |- derivable_pt_lim (fun x => cos (@?f x)) _ _ =>
          eapply (derivable_pt_lim_comp f cos); [|apply derivable_pt_lim_cos]
      | |- derivable_pt_lim (fun x => atan (@?f x)) _ _ =>
          eapply (derivable_pt_lim_comp f atan); [|apply derivable_pt_lim_atan]
      | |- derivable_pt_lim (fun x => (@?f x) ^ ?n) _ _ =>
          eapply (derivable_pt_lim_comp f (fun y => y ^ n));
          [|apply derivable_pt_lim_pow]
      end ].

Ltac derive :=
  eapply derivable_pt_lim_eq;
  [ repeat deriv_step; try lra | unfold Rsqr ].

(** ** The Gaussian kernel and its integral *)

Definition gauss (t : R) : R := exp (- (t * t) / 2).

Lemma gauss_pos t : 0 < gauss t.
Proof. apply exp_pos. Qed.

Lemma gauss_even t : gauss (- t) = gauss t.
Proof. unfold gauss. f_equal. field. Qed.

Lemma gauss_derivable t : derivable_pt_lim gauss t (- t * gauss t).
Proof. unfold gauss. derive. field. Qed.

Lemma gauss_cont : continuity gauss.
Proof.
  intros t. apply derivable_continuous_pt.
  exists (- t * gauss t). apply gauss_derivable.
Qed.

(** [gint x] is the integral of the kernel from [0] to [x]. *)
Definition gint (x : R) : R := cint gauss gauss_cont 0 x.

Lemma gint_0 : gint 0 = 0.
Proof. apply cint_refl. Qed.

Lemma gint_derivable x : derivable_pt_lim gint x (gauss x).
Proof. apply cint_derivable. Qed.

Lemma gint_increasing x y : x < y -> gint x < gint y.
Proof.
  intros Hxy. apply (deriv_pos_lt gint gauss); auto.
  - intros; apply gint_derivable.
  - intros; apply gauss_pos.
Qed.

Lemma gint_monotone x y : x <= y -> gint x <= gint y.
Proof.
  intros [H| ->]; [left; apply gint_increasing; exact H|right; reflexivity].
Qed.

Lemma gint_odd x : gint (- x) = - gint x.
Proof.
  assert (HD : forall c, derivable_pt_lim (fun y => gint y + gint (- y)) c 0).
  { intros c.
    replace 0 with (gauss c + gauss (- c) * (- 1)) by (rewrite gauss_even; ring).
    apply (derivable_pt_lim_plus gint (fun y => gint (- y))).
    - apply gint_derivable.
    - apply (derivable_pt_lim_comp (fun y => - y) gint).
      + apply (derivable_pt_lim_opp id), derivable_pt_lim_id.
      + apply gint_derivable. }
  pose proof (deriv_zero_eq _ 0 x HD) as H. simpl in H.
  rewrite Ropp_0, gint_0 in H. lra.
Qed.

(** The kernel is dominated by exponentials, so its integral is bounded. *)
Lemma gauss_le_exp c t : gauss t <= exp (c * c / 2 - c * t).
Proof.
  unfold gauss.
  destruct (Req_dec t c) as [->|Ht].
  - right. f_equal. field.
  - left. apply exp_increasing.
    assert (0 < (t - c) * (t - c)); [|lra].
    destruct (Rtotal_order t c) as [H|[H|H]]; [|lra|]; nra.
Qed.

Lemma exp_tail_derivable c t :
  derivable_pt_lim (fun t => exp (c * c / 2 - c * t)) t
    (- c * exp (c * c / 2 - c * t)).
Proof. derive. ring. Qed.

Lemma exp_tail_cont c : continuity (fun t => exp (c * c / 2 - c * t)).
Proof.
  intros t. apply derivable_continuous_pt.
  eexists. apply exp_tail_derivable.
Qed.

Lemma exp_tail_integral c a b :
  c <> 0 ->
  cint _ (exp_tail_cont c) a b
  = (exp (c * c / 2 - c * a) - exp (c * c / 2 - c * b)) / c.
Proof.
  intros Hc.
  rewrite (cint_antiderivative _ (exp_tail_cont c)
             (fun t => - exp (c * c / 2 - c * t) / c)).
  - field. exact Hc.
  - intros x.
    apply (derivable_pt_lim_eq _ _ (- (- c * exp (c * c / 2 - c * x)) * / c)).
    + unfold Rdiv.
      apply (derivable_pt_lim_scal_right (fun t => - exp (c * c / 2 - c * t))).
      apply (derivable_pt_lim_opp (fun t => exp (c * c / 2 - c * t))).
      apply exp_tail_derivable.
    + field. exact Hc.
Qed.

Lemma gint_diff_le c a b :
  0 < c -> a <= b -> gint b - gint a <= exp (c * c / 2 - c * a) / c.
Proof.
  intros Hc Hab.
  assert (H : gint b - gint a = cint gauss gauss_cont a b).
  { unfold gint. rewrite (cint_split _ _ 0 a b). ring. }
  rewrite H.
  eapply Rle_trans.
  - apply (cint_le gauss _ gauss_cont (exp_tail_cont c) a b Hab).
    intros; apply gauss_le_exp.
  - rewrite exp_tail_integral by lra.
    pose proof (exp_pos (c * c / 2 - c * b)) as Hp.
    unfold Rdiv. apply Rmult_le_compat_r; [left; apply Rinv_0_lt_compat; exact Hc|].
    lra.
Qed.

Lemma gint_bounded x : gint x <= exp (/ 2).
Proof.
  destruct (Rle_dec 0 x) as [H|H].
  - pose proof (gint_diff_le 1 0 x Rlt_0_1 H) as Hb. rewrite gint_0 in Hb.
    replace (1 * 1 / 2 - 1 * 0) with (/ 2) in Hb by field. lra.
  - apply Rle_trans with 0; [|left; apply exp_pos].
    rewrite <- gint_0. apply gint_monotone. lra.
Qed.

(** The total mass of the kernel on the positive half line, as the least
    upper bound of its partial integrals. *)
Definition gint_range (y : R) : Prop := exists x, y = gint x.

Lemma gint_range_bound : bound gint_range.
Proof.
  exists (exp (/ 2)). intros y [x ->]. apply gint_bounded.
Qed.

Lemma gint_range_inhabited : exists y, gint_range y.
Proof. exists (gint 0), 0. reflexivity. Qed.

Definition gauss_half_mass : R :=
  proj1_sig (completeness gint_range gint_range_bound gint_range_inhabited).

Lemma gauss_half_mass_lub : is_lub gint_range gauss_half_mass.
Proof.
  unfold gauss_half_mass.
  destruct (completeness gint_range gint_range_bound gint_range_inhabited).
  assumption.
Qed.

Lemma gint_lt_half_mass x : gint x < gauss_half_mass.
Proof.
  apply Rlt_le_trans with (gint (x + 1)).
  - apply gint_increasing. lra.
  - apply (proj1 gauss_half_mass_lub). exists (x + 1). reflexivity.
Qed.

Lemma gauss_half_mass_pos : 0 < gauss_half_mass.
Proof. rewrite <- gint_0. apply gint_lt_half_mass. Qed.

Lemma gint_cv eps :
  0 < eps -> exists A, 0 < A /\ forall x, A <= x -> gauss_half_mass - eps < gint x.
Proof.
  intros Heps.
  (* some partial integral exceeds [gauss_half_mass - eps], else the latter
     would be a smaller upper bound *)
  assert (Hex : exists x, gauss_half_mass - eps < gint x).
  { apply Classical_Prop.NNPP. intros Hno.
    assert (Hub : is_upper_bound gint_range (gauss_half_mass - eps)).
    { intros y [x ->]. apply Rnot_lt_le. intros Hlt. apply Hno.
      exists x. exact Hlt. }
    pose proof (proj2 gauss_half_mass_lub _ Hub). lra. }
  destruct Hex as [x0 Hx0].
  exists (Rmax x0 1). split.
  - apply Rlt_le_trans with 1; [lra|apply Rmax_r].
  - intros x Hx. apply Rlt_le_trans with (gint x0); [exact Hx0|].
    apply gint_monotone. pose proof (Rmax_l x0 1). lra.
Qed.

(** ** The Gaussian integral *)

Ltac deriv_special ::=
  lazymatch goal with
  | |- derivable_pt_lim (fun x => gint (@?f x)) _ _ =>
      eapply (derivable_pt_lim_comp f gint); [|apply gint_derivable]
  | |- derivable_pt_lim (fun x => gauss (@?f x)) _ _ =>
      eapply (derivable_pt_lim_comp f gauss); [|apply gauss_derivable]
  end.

Lemma derivable_continuous (f f' : R -> R) :
  (forall x, derivable_pt_lim f x (f' x)) -> continuity f.
Proof.
  intros H x. apply derivable_continuous_pt. exists (f' x). apply H.
Qed.

(** Linearity of the integral. *)
Lemma cint_linear (f g h : R -> R) (fc : continuity f) (gc : continuity g)
  (hc : continuity h) (a b x y : R) :
  (forall t, h t = a * f t + b * g t) ->
  cint h hc x y = a * cint f fc x y + b * cint g gc x y.
Proof.
  intros Hh.
  rewrite (cint_antiderivative h hc
             (fun t => a * cint f fc x t + b * cint g gc x t)).
  - rewrite !cint_refl. ring.
  - intros t. rewrite Hh.
    apply (derivable_pt_lim_plus (fun t => a * cint f fc x t)
             (fun t => b * cint g gc x t)).
    + apply (derivable_pt_lim_scal (fun t => cint f fc x t)), cint_derivable.
    + apply (derivable_pt_lim_scal (fun t => cint g gc x t)), cint_derivable.
Qed.

(** Wallis integrals: the integrals of the powers of the cosine over a
    quarter period. *)
Definition cos_pow (n : nat) (x : R) : R := cos x ^ n.

Lemma cos_pow_derivable n x :
  derivable_pt_lim (cos_pow n) x (INR n * cos x ^ pred n * - sin x).
Proof. unfold cos_pow. derive. ring. Qed.

Lemma cos_pow_cont n : continuity (cos_pow n).
Proof.
  apply (derivable_continuous _ (fun x => INR n * cos x ^ pred n * - sin x)).
  intros x. apply cos_pow_derivable.
Qed.

Definition wallis (n : nat) : R := cint (cos_pow n) (cos_pow_cont n) 0 (PI / 2).

Lemma wallis_0 : wallis 0 = PI / 2.
Proof.
  unfold wallis. rewrite (cint_antiderivative _ _ (fun x => x)).
  - ring.
  - intros x. unfold cos_pow. simpl. apply derivable_pt_lim_id.
Qed.

Lemma wallis_1 : wallis 1 = 1.
Proof.
  unfold wallis. rewrite (cint_antiderivative _ _ sin).
  - rewrite sin_PI2, sin_0. ring.
  - intros x. unfold cos_pow. rewrite pow_1. apply derivable_pt_lim_sin.
Qed.

Lemma wallis_step_cont n :
  continuity (fun x => INR (n + 2) * cos_pow (n + 2) x - INR (n + 1) * cos_pow n x).
Proof.
  apply (derivable_continuous _
           (fun x => INR (n + 2) * (INR (n + 2) * cos x ^ pred (n + 2) * - sin x)
                     - INR (n + 1) * (INR n * cos x ^ pred n * - sin x))).
  intros x.
  apply (derivable_pt_lim_minus (fun x => INR (n + 2) * cos_pow (n + 2) x)
           (fun x => INR (n + 1) * cos_pow n x)).
  - apply (derivable_pt_lim_scal (cos_pow (n + 2))), cos_pow_derivable.
  - apply (derivable_pt_lim_scal (cos_pow n)), cos_pow_derivable.
Qed.

Lemma wallis_rec n : INR (n + 2) * wallis (n + 2) = INR (n + 1) * wallis n.
Proof.
  assert (H0 : cint _ (wallis_step_cont n) 0 (PI / 2) = 0).
  { rewrite (cint_antiderivative _ _ (fun x => sin x * cos x ^ (n + 1))).
    - rewrite cos_PI2, sin_0, pow_i by lia. ring.
    - intros x. unfold cos_pow. derive.
      replace (n + 2)%nat with (S (S n)) by lia.
      replace (n + 1)%nat with (S n) by lia.
      cbn [pred]. rewrite <- !tech_pow_Rmult.
      pose proof (sin2 x) as Hs. unfold Rsqr in Hs.
      transitivity (cos x * cos x * cos x ^ n
                    - INR (S n) * cos x ^ n * (sin x * sin x)); [ring|].
      rewrite Hs, !S_INR. ring. }
  rewrite (cint_linear (cos_pow (n + 2)) (cos_pow n) _
             (cos_pow_cont (n + 2)) (cos_pow_cont n) (wallis_step_cont n)
             (INR (n + 2)) (- INR (n + 1))) in H0.
  - unfold wallis. lra.
  - intros t. ring.
Qed.

Lemma cos_quarter_bounds x : 0 < x < PI / 2 -> 0 <= cos x <= 1.
Proof.
  intros Hx. split.
  - apply cos_ge_0; lra.
  - apply COS_bound.
Qed.

Lemma wallis_nonneg n : 0 <= wallis n.
Proof.
  unfold wallis. pose proof PI_RGT_0.
  apply cint_nonneg; [lra|].
  intros x Hx. unfold cos_pow. apply pow_le, cos_quarter_bounds, Hx.
Qed.

Lemma wallis_decr n : wallis (S n) <= wallis n.
Proof.
  unfold wallis. pose proof PI_RGT_0.
  apply cint_le; [lra|].
  intros x Hx. unfold cos_pow. simpl.
  destruct (cos_quarter_bounds x Hx) as [H0 H1].
  pose proof (pow_le (cos x) n H0).
  rewrite <- (Rmult_1_l (cos x ^ n)) at 2.
  apply Rmult_le_compat_r; assumption.
Qed.

Lemma wallis_prod n : INR (n + 1) * wallis n * wallis (n + 1) = PI / 2.
Proof.
  induction n as [|n IH].
  - simpl. rewrite wallis_0, wallis_1. ring.
  - replace (S n + 1)%nat with (n + 2)%nat by lia.
    replace (S n) with (n + 1)%nat by lia.
    transitivity (wallis (n + 1) * (INR (n + 2) * wallis (n + 2))); [ring|].
    rewrite wallis_rec, <- IH. ring.
Qed.

Lemma wallis_pos n : 0 < wallis n.
Proof.
  pose proof (wallis_nonneg n) as [H|H]; [exact H|].
  pose proof (wallis_prod n) as Hp. rewrite <- H in Hp.
  pose proof PI_RGT_0. lra.
Qed.

(** The integral of [(1 - x^2)^n] over [[0, 1]] is a Wallis integral. *)
Definition arc_pow (n : nat) (x : R) : R := (1 - x * x) ^ n.

Lemma arc_pow_derivable n x :
  derivable_pt_lim (arc_pow n) x
    (INR n * (1 - x * x) ^ pred n * (0 - (1 * x + x * 1))).
Proof. unfold arc_pow. derive. reflexivity. Qed.

Lemma arc_pow_cont n : continuity (arc_pow n).
Proof.
  apply (derivable_continuous _
           (fun x => INR n * (1 - x * x) ^ pred n * (0 - (1 * x + x * 1)))).
  intros x. apply arc_pow_derivable.
Qed.

Definition arc_integral (n : nat) : R := cint (arc_pow n) (arc_pow_cont n) 0 1.

Lemma arc_step_cont n :
  continuity (fun x => INR (2 * n + 3) * arc_pow (S n) x
                       - INR (2 * n + 2) * arc_pow n x).
Proof.
  apply (derivable_continuous _
           (fun x => INR (2 * n + 3)
                     * (INR (S n) * (1 - x * x) ^ pred (S n) * (0 - (1 * x + x * 1)))
                     - INR (2 * n + 2)
                       * (INR n * (1 - x * x) ^ pred n * (0 - (1 * x + x * 1))))).
  intros x.
  apply (derivable_pt_lim_minus (fun x => INR (2 * n + 3) * arc_pow (S n) x)
           (fun x => INR (2 * n + 2) * arc_pow n x)).
  - apply (derivable_pt_lim_scal (arc_pow (S n))), arc_pow_derivable.
  - apply (derivable_pt_lim_scal (arc_pow n)), arc_pow_derivable.
Qed.

Lemma arc_integral_rec n :
  INR (2 * n + 3) * arc_integral (S n) = INR (2 * n + 2) * arc_integral n.
Proof.
  assert (H0 : cint _ (arc_step_cont n) 0 1 = 0).
  { rewrite (cint_antiderivative _ _ (fun x => x * (1 - x * x) ^ S n)).
    - replace (1 - 1 * 1) with 0 by ring. rewrite pow_i by lia. ring.
    - intros x. unfold arc_pow. derive.
      cbn [pred]. rewrite <- !tech_pow_Rmult.
      replace (2 * n + 3)%nat with (S (S (S (2 * n)))) by lia.
      replace (2 * n + 2)%nat with (S (S (2 * n))) by lia.
      rewrite !S_INR, mult_INR. simpl INR. ring. }
  rewrite (cint_linear (arc_pow (S n)) (arc_pow n) _
             (arc_pow_cont (S n)) (arc_pow_cont n) (arc_step_cont n)
             (INR (2 * n + 3)) (- INR (2 * n + 2))) in H0.
  - unfold arc_integral. lra.
  - intros t. ring.
Qed.

Lemma arc_integral_0 : arc_integral 0 = 1.
Proof.
  unfold arc_integral. rewrite (cint_antiderivative _ _ (fun x => x)).
  - ring.
  - intros x. unfold arc_pow. simpl. apply derivable_pt_lim_id.
Qed.

Lemma arc_integral_wallis n : arc_integral n = wallis (2 * n + 1).
Proof.
  induction n as [|n IH].
  - simpl. rewrite arc_integral_0, wallis_1. reflexivity.
  - pose proof (arc_integral_rec n) as Ha.
    pose proof (wallis_rec (2 * n + 1)) as Hw.
    replace (2 * n + 1 + 2)%nat with (2 * S n + 1)%nat in Hw by lia.
    replace (2 * n + 1 + 1)%nat with (2 * n + 2)%nat in Hw by lia.
    replace (2 * S n + 1)%nat with (2 * n + 3)%nat in * by lia.
    rewrite IH in Ha.
    assert (Hpos : 0 < INR (2 * n + 3)) by (apply lt_0_INR; lia).
    apply Rmult_eq_reg_l with (INR (2 * n + 3)); lra.
Qed.

(** The integral of [1 / (1 + x^2)^(n+1)] over [[0, A]] is a partial Wallis
    integral, through [x = tan theta]. *)
Definition witch_pow (n : nat) (x : R) : R := (1 / (1 + x * x)) ^ n.

Lemma witch_pow_derivable n x :
  derivable_pt_lim (witch_pow n) x
    (INR n * (1 / (1 + x * x)) ^ pred n
     * ((0 * (1 + x * x) - (0 + (1 * x + x * 1)) * 1) / Rsqr (1 + x * x))).
Proof.
  unfold witch_pow.
  apply (derivable_pt_lim_comp (fun x => 1 / (1 + x * x)) (fun y => y ^ n)).
  - apply (derivable_pt_lim_div (fun _ => 1) (fun x => 1 + x * x)).
    + apply derivable_pt_lim_const.
    + repeat deriv_step.
    + nra.
  - apply derivable_pt_lim_pow.
Qed.

Lemma witch_pow_cont n : continuity (witch_pow n).
Proof.
  apply (derivable_continuous _
           (fun x => INR n * (1 / (1 + x * x)) ^ pred n
                     * ((0 * (1 + x * x) - (0 + (1 * x + x * 1)) * 1)
                        / Rsqr (1 + x * x)))).
  intros x. apply witch_pow_derivable.
Qed.

Lemma cos_atan_sqr x : cos (atan x) * cos (atan x) = 1 / (1 + x * x).
Proof.
  rewrite cos_atan. unfold Rsqr.
  assert (H : 0 < 1 + x * x) by nra.
  pose proof (sqrt_lt_R0 _ H) as Hq.
  pose proof (sqrt_sqrt (1 + x * x) ltac:(lra)) as Hqq.
  rewrite <- Hqq at 3. field. lra.
Qed.

Lemma cos_pow_even_nonneg n x : 0 <= cos_pow (2 * n) x.
Proof.
  unfold cos_pow. rewrite pow_mult. apply pow_le. simpl. nra.
Qed.

Lemma witch_integral_le n A :
  0 <= A -> cint (witch_pow (S n)) (witch_pow_cont (S n)) 0 A <= wallis (2 * n).
Proof.
  intros HA.
  rewrite (cint_antiderivative _ _
             (fun x => cint (cos_pow (2 * n)) (cos_pow_cont (2 * n)) 0 (atan x))).
  - rewrite atan_0, cint_refl, Rminus_0_r.
    unfold wallis.
    rewrite (cint_split _ _ 0 (atan A) (PI / 2)).
    assert (0 <= cint (cos_pow (2 * n)) (cos_pow_cont (2 * n)) (atan A) (PI / 2));
      [|lra].
    apply cint_nonneg.
    + pose proof (atan_bound A). lra.
    + intros x _. apply cos_pow_even_nonneg.
  - intros x.
    apply (derivable_pt_lim_eq _ _ (cos_pow (2 * n) (atan x) * / (1 + x ^ 2))).
    + apply (derivable_pt_lim_comp atan
               (fun t => cint (cos_pow (2 * n)) (cos_pow_cont (2 * n)) 0 t)).
      * apply derivable_pt_lim_atan.
      * apply cint_derivable.
    + unfold cos_pow, witch_pow. rewrite pow_mult.
      replace (cos (atan x) ^ 2) with (1 / (1 + x * x))
        by (rewrite <- cos_atan_sqr; simpl; ring).
      simpl. field. nra.
Qed.

(** Comparison of the scaled kernel with the two algebraic families. *)
Lemma exp_pow_nat a m : exp a ^ m = exp (INR m * a).
Proof.
  induction m as [|m IH].
  - simpl. rewrite Rmult_0_l, exp_0. reflexivity.
  - rewrite <- tech_pow_Rmult, IH, <- exp_plus, S_INR. f_equal. ring.
Qed.

Lemma gauss_scaled m c x :
  c * c = 2 * INR m -> gauss (c * x) = exp (- (x * x)) ^ m.
Proof.
  intros Hc. rewrite exp_pow_nat. unfold gauss. f_equal.
  replace (- (c * x * (c * x)) / 2) with (- (c * c) * (x * x) / 2) by field.
  rewrite Hc. field.
Qed.

Lemma arc_le_gauss m c x :
  c * c = 2 * INR m -> 0 <= x <= 1 -> arc_pow m x <= gauss (c * x).
Proof.
  intros Hc Hx. rewrite (gauss_scaled m c x Hc). unfold arc_pow.
  apply pow_incr. split; [nra|].
  pose proof (exp_ineq1_le (- (x * x))). lra.
Qed.

Lemma gauss_le_witch m c x :
  c * c = 2 * INR m -> gauss (c * x) <= witch_pow m x.
Proof.
  intros Hc. rewrite (gauss_scaled m c x Hc). unfold witch_pow.
  apply pow_incr. split; [left; apply exp_pos|].
  rewrite exp_Ropp. unfold Rdiv. rewrite Rmult_1_l.
  apply Rinv_le_contravar; [nra|].
  apply exp_ineq1_le.
Qed.

Lemma gauss_scaled_cont c : continuity (fun x => gauss (c * x)).
Proof.
  apply (derivable_continuous _ (fun x => - (c * x) * gauss (c * x) * (0 * x + c * 1))).
  intros x. repeat deriv_step.
Qed.

Lemma gauss_scaled_integral c A :
  c <> 0 -> cint _ (gauss_scaled_cont c) 0 A = gint (c * A) / c.
Proof.
  intros Hc.
  rewrite (cint_antiderivative _ _ (fun x => gint (c * x) / c)).
  - rewrite Rmult_0_r, gint_0. field. exact Hc.
  - intros x. derive. field. exact Hc.
Qed.

Lemma sqrt_2m_sqr m : sqrt (2 * INR m) * sqrt (2 * INR m) = 2 * INR m.
Proof. apply sqrt_sqrt. pose proof (pos_INR m). lra. Qed.

Lemma half_mass_lower m :
  (1 <= m)%nat -> sqrt (2 * INR m) * wallis (2 * m + 1) <= gauss_half_mass.
Proof.
  intros Hm.
  set (c := sqrt (2 * INR m)).
  assert (Hc : 0 < c).
  { apply sqrt_lt_R0. apply lt_INR in Hm. simpl in Hm. lra. }
  rewrite <- arc_integral_wallis. unfold arc_integral.
  assert (H1 : cint (arc_pow m) (arc_pow_cont m) 0 1 <= gint (c * 1) / c).
  { rewrite <- gauss_scaled_integral by lra.
    apply cint_le; [lra|]. intros x Hx.
    apply arc_le_gauss; [apply sqrt_2m_sqr|lra]. }
  pose proof (gint_lt_half_mass (c * 1)) as H2.
  apply Rle_trans with (c * (gint (c * 1) / c)).
  - apply Rmult_le_compat_l; lra.
  - replace (c * (gint (c * 1) / c)) with (gint (c * 1)) by (field; lra). lra.
Qed.

Lemma half_mass_upper n :
  gauss_half_mass <= sqrt (2 * INR (S n)) * wallis (2 * n).
Proof.
  set (c := sqrt (2 * INR (S n))).
  assert (Hc : 0 < c).
  { apply sqrt_lt_R0. pose proof (pos_INR n). rewrite S_INR. lra. }
  pose proof (wallis_pos (2 * n)) as HW.
  apply (proj2 gauss_half_mass_lub). intros y [x ->].
  destruct (Rle_dec x 0) as [Hx|Hx].
  - apply Rle_trans with 0.
    + rewrite <- gint_0. apply gint_monotone. exact Hx.
    + apply Rmult_le_pos; lra.
  - apply Rnot_le_lt in Hx.
    assert (HA : 0 <= x / c) by (apply Rmult_le_pos; [lra|left; apply Rinv_0_lt_compat; exact Hc]).
    assert (H1 : gint x / c <= wallis (2 * n)).
    { replace x with (c * (x / c)) at 1 by (field; lra).
      rewrite <- gauss_scaled_integral by lra.
      eapply Rle_trans; [|apply (witch_integral_le n (x / c) HA)].
      apply cint_le; [exact HA|]. intros t _.
      apply gauss_le_witch. apply sqrt_2m_sqr. }
    replace (gint x) with (c * (gint x / c)) by (field; lra).
    apply Rmult_le_compat_l; lra.
Qed.

Lemma half_mass_sqr_lower n :
  (1 <= n)%nat ->
  PI / 2 * (INR n / INR (n + 1)) <= gauss_half_mass * gauss_half_mass.
Proof.
  intros Hn.
  pose proof (half_mass_lower n Hn) as HG.
  pose proof (wallis_pos (2 * n + 1)) as HW1.
  pose proof (wallis_pos (2 * n + 2)) as HW2.
  pose proof (wallis_decr (2 * n + 1)) as Hd.
  replace (S (2 * n + 1)) with (2 * n + 2)%nat in Hd by lia.
  pose proof (wallis_prod (2 * n + 1)) as Hp.
  replace (2 * n + 1 + 1)%nat with (2 * n + 2)%nat in Hp by lia.
  pose proof (sqrt_2m_sqr n) as Hc.
  set (c := sqrt (2 * INR n)) in *.
  assert (Hc0 : 0 <= c) by apply sqrt_pos.
  assert (Hn1 : 0 < INR (n + 1)) by (apply lt_0_INR; lia).
  assert (HI : INR (2 * n + 2) = 2 * INR (n + 1)).
  { rewrite !plus_INR, mult_INR. simpl. ring. }
  rewrite HI in Hp.
  (* [PI / 2 * (n / (n + 1)) = 2 n * W (2n+1) * W (2n+2)] *)
  apply Rle_trans with (c * c * (wallis (2 * n + 1) * wallis (2 * n + 2))).
  - right. rewrite Hc.
    apply Rmult_eq_reg_r with (INR (n + 1)); [|lra].
    transitivity (INR n * (2 * INR (n + 1) * wallis (2 * n + 1) * wallis (2 * n + 2)));
      [rewrite Hp; field; lra|ring].
  - apply Rle_trans with ((c * wallis (2 * n + 1)) * (c * wallis (2 * n + 1))).
    + assert (wallis (2 * n + 1) * wallis (2 * n + 2)
              <= wallis (2 * n + 1) * wallis (2 * n + 1))
        by (apply Rmult_le_compat_l; lra).
      assert (0 <= c * c) by (apply Rmult_le_pos; assumption).
      replace (c * wallis (2 * n + 1) * (c * wallis (2 * n + 1)))
        with (c * c * (wallis (2 * n + 1) * wallis (2 * n + 1))) by ring.
      apply Rmult_le_compat_l; assumption.
    + assert (0 <= c * wallis (2 * n + 1)) by (apply Rmult_le_pos; lra).
      apply Rmult_le_compat; assumption.
Qed.

Lemma half_mass_sqr_upper n :
  (1 <= n)%nat ->
  gauss_half_mass * gauss_half_mass <= PI / 2 * (INR (n + 1) / INR n).
Proof.
  intros Hn.
  pose proof (half_mass_upper n) as HG.
  pose proof gauss_half_mass_pos as HG0.
  pose proof (wallis_pos (2 * n)) as HW1.
  pose proof (wallis_pos (2 * n - 1)) as HW2.
  pose proof (wallis_decr (2 * n - 1)) as Hd.
  replace (S (2 * n - 1)) with (2 * n)%nat in Hd by lia.
  pose proof (wallis_prod (2 * n - 1)) as Hp.
  replace (2 * n - 1 + 1)%nat with (2 * n)%nat in Hp by lia.
  pose proof (sqrt_2m_sqr (S n)) as Hc.
  set (c := sqrt (2 * INR (S n))) in *.
  assert (Hc0 : 0 <= c) by apply sqrt_pos.
  assert (Hn0 : 0 < INR n) by (apply lt_0_INR; lia).
  assert (HI : INR (2 * n) = 2 * INR n) by (rewrite mult_INR; simpl; ring).
  assert (HS : INR (S n) = INR (n + 1)) by (f_equal; lia).
  rewrite HI in Hp.
  apply Rle_trans with ((c * wallis (2 * n)) * (c * wallis (2 * n))).
  - apply Rmult_le_compat; lra.
  - apply Rle_trans with (c * c * (wallis (2 * n - 1) * wallis (2 * n))).
    + replace (c * wallis (2 * n) * (c * wallis (2 * n)))
        with (c * c * (wallis (2 * n) * wallis (2 * n))) by ring.
      assert (0 <= c * c) by (apply Rmult_le_pos; assumption).
      apply Rmult_le_compat_l; [assumption|].
      apply Rmult_le_compat_r; lra.
    + right. rewrite Hc, HS.
      apply Rmult_eq_reg_r with (INR n); [|lra].
      transitivity (INR (n + 1) * (2 * INR n * wallis (2 * n - 1) * wallis (2 * n)));
        [ring|rewrite Hp; field; lra].
Qed.

(** The Gaussian integral: the kernel has mass [sqrt (PI / 2)] on the
    positive half line. *)
Theorem gauss_half_mass_sqr : gauss_half_mass * gauss_half_mass = PI / 2.
Proof.
  apply Rminus_diag_uniq.
  destruct (Req_dec (gauss_half_mass * gauss_half_mass - PI / 2) 0) as [H|H];
    [exact H|exfalso].
  apply Rabs_pos_lt in H.
  set (d := Rabs (gauss_half_mass * gauss_half_mass - PI / 2)) in *.
  destruct (archimed_cor1 (d / 2)) as [N [HN HN0]]; [lra|].
  pose proof (half_mass_sqr_lower N ltac:(lia)) as Hl.
  pose proof (half_mass_sqr_upper N ltac:(lia)) as Hu.
  assert (HNpos : 0 < INR N) by (apply lt_0_INR; exact HN0).
  rewrite plus_INR in Hl, Hu. simpl INR in Hl, Hu.
  pose proof PI_RGT_0 as Hpi. pose proof PI_4 as Hpi4.
  assert (Hl' : - (2 * / INR N) <= gauss_half_mass * gauss_half_mass - PI / 2).
  { assert (INR N / (INR N + 1) = 1 - / (INR N + 1)) as E by (field; lra).
    rewrite E in Hl.
    assert (/ (INR N + 1) <= / INR N)
      by (apply Rinv_le_contravar; lra).
    assert (0 < / (INR N + 1)) by (apply Rinv_0_lt_compat; lra).
    nra. }
  assert (Hu' : gauss_half_mass * gauss_half_mass - PI / 2 <= 2 * / INR N).
  { assert ((INR N + 1) / INR N = 1 + / INR N) as E by (field; lra).
    rewrite E in Hu.
    assert (0 < / INR N) by (apply Rinv_0_lt_compat; lra).
    nra. }
  assert (Hd : d <= 2 * / INR N) by (unfold d; apply Rabs_le; lra).
  lra.
Qed.

Theorem gaussian_integral : 2 * gauss_half_mass = sqrt (2 * PI).
Proof.
  pose proof gauss_half_mass_pos as HG. pose proof PI_RGT_0 as Hpi.
  replace (2 * PI) with ((2 * gauss_half_mass) * (2 * gauss_half_mass))
    by (pose proof gauss_half_mass_sqr; lra).
  rewrite sqrt_square; lra.
Qed.

(** ** The standard normal distribution function *)

(** Modelled from the spec: [scipy.stats.norm.cdf], the external
    collaborator the spec calls the standard normal cumulative distribution
    function (mean 0, variance 1).  [norm_pdf] is the standard normal
    density [exp (- x^2 / 2) / sqrt (2 pi)], and [norm_cdf x] is one half
    plus the integral of the density from [0] to [x]. *)
Definition norm_pdf (x : R) : R := gauss x / sqrt (2 * PI).

Definition norm_cdf (x : R) : R := / 2 + gint x / sqrt (2 * PI).

Lemma norm_pdf_half_mass x : norm_pdf x = gauss x / (2 * gauss_half_mass).
Proof. unfold norm_pdf. rewrite gaussian_integral. reflexivity. Qed.

Lemma norm_cdf_half_mass x : norm_cdf x = / 2 + gint x / (2 * gauss_half_mass).
Proof. unfold norm_cdf. rewrite gaussian_integral. reflexivity. Qed.

Lemma norm_pdf_pos x : 0 < norm_pdf x.
Proof.
  rewrite norm_pdf_half_mass. apply Rdiv_lt_0_compat; [apply gauss_pos|].
  pose proof gauss_half_mass_pos. lra.
Qed.

Lemma norm_cdf_0 : norm_cdf 0 = / 2.
Proof. unfold norm_cdf. rewrite gint_0. unfold Rdiv. ring. Qed.

Lemma norm_cdf_sym x : norm_cdf (- x) = 1 - norm_cdf x.
Proof.
  rewrite !norm_cdf_half_mass, gint_odd.
  pose proof gauss_half_mass_pos. field. lra.
Qed.

Lemma norm_cdf_derivable x : derivable_pt_lim norm_cdf x (norm_pdf x).
Proof.
  unfold norm_cdf, norm_pdf. rewrite <- gaussian_integral.
  apply (derivable_pt_lim_eq _ _ (0 + gauss x * / (2 * gauss_half_mass))).
  - apply (derivable_pt_lim_plus (fun _ => / 2)
             (fun x => gint x / (2 * gauss_half_mass))).
    + apply derivable_pt_lim_const.
    + unfold Rdiv. apply (derivable_pt_lim_scal_right gint), gint_derivable.
  - unfold Rdiv. ring.
Qed.

Lemma norm_pdf_derivable x : derivable_pt_lim norm_pdf x (- x * norm_pdf x).
Proof.
  unfold norm_pdf.
  apply (derivable_pt_lim_eq _ _ (- x * gauss x * / sqrt (2 * PI))).
  - unfold Rdiv. apply (derivable_pt_lim_scal_right gauss), gauss_derivable.
  - unfold Rdiv. ring.
Qed.

Ltac deriv_special ::=
  lazymatch goal with
  | |- derivable_pt_lim (fun x => gint (@?f x)) _ _ =>
      eapply (derivable_pt_lim_comp f gint); [|apply gint_derivable]
  | |- derivable_pt_lim (fun x => norm_cdf (@?f x)) _ _ =>
      eapply (derivable_pt_lim_comp f norm_cdf); [|apply norm_cdf_derivable]
  | |- derivable_pt_lim (fun x => gauss (@?f x)) _ _ =>
      eapply (derivable_pt_lim_comp f gauss); [|apply gauss_derivable]
  end.

Lemma norm_cdf_increasing x y : x < y -> norm_cdf x < norm_cdf y.
Proof.
  intros Hxy. apply (deriv_pos_lt norm_cdf norm_pdf); auto.
  - intros; apply norm_cdf_derivable.
  - intros; apply norm_pdf_pos.
Qed.

Lemma norm_cdf_lt_1 x : norm_cdf x < 1.
Proof.
  rewrite norm_cdf_half_mass.
  pose proof gauss_half_mass_pos as HG.
  pose proof (gint_lt_half_mass x) as Hx.
  assert (gint x / (2 * gauss_half_mass) < / 2); [|lra].
  apply Rmult_lt_reg_r with (2 * gauss_half_mass); [lra|].
  unfold Rdiv. rewrite Rmult_assoc, Rinv_l by lra. lra.
Qed.

Lemma norm_cdf_pos x : 0 < norm_cdf x.
Proof.
  pose proof (norm_cdf_lt_1 (- x)) as H. rewrite norm_cdf_sym in H. lra.
Qed.

(** The distribution function tends to [1] at plus infinity and to [0] at
    minus infinity. *)
Lemma norm_cdf_cv_pos eps :
  0 < eps -> exists A, 0 < A /\ forall x, A <= x -> 1 - eps < norm_cdf x.
Proof.
  intros Heps.
  pose proof gauss_half_mass_pos as HG.
  destruct (gint_cv (eps * (2 * gauss_half_mass))) as [A [HA Hcv]].
  { apply Rmult_lt_0_compat; lra. }
  exists A. split; [exact HA|]. intros x Hx.
  pose proof (Hcv x Hx) as H.
  rewrite norm_cdf_half_mass.
  assert (/ 2 - eps < gint x / (2 * gauss_half_mass)); [|lra].
  apply Rmult_lt_reg_r with (2 * gauss_half_mass); [lra|].
  unfold Rdiv. rewrite Rmult_assoc, Rinv_l by lra. lra.
Qed.

Lemma norm_cdf_cv_neg eps :
  0 < eps -> exists A, 0 < A /\ forall x, x <= - A -> norm_cdf x < eps.
Proof.
  intros Heps. destruct (norm_cdf_cv_pos eps Heps) as [A [HA Hcv]].
  exists A. split; [exact HA|]. intros x Hx.
  pose proof (Hcv (- x) ltac:(lra)) as H. rewrite norm_cdf_sym in H. lra.
Qed.

(** ** Python values, exceptions and function bodies *)

(** A NumPy floating value over exact real arithmetic: rounding and
    overflow are not modelled.  [Finite x] is the real [x].  NumPy does not
    raise when an operation leaves the reals: it warns and returns [nan],
    [inf] or [-inf].  [NanOrInf] records that this happened; it is
    absorbing, so a value computed from a special value is not followed any
    further (the code may still end on a float there, since
    [norm.cdf(inf)] is [1.0]).  The warning itself is not modelled. *)
Inductive npfloat : Type :=
| Finite (x : R)
| NanOrInf.

Inductive pyval : Type :=
| PyFloat (x : npfloat)
| PyNone.

Inductive exn : Type :=
| ZeroDivisionError
| OverflowError
| ValueError (msg : string)
| TypeError.

Inductive result (A : Type) : Type :=
| Return (a : A)
| Raise (e : exn).
Arguments Return {A} a.
Arguments Raise {A} e.

Module Np.

Definition lift1 (f : R -> R) (a : npfloat) : npfloat :=
  match a with
  | Finite x => Finite (f x)
  | NanOrInf => NanOrInf
  end.

Definition lift2 (f : R -> R -> R) (a b : npfloat) : npfloat :=
  match a, b with
  | Finite x, Finite y => Finite (f x y)
  | _, _ => NanOrInf
  end.

Definition add := lift2 Rplus.
Definition sub := lift2 Rminus.
Definition mul := lift2 Rmult.
Definition neg := lift1 Ropp.

(** [np.float64] division: a zero divisor gives [inf] or [nan]. *)
Definition div (a b : npfloat) : npfloat :=
  match a, b with
  | Finite x, Finite y => if Req_dec_T y 0 then NanOrInf else Finite (x / y)
  | _, _ => NanOrInf
  end.

(** [np.log]: [-inf] at zero, [nan] below. *)
Definition log (x : R) : npfloat :=
  if Rlt_dec 0 x then Finite (ln x) else NanOrInf.

(** [np.sqrt]: [nan] below zero. *)
Definition sqrt (x : R) : npfloat :=
  if Rle_dec 0 x then Finite (R_sqrt.sqrt x) else NanOrInf.

(** [np.exp] on the reals, where it never overflows; [Fp.exp] below has
    the range of binary64. *)
Definition exp (x : R) : R := Rtrigo_def.exp x.

End Np.

Declare Scope np_scope.
Delimit Scope np_scope with np.
Bind Scope np_scope with npfloat.
Infix "+" := Np.add : np_scope.
Infix "-" := Np.sub : np_scope.
Infix "*" := Np.mul : np_scope.
Infix "/" := Np.div : np_scope.
Notation "- x" := (Np.neg x) : np_scope.

(** Function bodies are statement sequences over the standard output; a
    statement continues, returns from the function, or raises. *)
Inductive ctl (A : Type) : Type :=
| Next (a : A)
| Ret (v : pyval)
| Exc (e : exn).
Arguments Next {A} a.
Arguments Ret {A} v.
Arguments Exc {A} e.

Definition stdout : Type := list string.

Definition Stmt (A : Type) : Type := stdout -> ctl A * stdout.

Definition pure {A} (a : A) : Stmt A := fun out => (Next a, out).

Definition bind {A B} (m : Stmt A) (k : A -> Stmt B) : Stmt B :=
  fun out =>
    match m out with
    | (Next a, out') => k a out'
    | (Ret v, out') => (Ret v, out')
    | (Exc e, out') => (Exc e, out')
    end.

Notation "x <- m ;; k" := (bind m (fun x => k))
  (at level 61, m at next level, right associativity).
Notation "m ;; k" := (bind m (fun _ => k))
  (at level 61, right associativity).

Definition return_ {A} (v : npfloat) : Stmt A := fun out => (Ret (PyFloat v), out).

Definition raise {A} (e : exn) : Stmt A := fun out => (Exc e, out).

Definition print (line : string) : Stmt unit := fun out => (Next tt, (out ++ [line])%list).

(** Python's [/] on two Python numbers.  With an [np.float64] operand the
    division is NumPy's and does not raise: [Py.truediv] below. *)
Definition py_div (x y : R) : Stmt R :=
  if Req_dec_T y 0 then raise ZeroDivisionError else pure (x / y).

(** A call runs the body; falling off its end returns [None]. *)
Definition call (body : Stmt unit) : stdout -> result pyval * stdout :=
  fun out =>
    match body out with
    | (Next _, out') => (Return PyNone, out')
    | (Ret v, out') => (Return v, out')
    | (Exc e, out') => (Raise e, out')
    end.

(** A call made from inside another body. *)
Definition call_stmt (f : stdout -> result pyval * stdout) : Stmt pyval :=
  fun out =>
    match f out with
    | (Return v, out') => (Next v, out')
    | (Raise e, out') => (Exc e, out')
    end.

Definition pyfun : Type :=
  R -> R -> R -> R -> R -> string -> stdout -> result pyval * stdout.

(** ** The notebook's functions *)

Section Pricer.

(** [norm.cdf] on finite arguments. *)
Variable cdf : R -> R.

(** The [:.2f] conversion of a float inside an f-string. *)
Variable fmt_2f : npfloat -> string.

Definition norm_cdf_np : npfloat -> npfloat := Np.lift1 cdf.

Definition format_2f (v : pyval) : Stmt string :=
  match v with
  | PyFloat x => pure (fmt_2f x)
  | PyNone => raise TypeError
  end.

(** The function of the cell "Define the Black-Scholes Function".  Its
    arguments are Python floats, so [S / K] is Python's division; [np.log]
    returns a NumPy float and the rest of [d1] is NumPy arithmetic.  The
    default ['call'] of [option_type] is supplied by the caller here.
    Over the reals [sigma ** 2] has a value for every [sigma]; the
    [OverflowError] of a Python float is read in [Py.square] below. *)
Definition black_scholes_body (S K T r sigma : R) (option_type : string)
  : Stmt unit :=
  q <- py_div S K ;;
  let d1 := ((Np.log q + Finite ((r + sigma ^ 2 / 2) * T))
             / (Finite sigma * Np.sqrt T))%np in
  let d2 := (d1 - Finite sigma * Np.sqrt T)%np in
  price <-
    (if (option_type =? "call") then
       pure (Finite S * norm_cdf_np d1
             - Finite (K * Np.exp (- r * T)) * norm_cdf_np d2)%np
     else if (option_type =? "put") then
       pure (Finite (K * Np.exp (- r * T)) * norm_cdf_np (- d2)
             - Finite S * norm_cdf_np (- d1))%np
     else raise (ValueError "Option type must be 'call' or 'put'.")) ;;
  return_ price.

Definition black_scholes : pyfun :=
  fun S K T r sigma option_type => call (black_scholes_body S K T r sigma option_type).

(** The function of the cell "Example calculation", which rebinds the
    name [black_scholes].  The name is looked up when the body runs, so
    the two calls after the [return] go through [self], the binding of
    the name at that time. *)
Definition example_body (self : pyfun) (S K T r sigma : R)
  (option_type : string) : Stmt unit :=
  let S := 100 in
  let K := 100 in
  let T := 1 in
  let r := 0.05 in
  let sigma := 0.2 in
  q <- py_div S K ;;
  let d1 := ((Np.log q + Finite ((r + sigma ^ 2 / 2) * T))
             / (Finite sigma * Np.sqrt T))%np in
  let d2 := (d1 - Finite sigma * Np.sqrt T)%np in
  price <-
    (if (option_type =? "call") then
       pure (Finite S * norm_cdf_np d1
             - Finite (K * Np.exp (- r * T)) * norm_cdf_np d2)%np
     else if (option_type =? "put") then
       pure (Finite (K * Np.exp (- r * T)) * norm_cdf_np (- d2)
             - Finite S * norm_cdf_np (- d1))%np
     else raise (ValueError "Option type must be 'call' or 'put'.")) ;;
  return_ (A := unit) price ;;
  call_price <- call_stmt (self S K T r sigma "call") ;;
  put_price <- call_stmt (self S K T r sigma "put") ;;
  s1 <- format_2f call_price ;;
  print ("Call Option Price: $" ++ s1) ;;
  s2 <- format_2f put_price ;;
  print ("Put Option Price: $" ++ s2).

Definition black_scholes_example (self : pyfun) : pyfun :=
  fun S K T r sigma option_type =>
    call (example_body self S K T r sigma option_type).

(** [np.linspace start stop num]. *)
Definition linspace (start stop : R) (num : nat) : list R :=
  map (fun i => start + INR i * ((stop - start) / INR (num - 1))) (seq 0 num).

(** A list comprehension [[f(x) for x in xs]]: the calls run in order and
    the first exception ends the evaluation. *)
Fixpoint comprehension (f : R -> stdout -> result pyval * stdout)
  (xs : list R) (out : stdout) : result (list pyval) * stdout :=
  match xs with
  | [] => (Return [], out)
  | x :: xs' =>
      match f x out with
      | (Return v, out') =>
          match comprehension f xs' out' with
          | (Return vs, out'') => (Return (v :: vs), out'')
          | (Raise e, out'') => (Raise e, out'')
          end
      | (Raise e, out') => (Raise e, out')
      end
  end.

(** The sweep of the cell "Sensitivity Analysis":
    [[black_scholes(S, K, T, r, s, 'call') for s in sigmas]], with [bs]
    the binding of the name [black_scholes] and [S], [K], [T], [r] the
    values of the notebook's globals of these names. *)
Definition volatility_sweep (bs : pyfun) (S K T r : R)
  : stdout -> result (list pyval) * stdout :=
  let sigmas := linspace 0.1 0.5 100 in
  comprehension (fun s => bs S K T r s "call") sigmas.

End Pricer.

(** The sweep of the cell "How does time to maturity affect prices?":
    [call_prices] and [put_prices] are computed one after the other over
    [times = np.linspace(0.1, 2, 100)], with [bs] the binding of the name
    [black_scholes] and [S], [K], [r], [sigma] the values of the notebook's
    globals of these names. *)
Definition maturity_sweep (bs : pyfun) (S K r sigma : R)
  : stdout -> result (list pyval * list pyval) * stdout :=
  fun out =>
    let times := linspace 0.1 2 100 in
    match comprehension (fun t => bs S K t r sigma "call") times out with
    | (Return call_prices, out') =>
        match comprehension (fun t => bs S K t r sigma "put") times out' with
        | (Return put_prices, out'') => (Return (call_prices, put_prices), out'')
        | (Raise e, out'') => (Raise e, out'')
        end
    | (Raise e, out') => (Raise e, out')
    end.

(** ** NumPy's special values *)

(** The pricer once more, with NumPy's special values followed instead of
    absorbed: IEEE 754 arithmetic on exact reals, with signed zeros,
    infinities and [nan], as [np.float64] has it when nothing rounds or
    overflows.  [XReal 0] is [0.0] and [XNegZero] is [-0.0].  The products
    of Python floats [(r + sigma**2 / 2) * T] and [K * np.exp(-r * T)]
    enter as reals: the sign of a zero of the first cannot be observed,
    since it is added to the result of [np.log], which is never [-0.0],
    and the second is not zero once [S / K] has passed. *)
Inductive xfloat : Type :=
| XReal (x : R)
| XNegZero
| XPInf
| XNInf
| XNaN.

Module Ieee.

Definition sign (a : xfloat) : bool :=
  match a with
  | XReal x => if Rlt_dec x 0 then true else false
  | XNegZero => true
  | XPInf => false
  | XNInf => true
  | XNaN => false
  end.

Definition is_zero (a : xfloat) : bool :=
  match a with
  | XReal x => if Req_dec_T x 0 then true else false
  | XNegZero => true
  | _ => false
  end.

Definition is_inf (a : xfloat) : bool :=
  match a with
  | XPInf | XNInf => true
  | _ => false
  end.

Definition is_nan (a : xfloat) : bool :=
  match a with
  | XNaN => true
  | _ => false
  end.

(** The real value of a finite float. *)
Definition value (a : xfloat) : R :=
  match a with
  | XReal x => x
  | _ => 0
  end.

Definition zero (negative : bool) : xfloat := if negative then XNegZero else XReal 0.

Definition inf (negative : bool) : xfloat := if negative then XNInf else XPInf.

(** A finite result [x] whose sign, when it is zero, is [negative]. *)
Definition signed (x : R) (negative : bool) : xfloat :=
  if Req_dec_T x 0 then zero negative else XReal x.

Definition neg (a : xfloat) : xfloat :=
  match a with
  | XReal x => if Req_dec_T x 0 then XNegZero else XReal (- x)
  | XNegZero => XReal 0
  | XPInf => XNInf
  | XNInf => XPInf
  | XNaN => XNaN
  end.

Definition add (a b : xfloat) : xfloat :=
  match a, b with
  | XNaN, _ | _, XNaN => XNaN
  | XPInf, XNInf | XNInf, XPInf => XNaN
  | XPInf, _ | _, XPInf => XPInf
  | XNInf, _ | _, XNInf => XNInf
  | XNegZero, XNegZero => XNegZero
  | XNegZero, XReal y => XReal y
  | XReal x, XNegZero => XReal x
  | XReal x, XReal y => XReal (x + y)
  end.

Definition sub (a b : xfloat) : xfloat := add a (neg b).

Definition mul (a b : xfloat) : xfloat :=
  if is_nan a || is_nan b then XNaN
  else if is_inf a || is_inf b then
    if is_zero a || is_zero b then XNaN else inf (xorb (sign a) (sign b))
  else signed (value a * value b) (xorb (sign a) (sign b)).

Definition div (a b : xfloat) : xfloat :=
  if is_nan a || is_nan b then XNaN
  else if is_inf a then
    if is_inf b then XNaN else inf (xorb (sign a) (sign b))
  else if is_inf b then zero (xorb (sign a) (sign b))
  else if is_zero b then
    if is_zero a then XNaN else inf (xorb (sign a) (sign b))
  else signed (value a / value b) (xorb (sign a) (sign b)).

(** [np.log] of a Python float. *)
Definition log (x : R) : xfloat :=
  if Rlt_dec 0 x then XReal (ln x)
  else if Req_dec_T x 0 then XNInf else XNaN.

(** [np.sqrt] of a Python float. *)
Definition sqrt (x : R) : xfloat :=
  if Rle_dec 0 x then XReal (R_sqrt.sqrt x) else XNaN.

(** [norm.cdf]: [cdf] on finite arguments, [0.0] at [-inf], [1.0] at [inf]. *)
Definition norm_cdf (cdf : R -> R) (a : xfloat) : xfloat :=
  match a with
  | XReal x => XReal (cdf x)
  | XNegZero => XReal (cdf 0)
  | XPInf => XReal 1
  | XNInf => XReal 0
  | XNaN => XNaN
  end.

End Ieee.

Declare Scope ieee_scope.
Delimit Scope ieee_scope with ieee.
Bind Scope ieee_scope with xfloat.
Infix "+" := Ieee.add : ieee_scope.
Infix "-" := Ieee.sub : ieee_scope.
Infix "*" := Ieee.mul : ieee_scope.
Infix "/" := Ieee.div : ieee_scope.
Notation "- x" := (Ieee.neg x) : ieee_scope.


(** ** The notebook's namespace *)

(** The cells read and bind global names.  A name is bound to a Python
    number, to a function of the pricer's signature, to an array or a list
    built by a cell, or to an imported library object. *)
Inductive binding : Type :=
| BNum (x : R)
| BFun (f : pyfun)
| BArray (xs : list R)
| BList (vs : list pyval)
| BLibrary (name : string).

(** The latest binding of a name comes first. *)
Definition namespace : Type := list (string * binding).

Fixpoint lookup (g : namespace) (x : string) : option binding :=
  match g with
  | [] => None
  | (y, b) :: g' => if (x =? y)%string then Some b else lookup g' x
  end.

Definition assign (x : string) (b : binding) (g : namespace) : namespace :=
  (x, b) :: g.

(** What ends a cell early: an unbound name, an exception raised by the
    pricer, or a name bound to a value of a kind the expression cannot use,
    where what Python does is outside this model. *)
Inductive cell_exn : Type :=
| NameError (name : string)
| Raised (e : exn)
| Unsupported.

Inductive cell_result (A : Type) : Type :=
| Value (a : A)
| Fails (e : cell_exn).
Arguments Value {A} a.
Arguments Fails {A} e.

Definition lift_result {A} (p : result A * stdout) : cell_result A * stdout :=
  match p with
  | (Return a, out) => (Value a, out)
  | (Raise e, out) => (Fails (Raised e), out)
  end.

(** Loading a global name inside an expression. *)
Definition with_name {A} (g : namespace) (x : string) (out : stdout)
  (k : binding -> cell_result A * stdout) : cell_result A * stdout :=
  match lookup g x with
  | Some b => k b
  | None => (Fails (NameError x), out)
  end.

(** The call [f(S, K, T, r, sigma, side)], once [f] and its arguments have
    been loaded. *)
Definition call_global (f S K T r sigma : binding) (side : string)
  (out : stdout) : cell_result pyval * stdout :=
  match f, S, K, T, r, sigma with
  | BFun bs, BNum spot, BNum strike, BNum maturity, BNum rate, BNum vol =>
      lift_result (bs spot strike maturity rate vol side out)
  | _, _, _, _, _, _ => (Fails Unsupported, out)
  end.

(** A list comprehension at the top level of a cell. *)
Fixpoint cell_comprehension (f : R -> stdout -> cell_result pyval * stdout)
  (xs : list R) (out : stdout) : cell_result (list pyval) * stdout :=
  match xs with
  | [] => (Value [], out)
  | x :: xs' =>
      match f x out with
      | (Value v, out') =>
          match cell_comprehension f xs' out' with
          | (Value vs, out'') => (Value (v :: vs), out'')
          | (Fails e, out'') => (Fails e, out'')
          end
      | (Fails e, out') => (Fails e, out')
      end
  end.

(** A cell runs in a namespace and leaves a namespace, also when it fails. *)
Definition Cell : Type := namespace -> stdout -> option cell_exn * namespace * stdout.

(** The three imports, with the libraries installed. *)
Definition imports (g : namespace) : namespace :=
  assign "norm" (BLibrary "scipy.stats.norm")
    (assign "plt" (BLibrary "matplotlib.pyplot")
       (assign "np" (BLibrary "numpy") g)).

(** The cell "Install Required Libraries". *)
Definition imports_cell : Cell := fun g out => (None, imports g, out).

(** The cell "Define the Black-Scholes Function".  The name is bound to
    the function with the libraries in place; the lookups of [np] and
    [norm] that the body makes at each call are read in
    [black_scholes_float] below. *)
Definition define_cell (cdf : R -> R) : Cell :=
  fun g out => (None, assign "black_scholes" (BFun (black_scholes cdf)) g, out).

(** The cell "Example calculation": the imports again and the second
    [def].  [self] stands for what the name [black_scholes] is bound to
    when the body looks it up. *)
Definition example_cell (cdf : R -> R) (fmt_2f : npfloat -> string) (self : pyfun)
  : Cell :=
  fun g out =>
    (None, assign "black_scholes" (BFun (black_scholes_example cdf fmt_2f self))
             (imports g), out).

(** The use of a library through its name: [np.linspace], [plt.figure]. *)
Definition with_library {A} (g : namespace) (x library : string)
  (fail : cell_exn -> A) (k : A) : A :=
  match lookup g x with
  | None => fail (NameError x)
  | Some (BLibrary name) => if (name =? library)%string then k else fail Unsupported
  | Some _ => fail Unsupported
  end.

(** [black_scholes(S, K, T, r, s, 'call')] for one [s] of [sigmas]. *)
Definition sensitivity_element (g : namespace) (s : R) (out : stdout)
  : cell_result pyval * stdout :=
  with_name g "black_scholes" out (fun f =>
  with_name g "S" out (fun S =>
  with_name g "K" out (fun K =>
  with_name g "T" out (fun T =>
  with_name g "r" out (fun r =>
  call_global f S K T r (BNum s) "call" out))))).

(** The cell "Sensitivity Analysis".  The plot itself is not modelled,
    only that it goes through the name [plt]. *)
Definition sensitivity_cell : Cell :=
  fun g out =>
    with_library g "np" "numpy" (fun e => (Some e, g, out))
      (let sigmas := linspace 0.1 0.5 100 in
       let g1 := assign "sigmas" (BArray sigmas) g in
       match cell_comprehension (sensitivity_element g1) sigmas out with
       | (Fails e, out') => (Some e, g1, out')
       | (Value prices, out') =>
           let g2 := assign "prices" (BList prices) g1 in
           with_library g2 "plt" "matplotlib.pyplot" (fun e => (Some e, g2, out'))
             (None, g2, out')
       end).

(** [black_scholes(S, K, t, r, sigma, side)] for one [t] of [times]. *)
Definition maturity_element (g : namespace) (side : string) (t : R) (out : stdout)
  : cell_result pyval * stdout :=
  with_name g "black_scholes" out (fun f =>
  with_name g "S" out (fun S =>
  with_name g "K" out (fun K =>
  with_name g "r" out (fun r =>
  with_name g "sigma" out (fun sigma =>
  call_global f S K (BNum t) r sigma side out))))).

(** The cell "How does time to maturity affect prices?". *)
Definition maturity_cell : Cell :=
  fun g out =>
    with_library g "np" "numpy" (fun e => (Some e, g, out))
      (let times := linspace 0.1 2 100 in
       let g1 := assign "times" (BArray times) g in
       match cell_comprehension (maturity_element g1 "call") times out with
       | (Fails e, out') => (Some e, g1, out')
       | (Value call_prices, out') =>
           let g2 := assign "call_prices" (BList call_prices) g1 in
           match cell_comprehension (maturity_element g2 "put") times out' with
           | (Fails e, out'') => (Some e, g2, out'')
           | (Value put_prices, out'') =>
               let g3 := assign "put_prices" (BList put_prices) g2 in
               with_library g3 "plt" "matplotlib.pyplot"
                 (fun e => (Some e, g3, out'')) (None, g3, out'')
           end
       end).

(** Running cells one after the other stops at the first that fails. *)
Fixpoint run_cells (cells : list Cell) (g : namespace) (out : stdout)
  : option cell_exn * namespace * stdout :=
  match cells with
  | [] => (None, g, out)
  | c :: cs =>
      match c g out with
      | (None, g', out') => run_cells cs g' out'
      | (Some e, g', out') => (Some e, g', out')
      end
  end.

(** The code cells of the notebook, top to bottom. *)
Definition notebook (cdf : R -> R) (fmt_2f : npfloat -> string) (self : pyfun)
  : list Cell :=
  [imports_cell; define_cell cdf; example_cell cdf fmt_2f self;
   sensitivity_cell; maturity_cell].

(** ** The pricer on Python and NumPy floats *)

(** [black_scholes] above reads the code over the reals, which is what its
    formula is about.  What follows reads the same lines at the level of
    the floats, for what depends on it: which exception a call raises,
    whether it ends on [nan] or an infinity, what it reads and what it
    leaves behind.  A number is a Python float or an [np.float64], since
    the two do not fail in the same way: Python raises where NumPy warns.
    An [int] argument of magnitude below [2^53] acts as the Python float of
    the same value.  Values are IEEE 754 values over exact reals, with the
    range of binary64 but without its rounding: a finite result whose
    magnitude reaches [2^1024] overflows, and no result is rounded, so
    none underflows. *)
Inductive kind : Type :=
| PythonFloat
| NumpyFloat.

Record num : Type := Num { num_kind : kind; num_val : xfloat }.

(** The floating-point exceptions that NumPy reports, by a
    [RuntimeWarning] in its default error state.  Whether the warning is
    displayed is decided by Python's warning filters, outside this
    model. *)
Inductive fpflag : Type :=
| Invalid
| DivideByZero
| Overflow.

Definition overflow_threshold : R := 2 ^ 1024.

Module Fp.

(** A finite result that leaves the range of binary64 is an infinity. *)
Definition fit (a : xfloat) : xfloat :=
  match a with
  | XReal x =>
      if Rle_dec overflow_threshold (Rabs x) then Ieee.inf (Ieee.sign a) else a
  | _ => a
  end.

Definition overflows (exact : xfloat) : bool :=
  negb (Ieee.is_inf exact) && Ieee.is_inf (fit exact).

(** The exceptions of an operation with operands [args] and exact result
    [exact]: invalid when [nan] comes out of operands that are not [nan],
    division by zero when an infinity comes out of finite operands,
    overflow when a finite result leaves the range. *)
Definition flags (args : list xfloat) (exact : xfloat) : list fpflag :=
  if Ieee.is_nan exact then
    if existsb Ieee.is_nan args then [] else [Invalid]
  else if Ieee.is_inf exact then
    if existsb (fun a => Ieee.is_inf a || Ieee.is_nan a) args then []
    else [DivideByZero]
  else if overflows exact then [Overflow]
  else [].

(** [np.log], [np.sqrt] and [np.exp] on any float. *)
Definition log (a : xfloat) : xfloat :=
  match a with
  | XReal x => Ieee.log x
  | XNegZero => XNInf
  | XPInf => XPInf
  | XNInf => XNaN
  | XNaN => XNaN
  end.

Definition sqrt (a : xfloat) : xfloat :=
  match a with
  | XReal x => Ieee.sqrt x
  | XNegZero => XNegZero
  | XPInf => XPInf
  | XNInf => XNaN
  | XNaN => XNaN
  end.

Definition exp (a : xfloat) : xfloat :=
  match a with
  | XReal x => XReal (Rtrigo_def.exp x)
  | XNegZero => XReal 1
  | XPInf => XPInf
  | XNInf => XReal 0
  | XNaN => XNaN
  end.

End Fp.

(** What a call can read and change: the notebook's global names, the
    standard output and the floating-point exceptions reported so far. *)
Record world : Type :=
  World { globals : namespace; printed : stdout; reported : list fpflag }.

Definition signal (fs : list fpflag) (w : world) : world :=
  match fs with
  | [] => w
  | _ => World (globals w) (printed w) (reported w ++ fs)
  end.

(** A piece of code runs in a world and leaves a world, with a value or
    with the exception that ended it. *)
Definition Run (A : Type) : Type := world -> cell_result A * world.

Definition run_ret {A} (a : A) : Run A := fun w => (Value a, w).

Definition run_fail {A} (e : cell_exn) : Run A := fun w => (Fails e, w).

Definition run_bind {A B} (m : Run A) (k : A -> Run B) : Run B :=
  fun w =>
    match m w with
    | (Value a, w') => k a w'
    | (Fails e, w') => (Fails e, w')
    end.

Declare Scope run_scope.
Delimit Scope run_scope with run.
Notation "x <- m ;; k" := (run_bind m (fun x => k))
  (at level 61, m at next level, right associativity) : run_scope.
Notation "m ;; k" := (run_bind m (fun _ => k))
  (at level 61, right associativity) : run_scope.

(** A global name used as a library: [np.log], [norm.cdf]. *)
Definition use_library (x library : string) : Run unit :=
  fun w => with_library (globals w) x library (fun e => (Fails e, w)) (Value tt, w).

Module Py.

Definition both_python (a b : num) : bool :=
  match num_kind a, num_kind b with
  | PythonFloat, PythonFloat => true
  | _, _ => false
  end.

(** The result of an operation on Python floats: an overflow gives an
    infinity and nothing is reported. *)
Definition python_float (exact : xfloat) : Run num :=
  run_ret (Num PythonFloat (Fp.fit exact)).

(** The result of a NumPy operation: the exceptions are reported. *)
Definition numpy_float (args : list xfloat) (exact : xfloat) : Run num :=
  fun w => (Value (Num NumpyFloat (Fp.fit exact)), signal (Fp.flags args exact) w).

(** [a + b], [a - b], [a * b]: Python's operation when both operands are
    Python floats, NumPy's as soon as one is an [np.float64]. *)
Definition binary (op : xfloat -> xfloat -> xfloat) (a b : num) : Run num :=
  let exact := op (num_val a) (num_val b) in
  if both_python a b then python_float exact
  else numpy_float [num_val a; num_val b] exact.

Definition add : num -> num -> Run num := binary Ieee.add.
Definition sub : num -> num -> Run num := binary Ieee.sub.
Definition mul : num -> num -> Run num := binary Ieee.mul.

(** [a / b]: Python raises on a zero divisor of either sign, NumPy
    divides. *)
Definition truediv (a b : num) : Run num :=
  if both_python a b && Ieee.is_zero (num_val b)
  then run_fail (Raised ZeroDivisionError)
  else binary Ieee.div a b.

(** [a ** 2]: Python raises when the square of a finite float overflows,
    NumPy returns [inf]. *)
Definition square (a : num) : Run num :=
  let exact := Ieee.mul (num_val a) (num_val a) in
  match num_kind a with
  | PythonFloat =>
      if Fp.overflows exact then run_fail (Raised OverflowError)
      else run_ret (Num PythonFloat exact)
  | NumpyFloat => numpy_float [num_val a] exact
  end.

(** [- a]. *)
Definition neg (a : num) : num := Num (num_kind a) (Ieee.neg (num_val a)).

(** A Python float of real value [x]; the literal [2]. *)
Definition float (x : R) : num := Num PythonFloat (XReal x).

Definition two : num := float 2.

(** [np.log(a)], [np.sqrt(a)], [np.exp(a)]: an [np.float64]. *)
Definition np_log (a : num) : Run num :=
  numpy_float [num_val a] (Fp.log (num_val a)).

Definition np_sqrt (a : num) : Run num :=
  numpy_float [num_val a] (Fp.sqrt (num_val a)).

Definition np_exp (a : num) : Run num :=
  numpy_float [num_val a] (Fp.exp (num_val a)).

(** [norm.cdf(a)]: an [np.float64]; the function reports nothing. *)
Definition norm_cdf (cdf : R -> R) (a : num) : Run num :=
  run_ret (Num NumpyFloat (Ieee.norm_cdf cdf (num_val a))).

End Py.

(** The two operands of the quotient [d1], in the order in which Python
    evaluates them: in [np.log(S / K)] the name [np] is looked up before
    [S / K] is computed. *)
Definition numerator_float (S K T r sigma : num) : Run num :=
  (use_library "np" "numpy" ;;
   q <- Py.truediv S K ;;
   l <- Py.np_log q ;;
   s2 <- Py.square sigma ;;
   h <- Py.truediv s2 Py.two ;;
   a <- Py.add r h ;;
   m <- Py.mul a T ;;
   Py.add l m)%run.

Definition divisor_float (T sigma : num) : Run num :=
  (use_library "np" "numpy" ;;
   st <- Py.np_sqrt T ;;
   Py.mul sigma st)%run.

(** The two assignments of the cell "Define the Black-Scholes Function". *)
Definition d1_d2_float (S K T r sigma : num) : Run (num * num) :=
  (n <- numerator_float S K T r sigma ;;
   v <- divisor_float T sigma ;;
   d1 <- Py.truediv n v ;;
   v' <- divisor_float T sigma ;;
   d2 <- Py.sub d1 v' ;;
   run_ret (d1, d2))%run.

(** The function itself: the side is looked at once [d1] and [d2] are
    there, and [norm] is looked up only in the two branches. *)
Definition black_scholes_float (cdf : R -> R) (S K T r sigma : num)
  (option_type : string) : Run num :=
  (d <- d1_d2_float S K T r sigma ;;
   let d1 := fst d in
   let d2 := snd d in
   if (option_type =? "call")%string then
     use_library "norm" "scipy.stats.norm" ;;
     c1 <- Py.norm_cdf cdf d1 ;;
     x <- Py.mul S c1 ;;
     use_library "np" "numpy" ;;
     rt <- Py.mul (Py.neg r) T ;;
     e <- Py.np_exp rt ;;
     ke <- Py.mul K e ;;
     use_library "norm" "scipy.stats.norm" ;;
     c2 <- Py.norm_cdf cdf d2 ;;
     y <- Py.mul ke c2 ;;
     Py.sub x y
   else if (option_type =? "put")%string then
     use_library "np" "numpy" ;;
     rt <- Py.mul (Py.neg r) T ;;
     e <- Py.np_exp rt ;;
     ke <- Py.mul K e ;;
     use_library "norm" "scipy.stats.norm" ;;
     c2 <- Py.norm_cdf cdf (Py.neg d2) ;;
     x <- Py.mul ke c2 ;;
     use_library "norm" "scipy.stats.norm" ;;
     c1 <- Py.norm_cdf cdf (Py.neg d1) ;;
     y <- Py.mul S c1 ;;
     Py.sub x y
   else run_fail (Raised (ValueError "Option type must be 'call' or 'put'.")))%run.

(** A list comprehension whose calls run in a world. *)
Fixpoint run_comprehension {A} (f : A -> Run num) (xs : list A) : Run (list num) :=
  match xs with
  | [] => run_ret []
  | x :: xs' =>
      (v <- f x ;; vs <- run_comprehension f xs' ;; run_ret (v :: vs))%run
  end.

(** The sweep of the cell "Sensitivity Analysis" in a world: the elements
    of [sigmas] are [np.float64] values. *)
Definition volatility_sweep_float
  (bs : num -> num -> num -> num -> num -> string -> Run num) (S K T r : num)
  : Run (list num) :=
  run_comprehension (fun s => bs S K T r (Num NumpyFloat (XReal s)) "call")
    (linspace 0.1 0.5 100).

(** The sweep of the cell "How does time to maturity affect prices?" in
    a world: the elements of [times] are [np.float64] values, and
    [put_prices] is computed after [call_prices]. *)
Definition maturity_sweep_float
  (bs : num -> num -> num -> num -> num -> string -> Run num) (S K r sigma : num)
  : Run (list num * list num) :=
  (call_prices <- run_comprehension
                    (fun t => bs S K (Num NumpyFloat (XReal t)) r sigma "call")
                    (linspace 0.1 2 100) ;;
   put_prices <- run_comprehension
                   (fun t => bs S K (Num NumpyFloat (XReal t)) r sigma "put")
                   (linspace 0.1 2 100) ;;
   run_ret (call_prices, put_prices))%run.

(** The real number that a finite float stands for. *)
Definition absorb (a : xfloat) : npfloat :=
  match a with
  | XReal x => Finite x
  | XNegZero => Finite 0
  | _ => NanOrInf
  end.

(** [is_real a x]: the number [a] is a finite float of value [x], of
    either kind and, when [x] is zero, of either sign. *)
Definition is_real (a : num) (x : R) : Prop := absorb (num_val a) = Finite x.

(** The two inputs on which Python raises before the side is looked at:
    a zero divisor in [S / K] when both are Python floats, and a finite
    Python float [sigma] whose square overflows. *)
Definition zero_divisor (S K : num) : Prop :=
  num_kind S = PythonFloat /\ num_kind K = PythonFloat /\
  (num_val K = XReal 0 \/ num_val K = XNegZero).

Definition square_overflows (sigma : num) : Prop :=
  num_kind sigma = PythonFloat /\
  exists x, num_val sigma = XReal x /\ 2 ^ 512 <= Rabs x.

(** Parameters for which no operation of the pricer leaves the range of
    binary64. *)
Definition in_box (S K T r sigma : R) : Prop :=
  / 2 ^ 500 <= S <= 2 ^ 500 /\ / 2 ^ 500 <= K <= 2 ^ 500 /\
  / 2 ^ 100 <= T <= 2 ^ 100 /\ / 2 ^ 100 <= sigma <= 2 ^ 100 /\
  Rabs r <= 2 ^ 100.

Definition in_range (S K T r sigma : R) : Prop :=
  in_box S K T r sigma /\ Rabs (r * T) <= 300.

(** The two global names that the pricer looks up. *)
Definition view (w : world) : option binding * option binding :=
  (lookup (globals w) "np", lookup (globals w) "norm").

(** The world once the import cell has run in a fresh session. *)
Definition imported : world := World (imports []) [] [].

(** ** The closed-form prices as the specification writes them *)

Module Spec.

Definition d1 (spot strike maturity rate volatility : R) : R :=
  (ln (spot / strike) + (rate + volatility ^ 2 / 2) * maturity)
  / (volatility * sqrt maturity).

Definition d2 (spot strike maturity rate volatility : R) : R :=
  d1 spot strike maturity rate volatility - volatility * sqrt maturity.

Definition call_price (Phi : R -> R) (spot strike maturity rate volatility : R) : R :=
  spot * Phi (d1 spot strike maturity rate volatility)
  - strike * exp (- rate * maturity) * Phi (d2 spot strike maturity rate volatility).

Definition put_price (Phi : R -> R) (spot strike maturity rate volatility : R) : R :=
  strike * exp (- rate * maturity) * Phi (- d2 spot strike maturity rate volatility)
  - spot * Phi (- d1 spot strike maturity rate volatility).

End Spec.

(** ** Running [black_scholes] on valid parameters *)

Lemma np_log_pos x : 0 < x -> Np.log x = Finite (ln x).
Proof. intros H. unfold Np.log. destruct (Rlt_dec 0 x); [reflexivity|lra]. Qed.

Lemma np_sqrt_nonneg x : 0 <= x -> Np.sqrt x = Finite (sqrt x).
Proof. intros H. unfold Np.sqrt. destruct (Rle_dec 0 x); [reflexivity|lra]. Qed.

Lemma np_div_finite x y : y <> 0 -> Np.div (Finite x) (Finite y) = Finite (x / y).
Proof. intros H. unfold Np.div. destruct (Req_dec_T y 0); [lra|reflexivity]. Qed.

Lemma py_div_nonzero x y out : y <> 0 -> py_div x y out = (Next (x / y), out).
Proof. intros H. unfold py_div. destruct (Req_dec_T y 0); [lra|reflexivity]. Qed.

Lemma py_div_zero x out : py_div x 0 out = (Exc ZeroDivisionError, out).
Proof. unfold py_div. destruct (Req_dec_T 0 0); [reflexivity|lra]. Qed.

Lemma vol_sqrt_pos T sigma : 0 < T -> 0 < sigma -> 0 < sigma * sqrt T.
Proof. intros HT Hs. apply Rmult_lt_0_compat; [exact Hs|apply sqrt_lt_R0; exact HT]. Qed.

Lemma black_scholes_call_run cdf S K T r sigma out :
  0 < S -> 0 < K -> 0 < T -> 0 < sigma ->
  black_scholes cdf S K T r sigma "call" out
  = (Return (PyFloat (Finite (Spec.call_price cdf S K T r sigma))), out).
Proof.
  intros HS HK HT Hsig.
  pose proof (vol_sqrt_pos T sigma HT Hsig) as Hv.
  unfold black_scholes, call, black_scholes_body, bind.
  rewrite py_div_nonzero by lra.
  rewrite np_log_pos by (apply Rdiv_lt_0_compat; assumption).
  rewrite np_sqrt_nonneg by lra.
  cbn [String.eqb Ascii.eqb Bool.eqb Np.add Np.mul Np.sub Np.lift2 pure return_
       norm_cdf_np Np.lift1].
  rewrite np_div_finite by lra.
  reflexivity.
Qed.

Lemma black_scholes_put_run cdf S K T r sigma out :
  0 < S -> 0 < K -> 0 < T -> 0 < sigma ->
  black_scholes cdf S K T r sigma "put" out
  = (Return (PyFloat (Finite (Spec.put_price cdf S K T r sigma))), out).
Proof.
  intros HS HK HT Hsig.
  pose proof (vol_sqrt_pos T sigma HT Hsig) as Hv.
  unfold black_scholes, call, black_scholes_body, bind.
  rewrite py_div_nonzero by lra.
  rewrite np_log_pos by (apply Rdiv_lt_0_compat; assumption).
  rewrite np_sqrt_nonneg by lra.
  cbn [String.eqb Ascii.eqb Bool.eqb Np.add Np.mul Np.sub Np.lift2 pure return_
       norm_cdf_np Np.lift1 Np.neg].
  rewrite np_div_finite by lra.
  reflexivity.
Qed.

(** Every call leaves the standard output alone, and its result does not
    depend on what was printed before. *)
Lemma black_scholes_pure cdf S K T r sigma option_type :
  exists res, forall out,
    black_scholes cdf S K T r sigma option_type out = (res, out).
Proof.
  unfold black_scholes, call, black_scholes_body, bind, py_div.
  destruct (Req_dec_T K 0).
  - eexists; intros out; reflexivity.
  - destruct (option_type =? "call").
    + eexists; intros out; reflexivity.
    + destruct (option_type =? "put"); eexists; intros out; reflexivity.
Qed.

Lemma black_scholes_invalid_side cdf S K T r sigma option_type out :
  K <> 0 -> option_type <> "call" -> option_type <> "put" ->
  black_scholes cdf S K T r sigma option_type out
  = (Raise (ValueError "Option type must be 'call' or 'put'."), out).
Proof.
  intros HK Hc Hp.
  apply String.eqb_neq in Hc. apply String.eqb_neq in Hp.
  unfold black_scholes, call, black_scholes_body, bind.
  rewrite py_div_nonzero by exact HK.
  rewrite Hc, Hp. reflexivity.
Qed.

Lemma black_scholes_valid_side cdf S K T r sigma option_type out :
  K <> 0 -> option_type = "call" \/ option_type = "put" ->
  exists v, black_scholes cdf S K T r sigma option_type out
            = (Return (PyFloat v), out).
Proof.
  intros HK Hside.
  unfold black_scholes, call, black_scholes_body, bind.
  rewrite py_div_nonzero by exact HK.
  destruct Hside as [-> | ->]; eexists; reflexivity.
Qed.

Lemma black_scholes_zero_strike cdf S T r sigma option_type out :
  black_scholes cdf S 0 T r sigma option_type out = (Raise ZeroDivisionError, out).
Proof.
  unfold black_scholes, call, black_scholes_body, bind.
  rewrite py_div_zero. reflexivity.
Qed.

Lemma comprehension_pure (f : R -> stdout -> result pyval * stdout) xs :
  (forall x, exists res, forall out, f x out = (res, out)) ->
  exists res, forall out, comprehension f xs out = (res, out).
Proof.
  intros Hf. induction xs as [|x xs IH].
  - exists (Return []). reflexivity.
  - destruct (Hf x) as [rx Hx]. destruct IH as [rs Hrs].
    destruct rx as [v|e].
    + destruct rs as [vs|e].
      * exists (Return (v :: vs)). intros out. simpl. rewrite Hx, Hrs. reflexivity.
      * exists (Raise e). intros out. simpl. rewrite Hx, Hrs. reflexivity.
    + exists (Raise e). intros out. simpl. rewrite Hx. reflexivity.
Qed.

(** The example cell's function stops at its [return]. *)
Lemma example_is_fixed_call cdf fmt_2f self S K T r sigma option_type out :
  black_scholes_example cdf fmt_2f self S K T r sigma option_type out
  = black_scholes cdf 100 100 1 0.05 0.2 option_type out.
Proof.
  unfold black_scholes_example, black_scholes, call, example_body,
    black_scholes_body, bind.
  rewrite py_div_nonzero by lra.
  destruct (option_type =? "call"); [reflexivity|].
  destruct (option_type =? "put"); reflexivity.
Qed.

(** ** The normalised price *)

(** With [a = ln (S / K) + r * T] and [v = sigma * sqrt T], the call price
    is [K * exp (- r * T) * bs_core a v] and the put price is
    [S * bs_core (- a) v]. *)
Definition bs_core (a v : R) : R :=
  exp a * norm_cdf (a / v + v / 2) - norm_cdf (a / v - v / 2).

Lemma norm_pdf_shift a v :
  v <> 0 -> exp a * norm_pdf (a / v + v / 2) = norm_pdf (a / v - v / 2).
Proof.
  intros Hv. unfold norm_pdf, gauss, Rdiv.
  rewrite <- Rmult_assoc, <- exp_plus.
  f_equal. f_equal. field. exact Hv.
Qed.

Lemma bs_core_deriv_v a v :
  0 < v ->
  derivable_pt_lim (fun v => bs_core a v) v (norm_pdf (a / v - v / 2)).
Proof.
  intros Hv. unfold bs_core.
  derive.
  rewrite <- (norm_pdf_shift a v) by lra. field. lra.
Qed.

Lemma bs_core_deriv_a a v :
  0 < v ->
  derivable_pt_lim (fun a => bs_core a v) a (exp a * norm_cdf (a / v + v / 2)).
Proof.
  intros Hv. unfold bs_core.
  derive.
  rewrite <- (norm_pdf_shift a v) by lra. field. lra.
Qed.

Lemma bs_core_monotone_v a v1 v2 :
  0 < v1 -> v1 <= v2 -> bs_core a v1 <= bs_core a v2.
Proof.
  intros Hv1 Hv.
  apply (deriv_nonneg_le (fun v => bs_core a v)
           (fun v => norm_pdf (a / v - v / 2))); [exact Hv| |].
  - intros c Hc. apply bs_core_deriv_v. lra.
  - intros c _. left. apply norm_pdf_pos.
Qed.

Lemma bs_core_increasing_a a1 a2 v :
  0 < v -> a1 < a2 -> bs_core a1 v < bs_core a2 v.
Proof.
  intros Hv Ha.
  apply (deriv_pos_lt (fun a => bs_core a v)
           (fun a => exp a * norm_cdf (a / v + v / 2))); [exact Ha| |].
  - intros c _. apply bs_core_deriv_a. exact Hv.
  - intros c _. apply Rmult_lt_0_compat; [apply exp_pos|apply norm_cdf_pos].
Qed.

Lemma bs_core_lower a v : - norm_cdf (a / v - v / 2) < bs_core a v.
Proof.
  unfold bs_core.
  assert (0 < exp a * norm_cdf (a / v + v / 2)); [|lra].
  apply Rmult_lt_0_compat; [apply exp_pos|apply norm_cdf_pos].
Qed.

(** The normalised price is positive: it increases with [a] and is bounded
    below by a quantity that vanishes as [a] tends to minus infinity. *)
Lemma bs_core_pos a v : 0 < v -> 0 < bs_core a v.
Proof.
  intros Hv.
  apply Rnot_le_lt. intros Hle.
  pose proof (bs_core_increasing_a (a - 1) a v Hv ltac:(lra)) as Hlt.
  set (delta := - bs_core (a - 1) v) in *.
  assert (Hdelta : 0 < delta) by (unfold delta; lra).
  destruct (norm_cdf_cv_neg delta Hdelta) as [A [HA Hcv]].
  (* a point [b <= a - 1] far enough to the left *)
  set (b := Rmin (a - 1) (v * (v / 2 - A))).
  assert (Hb1 : b <= a - 1) by apply Rmin_l.
  assert (Hb2 : b / v - v / 2 <= - A).
  { assert (b <= v * (v / 2 - A)) by apply Rmin_r.
    assert (b / v <= v / 2 - A); [|lra].
    apply Rmult_le_reg_r with v; [exact Hv|].
    unfold Rdiv at 1. rewrite Rmult_assoc, Rinv_l by lra. lra. }
  pose proof (Hcv _ Hb2) as Hsmall.
  pose proof (bs_core_lower b v) as Hlow.
  assert (Hmono : bs_core b v <= bs_core (a - 1) v).
  { destruct Hb1 as [Hb1| ->]; [left; apply bs_core_increasing_a; assumption|lra]. }
  unfold delta in Hsmall. lra.
Qed.

Lemma d1_core S K T r sigma :
  0 < T -> 0 < sigma ->
  Spec.d1 S K T r sigma
  = (ln (S / K) + r * T) / (sigma * sqrt T) + sigma * sqrt T / 2.
Proof.
  intros HT Hs. unfold Spec.d1.
  pose proof (sqrt_lt_R0 T HT) as Hq.
  pose proof (sqrt_sqrt T ltac:(lra)) as Hqq.
  remember (sqrt T) as q eqn:Eq. clear Eq.
  rewrite <- Hqq. simpl pow. field. lra.
Qed.

Lemma d2_core S K T r sigma :
  0 < T -> 0 < sigma ->
  Spec.d2 S K T r sigma
  = (ln (S / K) + r * T) / (sigma * sqrt T) - sigma * sqrt T / 2.
Proof.
  intros HT Hs. unfold Spec.d2. rewrite d1_core by assumption. field.
  pose proof (sqrt_lt_R0 T HT). lra.
Qed.

Lemma call_price_core S K T r sigma :
  0 < S -> 0 < K -> 0 < T -> 0 < sigma ->
  Spec.call_price norm_cdf S K T r sigma
  = K * exp (- r * T) * bs_core (ln (S / K) + r * T) (sigma * sqrt T).
Proof.
  intros HS HK HT Hs. unfold Spec.call_price, bs_core.
  rewrite d1_core, d2_core by assumption.
  rewrite exp_plus, exp_ln by (apply Rdiv_lt_0_compat; assumption).
  replace (K * exp (- r * T) * (S / K * exp (r * T) *
             norm_cdf ((ln (S / K) + r * T) / (sigma * sqrt T) + sigma * sqrt T / 2) -
             norm_cdf ((ln (S / K) + r * T) / (sigma * sqrt T) - sigma * sqrt T / 2)))
    with (S * (exp (- r * T) * exp (r * T)) *
            norm_cdf ((ln (S / K) + r * T) / (sigma * sqrt T) + sigma * sqrt T / 2) -
          K * exp (- r * T) *
            norm_cdf ((ln (S / K) + r * T) / (sigma * sqrt T) - sigma * sqrt T / 2))
    by (field; lra).
  rewrite <- exp_plus.
  replace (- r * T + r * T) with 0 by ring. rewrite exp_0. ring.
Qed.

Lemma put_price_core S K T r sigma :
  0 < S -> 0 < K -> 0 < T -> 0 < sigma ->
  Spec.put_price norm_cdf S K T r sigma
  = S * bs_core (- (ln (S / K) + r * T)) (sigma * sqrt T).
Proof.
  intros HS HK HT Hs. unfold Spec.put_price, bs_core.
  rewrite d1_core, d2_core by assumption.
  pose proof (sqrt_lt_R0 T HT) as Hq.
  replace (- (ln (S / K) + r * T) / (sigma * sqrt T) + sigma * sqrt T / 2)
    with (- ((ln (S / K) + r * T) / (sigma * sqrt T) - sigma * sqrt T / 2))
    by (field; lra).
  replace (- (ln (S / K) + r * T) / (sigma * sqrt T) - sigma * sqrt T / 2)
    with (- ((ln (S / K) + r * T) / (sigma * sqrt T) + sigma * sqrt T / 2))
    by (field; lra).
  rewrite (Ropp_plus_distr (ln (S / K)) (r * T)), exp_plus, exp_Ropp.
  rewrite exp_ln by (apply Rdiv_lt_0_compat; assumption).
  replace (- (r * T)) with (- r * T) by ring.
  field. lra.
Qed.

Lemma put_call_parity_real S K T r sigma :
  Spec.call_price norm_cdf S K T r sigma - Spec.put_price norm_cdf S K T r sigma
  = S - K * exp (- r * T).
Proof.
  unfold Spec.call_price, Spec.put_price.
  rewrite !norm_cdf_sym. ring.
Qed.

(** ** Limits as the maturity tends to zero from above *)

Definition right_limit_at_0 (f : R -> R) (l : R) : Prop :=
  limit1_in f (fun T => 0 < T) l 0.

Lemma right_limit_intro (f : R -> R) (l : R) :
  (forall eps, 0 < eps ->
     exists delta, 0 < delta /\ forall T, 0 < T < delta -> Rabs (f T - l) < eps) ->
  right_limit_at_0 f l.
Proof.
  intros H eps Heps. destruct (H eps Heps) as [delta [Hd Hf]].
  exists delta. split; [exact Hd|].
  intros T [HT Hdist]. simpl in *. unfold R_dist in *.
  apply Hf. rewrite Rminus_0_r in Hdist.
  rewrite Rabs_pos_eq in Hdist by lra. lra.
Qed.

Lemma right_limit_elim (f : R -> R) (l : R) :
  right_limit_at_0 f l ->
  forall eps, 0 < eps ->
    exists delta, 0 < delta /\ forall T, 0 < T < delta -> Rabs (f T - l) < eps.
Proof.
  intros H eps Heps. destruct (H eps Heps) as [delta [Hd Hf]].
  exists delta. split; [exact Hd|].
  intros T [HT1 HT2]. apply (Hf T). split; [exact HT1|].
  simpl. unfold R_dist. rewrite Rminus_0_r, Rabs_pos_eq by lra. exact HT2.
Qed.

Lemma right_limit_ext (f g : R -> R) (l : R) :
  (forall T, 0 < T -> f T = g T) -> right_limit_at_0 f l -> right_limit_at_0 g l.
Proof.
  intros Hfg H eps Heps. destruct (H eps Heps) as [delta [Hd Hf]].
  exists delta. split; [exact Hd|].
  intros T [HT Hdist]. rewrite <- Hfg by exact HT. apply Hf. split; assumption.
Qed.

Lemma right_limit_continuous (f : R -> R) :
  continuity_pt f 0 -> right_limit_at_0 f (f 0).
Proof.
  intros Hc eps Heps. destruct (Hc eps Heps) as [delta [Hd Hf]].
  exists delta. split; [exact Hd|].
  intros T [HT Hdist]. apply Hf. split; [|exact Hdist].
  split; [exact I|]. lra.
Qed.

Lemma sqrt_small eps :
  0 < eps -> exists delta, 0 < delta /\ forall T, 0 < T < delta -> sqrt T < eps.
Proof.
  intros Heps. exists (eps * eps). split; [apply Rmult_lt_0_compat; lra|].
  intros T [HT1 HT2].
  rewrite <- (sqrt_square eps) by lra.
  apply sqrt_lt_1; lra.
Qed.

Lemma right_limit_sqrt : right_limit_at_0 sqrt 0.
Proof.
  apply right_limit_intro. intros eps Heps.
  destruct (sqrt_small eps Heps) as [delta [Hd H]].
  exists delta. split; [exact Hd|]. intros T HT.
  pose proof (sqrt_lt_R0 T (proj1 HT)). pose proof (H T HT).
  rewrite Rminus_0_r, Rabs_pos_eq by lra. assumption.
Qed.

Lemma right_limit_discount r : right_limit_at_0 (fun T => exp (- r * T)) 1.
Proof.
  replace 1 with (exp (- r * 0)) by (rewrite Rmult_0_r; apply exp_0).
  apply (right_limit_continuous (fun T => exp (- r * T))).
  apply derivable_continuous_pt.
  eexists. unfold derivable_pt_abs. repeat deriv_step.
Qed.

(** Divergence to plus or minus infinity as [T] tends to [0] from above. *)
Definition diverges_up (d : R -> R) : Prop :=
  forall A, exists delta, 0 < delta /\ forall T, 0 < T < delta -> A <= d T.

Definition diverges_down (d : R -> R) : Prop :=
  forall A, exists delta, 0 < delta /\ forall T, 0 < T < delta -> d T <= - A.

Lemma norm_cdf_diverges_up d :
  diverges_up d -> right_limit_at_0 (fun T => norm_cdf (d T)) 1.
Proof.
  intros Hd. apply right_limit_intro. intros eps Heps.
  destruct (norm_cdf_cv_pos eps Heps) as [A [HA Hcv]].
  destruct (Hd A) as [delta [Hdelta HdT]].
  exists delta. split; [exact Hdelta|]. intros T HT.
  pose proof (Hcv _ (HdT T HT)). pose proof (norm_cdf_lt_1 (d T)).
  apply Rabs_def1; lra.
Qed.

Lemma norm_cdf_diverges_down d :
  diverges_down d -> right_limit_at_0 (fun T => norm_cdf (d T)) 0.
Proof.
  intros Hd. apply right_limit_intro. intros eps Heps.
  destruct (norm_cdf_cv_neg eps Heps) as [A [HA Hcv]].
  destruct (Hd A) as [delta [Hdelta HdT]].
  exists delta. split; [exact Hdelta|]. intros T HT.
  pose proof (Hcv _ (HdT T HT)). pose proof (norm_cdf_pos (d T)).
  apply Rabs_def1; lra.
Qed.

Lemma norm_cdf_right_limit_0 d :
  right_limit_at_0 d 0 -> right_limit_at_0 (fun T => norm_cdf (d T)) (/ 2).
Proof.
  intros Hd. rewrite <- norm_cdf_0.
  apply right_limit_intro. intros eps Heps.
  assert (Hc : continuity_pt norm_cdf 0).
  { apply derivable_continuous_pt. exists (norm_pdf 0). apply norm_cdf_derivable. }
  destruct (Hc eps Heps) as [alpha [Halpha Hcont]].
  destruct (right_limit_elim d 0 Hd alpha Halpha) as [delta [Hdelta HdT]].
  exists delta. split; [exact Hdelta|]. intros T HT.
  pose proof (HdT T HT) as Hclose.
  destruct (Req_dec (d T) 0) as [Hz|Hnz].
  - rewrite Hz. rewrite Rminus_diag, Rabs_R0. exact Heps.
  - apply (Hcont (d T)). split.
    + split; [exact I|]. intros Heq. apply Hnz. symmetry. exact Heq.
    + exact Hclose.
Qed.

Lemma right_limit_const c : right_limit_at_0 (fun _ => c) c.
Proof. apply (limit_free (fun _ => c) (fun T => 0 < T) 0 0). Qed.

Lemma ratio_diverges_up L c sigma :
  0 < L -> 0 < sigma ->
  diverges_up (fun T => (L + c * T) / (sigma * sqrt T)).
Proof.
  intros HL Hs A.
  set (A' := Rmax A 1).
  assert (HA' : 0 < A') by (unfold A'; pose proof (Rmax_r A 1); lra).
  assert (HAA' : A <= A') by apply Rmax_l.
  assert (Heps : 0 < L / (2 * sigma * A')).
  { apply Rdiv_lt_0_compat; [exact HL|].
    apply Rmult_lt_0_compat; [lra|exact HA']. }
  destruct (sqrt_small _ Heps) as [d1 [Hd1 Hsq]].
  set (d2 := L / (2 * (Rabs c + 1))).
  pose proof (Rabs_pos c) as Hc.
  assert (Hd2 : 0 < d2) by (apply Rdiv_lt_0_compat; lra).
  exists (Rmin d1 d2). split; [apply Rmin_pos; assumption|].
  intros T [HT0 HT].
  assert (HT1 : T < d1) by (eapply Rlt_le_trans; [exact HT|apply Rmin_l]).
  assert (HT2 : T < d2) by (eapply Rlt_le_trans; [exact HT|apply Rmin_r]).
  pose proof (Hsq T (conj HT0 HT1)) as Hsqrt.
  pose proof (sqrt_lt_R0 T HT0) as Hq.
  (* the numerator stays above [L / 2] *)
  assert (Hnum : L / 2 <= L + c * T).
  { assert (Rabs c * T <= L / 2).
    { apply Rle_trans with (Rabs c * d2).
      - apply Rmult_le_compat_l; lra.
      - unfold d2.
        apply Rmult_le_reg_r with (2 * (Rabs c + 1)); [lra|].
        replace (Rabs c * (L / (2 * (Rabs c + 1))) * (2 * (Rabs c + 1)))
          with (Rabs c * L) by (field; lra).
        nra. }
    assert (- (Rabs c * T) <= c * T).
    { pose proof (Rle_abs (- c)) as H1. rewrite Rabs_Ropp in H1.
      assert (- c * T <= Rabs c * T) by (apply Rmult_le_compat_r; lra). lra. }
    lra. }
  (* the denominator is below [L / (2 A')] *)
  assert (Hden : A' * (sigma * sqrt T) <= L / 2).
  { apply Rle_trans with (A' * (sigma * (L / (2 * sigma * A')))).
    - apply Rmult_le_compat_l; [lra|]. apply Rmult_le_compat_l; lra.
    - right. field. split; lra. }
  assert (Hv : 0 < sigma * sqrt T) by (apply Rmult_lt_0_compat; assumption).
  apply Rmult_le_reg_r with (sigma * sqrt T); [exact Hv|].
  unfold Rdiv. rewrite Rmult_assoc, Rinv_l by lra. rewrite Rmult_1_r.
  apply Rle_trans with (A' * (sigma * sqrt T)); [|lra].
  apply Rmult_le_compat_r; lra.
Qed.

Lemma ratio_diverges_down L c sigma :
  L < 0 -> 0 < sigma ->
  diverges_down (fun T => (L + c * T) / (sigma * sqrt T)).
Proof.
  intros HL Hs A.
  destruct (ratio_diverges_up (- L) (- c) sigma ltac:(lra) Hs A)
    as [delta [Hd H]].
  exists delta. split; [exact Hd|]. intros T HT.
  pose proof (H T HT) as HA.
  replace ((L + c * T) / (sigma * sqrt T))
    with (- ((- L + - c * T) / (sigma * sqrt T))); [lra|].
  pose proof (sqrt_lt_R0 T (proj1 HT)). field. split; lra.
Qed.

Lemma ratio_right_limit_0 c sigma :
  0 < sigma ->
  right_limit_at_0 (fun T => (0 + c * T) / (sigma * sqrt T)) 0.
Proof.
  intros Hs.
  apply (right_limit_ext (fun T => c / sigma * sqrt T)).
  - intros T HT. pose proof (sqrt_lt_R0 T HT) as Hq.
    pose proof (sqrt_sqrt T ltac:(lra)) as Hqq.
    remember (sqrt T) as q eqn:Eq. clear Eq.
    rewrite <- Hqq. field. split; lra.
  - replace 0 with (c / sigma * 0) at 1 by ring.
    apply (limit_mul (fun _ => c / sigma) sqrt).
    + apply right_limit_const.
    + apply right_limit_sqrt.
Qed.

Lemma right_limit_vol_sqrt sigma : right_limit_at_0 (fun T => sigma * sqrt T) 0.
Proof.
  replace 0 with (sigma * 0) at 1 by ring.
  apply (limit_mul (fun _ => sigma) sqrt).
  - apply right_limit_const.
  - apply right_limit_sqrt.
Qed.

Lemma diverges_up_minus_vol d sigma :
  0 < sigma -> diverges_up d -> diverges_up (fun T => d T - sigma * sqrt T).
Proof.
  intros Hs Hd A.
  destruct (Hd (A + sigma)) as [delta [Hdelta H]].
  exists (Rmin delta 1). split; [apply Rmin_pos; lra|].
  intros T [HT0 HT].
  assert (T < delta) by (eapply Rlt_le_trans; [exact HT|apply Rmin_l]).
  assert (T < 1) by (eapply Rlt_le_trans; [exact HT|apply Rmin_r]).
  pose proof (H T ltac:(lra)).
  assert (sqrt T <= 1).
  { rewrite <- sqrt_1. apply sqrt_le_1; lra. }
  assert (sigma * sqrt T <= sigma * 1) by (apply Rmult_le_compat_l; lra).
  lra.
Qed.

Lemma diverges_down_minus_vol d sigma :
  0 < sigma -> diverges_down d -> diverges_down (fun T => d T - sigma * sqrt T).
Proof.
  intros Hs Hd A.
  destruct (Hd A) as [delta [Hdelta H]].
  exists delta. split; [exact Hdelta|].
  intros T HT. pose proof (H T HT).
  pose proof (sqrt_lt_R0 T (proj1 HT)).
  assert (0 < sigma * sqrt T) by (apply Rmult_lt_0_compat; lra).
  lra.
Qed.

Lemma call_price_right_limit S K r sigma l :
  right_limit_at_0 (fun T => norm_cdf (Spec.d1 S K T r sigma)) l ->
  right_limit_at_0 (fun T => norm_cdf (Spec.d2 S K T r sigma)) l ->
  right_limit_at_0 (fun T => Spec.call_price norm_cdf S K T r sigma)
    (S * l - K * 1 * l).
Proof.
  intros H1 H2. unfold Spec.call_price.
  apply (limit_minus
           (fun T => S * norm_cdf (Spec.d1 S K T r sigma))
           (fun T => K * exp (- r * T) * norm_cdf (Spec.d2 S K T r sigma))).
  - apply (limit_mul (fun _ => S)
             (fun T => norm_cdf (Spec.d1 S K T r sigma))); [|exact H1].
    apply right_limit_const.
  - apply (limit_mul (fun T => K * exp (- r * T))
             (fun T => norm_cdf (Spec.d2 S K T r sigma))); [|exact H2].
    apply (limit_mul (fun _ => K) (fun T => exp (- r * T))).
    + apply right_limit_const.
    + apply right_limit_discount.
Qed.

Lemma call_price_intrinsic_limit S K r sigma :
  0 < S -> 0 < K -> 0 < sigma ->
  right_limit_at_0 (fun T => Spec.call_price norm_cdf S K T r sigma)
    (Rmax (S - K) 0).
Proof.
  intros HS HK Hs.
  destruct (Rtotal_order S K) as [Hlt | [Heq | Hgt]].
  - (* out of the money: both arguments diverge downwards *)
    replace (Rmax (S - K) 0) with (S * 0 - K * 1 * 0)
      by (rewrite Rmax_right by lra; ring).
    assert (HL : ln (S / K) < 0).
    { rewrite <- ln_1. apply ln_increasing; [apply Rdiv_lt_0_compat; lra|].
      apply Rmult_lt_reg_r with K; [lra|].
      unfold Rdiv. rewrite Rmult_assoc, Rinv_l by lra. lra. }
    pose proof (ratio_diverges_down (ln (S / K)) (r + sigma ^ 2 / 2) sigma HL Hs)
      as Hd1.
    apply call_price_right_limit.
    + apply norm_cdf_diverges_down. exact Hd1.
    + apply norm_cdf_diverges_down.
      apply (diverges_down_minus_vol _ sigma Hs Hd1).
  - (* at the money: both arguments tend to zero *)
    subst K.
    replace (Rmax (S - S) 0) with (S * / 2 - S * 1 * / 2)
      by (rewrite Rmax_right by lra; ring).
    assert (Hd1 : right_limit_at_0 (fun T => Spec.d1 S S T r sigma) 0).
    { unfold Spec.d1. unfold Rdiv at 2. rewrite Rinv_r by lra. rewrite ln_1.
      apply ratio_right_limit_0. exact Hs. }
    apply call_price_right_limit.
    + apply norm_cdf_right_limit_0. exact Hd1.
    + apply norm_cdf_right_limit_0. unfold Spec.d2.
      replace 0 with (0 - 0) by ring.
      apply (limit_minus (fun T => Spec.d1 S S T r sigma)
               (fun T => sigma * sqrt T)); [exact Hd1|].
      apply right_limit_vol_sqrt.
  - (* in the money: both arguments diverge upwards *)
    replace (Rmax (S - K) 0) with (S * 1 - K * 1 * 1)
      by (rewrite Rmax_left by lra; ring).
    assert (HL : 0 < ln (S / K)).
    { rewrite <- ln_1. apply ln_increasing; [lra|].
      apply Rmult_lt_reg_r with K; [lra|].
      unfold Rdiv. rewrite Rmult_assoc, Rinv_l by lra. lra. }
    pose proof (ratio_diverges_up (ln (S / K)) (r + sigma ^ 2 / 2) sigma HL Hs)
      as Hd1.
    apply call_price_right_limit.
    + apply norm_cdf_diverges_up. exact Hd1.
    + apply norm_cdf_diverges_up.
      apply (diverges_up_minus_vol _ sigma Hs Hd1).
Qed.

Lemma put_price_intrinsic_limit S K r sigma :
  0 < S -> 0 < K -> 0 < sigma ->
  right_limit_at_0 (fun T => Spec.put_price norm_cdf S K T r sigma)
    (Rmax (K - S) 0).
Proof.
  intros HS HK Hs.
  apply (right_limit_ext
           (fun T => Spec.call_price norm_cdf S K T r sigma
                     - (S - K * exp (- r * T)))).
  { intros T _. pose proof (put_call_parity_real S K T r sigma). lra. }
  replace (Rmax (K - S) 0) with (Rmax (S - K) 0 - (S - K * 1)).
  - apply (limit_minus (fun T => Spec.call_price norm_cdf S K T r sigma)
             (fun T => S - K * exp (- r * T))).
    + apply call_price_intrinsic_limit; assumption.
    + apply (limit_minus (fun _ => S) (fun T => K * exp (- r * T))).
      * apply right_limit_const.
      * apply (limit_mul (fun _ => K) (fun T => exp (- r * T))).
        -- apply right_limit_const.
        -- apply right_limit_discount.
  - destruct (Rle_dec S K).
    + rewrite (Rmax_right (S - K)), (Rmax_left (K - S)) by lra. ring.
    + rewrite (Rmax_left (S - K)), (Rmax_right (K - S)) by lra. ring.
Qed.

(** ** Series bounds for the exponential and the kernel integral *)

(** Partial sums of the series of [exp (- u)]. *)
Definition exp_series (n : nat) (u : R) : R :=
  sum_f_R0 (fun k => (- u) ^ k / INR (fact k)) n.

Lemma exp_series_0 n : exp_series n 0 = 1.
Proof.
  unfold exp_series. induction n as [|n IH].
  - simpl. field.
  - rewrite tech5, IH. rewrite Ropp_0, pow_i by lia. unfold Rdiv. ring.
Qed.

Lemma exp_series_derivable n u :
  derivable_pt_lim (exp_series (S n)) u (- exp_series n u).
Proof.
  induction n as [|n IH].
  - unfold exp_series. simpl.
    derive. field.
  - unfold exp_series in *.
    apply (derivable_pt_lim_eq _ _
             (- sum_f_R0 (fun k => (- u) ^ k / INR (fact k)) n
              + (INR (S (S n)) * (- u) ^ S n * (- 1)) / INR (fact (S (S n))))).
    + apply (derivable_pt_lim_plus
               (fun u => sum_f_R0 (fun k => (- u) ^ k / INR (fact k)) (S n))
               (fun u => (- u) ^ S (S n) / INR (fact (S (S n))))).
      * exact IH.
      * unfold Rdiv.
        apply (derivable_pt_lim_scal_right (fun u => (- u) ^ S (S n))).
        replace (INR (S (S n)) * (- u) ^ S n * -1)
          with (INR (S (S n)) * (- u) ^ pred (S (S n)) * -1) by reflexivity.
        apply (derivable_pt_lim_comp (fun u => - u) (fun y => y ^ S (S n))).
        -- apply (derivable_pt_lim_opp id), derivable_pt_lim_id.
        -- apply derivable_pt_lim_pow.
    + rewrite (tech5 _ n).
      replace (fact (S (S n))) with (S (S n) * fact (S n))%nat by reflexivity.
      rewrite mult_INR.
      pose proof (INR_fact_neq_0 (S n)).
      assert (INR (S (S n)) <> 0) by (apply not_0_INR; lia).
      field. split; assumption.
Qed.

Lemma exp_neg_derivable u : derivable_pt_lim (fun u => exp (- u)) u (- exp (- u)).
Proof.
  derive. ring.
Qed.

(** The partial sums lie alternately above and below [exp (- u)]. *)
Lemma exp_series_sign n u :
  0 <= u -> 0 <= (- 1) ^ n * (exp_series n u - exp (- u)).
Proof.
  revert u. induction n as [|n IH]; intros u Hu.
  - unfold exp_series. simpl.
    assert (exp (- u) <= 1); [|lra].
    rewrite <- exp_0. destruct Hu as [Hu| <-].
    + left. apply exp_increasing. lra.
    + right. f_equal. ring.
  - pose proof (deriv_nonneg_le
                  (fun u => (- 1) ^ S n * (exp_series (S n) u - exp (- u)))
                  (fun u => (- 1) ^ n * (exp_series n u - exp (- u)))
                  0 u Hu) as H.
    cbv beta in H.
    rewrite exp_series_0, Ropp_0, exp_0 in H.
    replace ((- 1) ^ S n * (1 - 1)) with 0 in H by ring.
    apply H.
    + intros c _.
      apply (derivable_pt_lim_eq _ _
               ((- 1) ^ S n * (- exp_series n c - - exp (- c)))).
      * apply (derivable_pt_lim_scal
                 (fun u => exp_series (S n) u - exp (- u))).
        apply (derivable_pt_lim_minus (exp_series (S n)) (fun u => exp (- u))).
        -- apply exp_series_derivable.
        -- apply exp_neg_derivable.
      * simpl. ring.
    + intros c Hc. apply IH. lra.
Qed.

(** Termwise integration of the series of [exp (- t^2 / 2)]. *)
Definition gint_term (k : nat) (x : R) : R :=
  (- 1) ^ k * x ^ S (2 * k) / (2 ^ k * INR (fact k)).

Definition gint_series (n : nat) (x : R) : R :=
  sum_f_R0 (fun k => gint_term k x / INR (S (2 * k))) n.

Lemma pow_neg_half x k : (- (x * x / 2)) ^ k = (- 1) ^ k * x ^ (2 * k) / 2 ^ k.
Proof.
  rewrite pow_mult.
  replace (- (x * x / 2)) with (- 1 * (x ^ 2 * / 2)) by (simpl; field).
  rewrite !Rpow_mult_distr, pow_inv. unfold Rdiv. ring.
Qed.

Lemma gint_term_derivable k x :
  derivable_pt_lim (fun x => gint_term k x / INR (S (2 * k))) x
    ((- (x * x / 2)) ^ k / INR (fact k)).
Proof.
  unfold gint_term.
  assert (H1 : INR (S (2 * k)) <> 0) by (apply not_0_INR; lia).
  assert (H2 : INR (fact k) <> 0) by apply INR_fact_neq_0.
  assert (H3 : 2 ^ k <> 0) by (apply pow_nonzero; lra).
  apply (derivable_pt_lim_eq _ _
           ((- 1) ^ k * (INR (S (2 * k)) * x ^ pred (S (2 * k)))
            * / (2 ^ k * INR (fact k)) * / INR (S (2 * k)))).
  - unfold Rdiv.
    apply (derivable_pt_lim_scal_right
             (fun x => (- 1) ^ k * x ^ S (2 * k) * / (2 ^ k * INR (fact k)))).
    apply (derivable_pt_lim_scal_right (fun x => (- 1) ^ k * x ^ S (2 * k))).
    apply (derivable_pt_lim_scal (fun x => x ^ S (2 * k))).
    apply derivable_pt_lim_pow.
  - rewrite pow_neg_half. rewrite Nat.pred_succ. field. repeat split; assumption.
Qed.

Lemma gint_series_derivable n x :
  derivable_pt_lim (gint_series n) x (exp_series n (x * x / 2)).
Proof.
  unfold gint_series, exp_series. induction n as [|n IH].
  - simpl sum_f_R0. apply (gint_term_derivable 0 x).
  - simpl sum_f_R0.
    apply (derivable_pt_lim_plus
             (fun x => sum_f_R0 (fun k => gint_term k x / INR (S (2 * k))) n)
             (fun x => gint_term (S n) x / INR (S (2 * S n)))).
    + exact IH.
    + apply (gint_term_derivable (S n) x).
Qed.

Lemma gint_series_at_0 n : gint_series n 0 = 0.
Proof.
  unfold gint_series. induction n as [|n IH].
  - simpl. unfold gint_term. simpl. field.
  - rewrite tech5, IH. unfold gint_term.
    rewrite pow_i by lia. unfold Rdiv. ring.
Qed.

(** The integrated partial sums lie alternately above and below [gint]. *)
Lemma gint_series_sign n x :
  0 <= x -> 0 <= (- 1) ^ n * (gint_series n x - gint x).
Proof.
  intros Hx.
  pose proof (deriv_nonneg_le
                (fun x => (- 1) ^ n * (gint_series n x - gint x))
                (fun x => (- 1) ^ n * (exp_series n (x * x / 2) - exp (- (x * x / 2))))
                0 x Hx) as H.
  cbv beta in H. rewrite gint_series_at_0, gint_0 in H.
  replace ((- 1) ^ n * (0 - 0)) with 0 in H by ring.
  apply H.
  - intros c _.
    apply (derivable_pt_lim_scal (fun x => gint_series n x - gint x)).
    apply (derivable_pt_lim_minus (gint_series n) gint).
    + apply gint_series_derivable.
    + replace (exp (- (c * c / 2))) with (gauss c)
        by (unfold gauss; f_equal; field).
      apply gint_derivable.
  - intros c _. apply exp_series_sign. nra.
Qed.

Lemma gint_series_lower m x : 0 <= x -> gint_series (S (2 * m)) x <= gint x.
Proof.
  intros Hx. pose proof (gint_series_sign (S (2 * m)) x Hx) as H.
  rewrite pow_1_odd in H. lra.
Qed.

Lemma gint_series_upper m x : 0 <= x -> gint x <= gint_series (2 * m) x.
Proof.
  intros Hx. pose proof (gint_series_sign (2 * m) x Hx) as H.
  rewrite pow_1_even in H. lra.
Qed.

Lemma exp_series_lower m u : 0 <= u -> exp_series (S (2 * m)) u <= exp (- u).
Proof.
  intros Hu. pose proof (exp_series_sign (S (2 * m)) u Hu) as H.
  rewrite pow_1_odd in H. lra.
Qed.

Lemma exp_series_upper m u : 0 <= u -> exp (- u) <= exp_series (2 * m) u.
Proof.
  intros Hu. pose proof (exp_series_sign (2 * m) u Hu) as H.
  rewrite pow_1_even in H. lra.
Qed.

(** ** Evaluating the series on rationals *)

(** [gint_series_Q n x] is the pair of the last term and the partial sum. *)
Fixpoint gint_series_Q (n : nat) (x : Q) : Q * Q :=
  match n with
  | O => (x, x)
  | S n' =>
      let '(t, s) := gint_series_Q n' x in
      let t' := (t * (- (x * x)) / inject_Z (2 * Z.of_nat n))%Q in
      (t', (s + t' / inject_Z (2 * Z.of_nat n + 1))%Q)
  end.

Lemma Q2R_inject_Z z : Q2R (inject_Z z) = IZR z.
Proof. unfold Q2R, inject_Z. simpl. field. Qed.

Lemma inject_Z_nonzero z : z <> 0%Z -> ~ (inject_Z z == 0)%Q.
Proof.
  intros Hz H. apply Hz. unfold Qeq, inject_Z in H. simpl in H. lia.
Qed.

Lemma gint_term_succ k x :
  gint_term (S k) x = gint_term k x * (- (x * x)) / (2 * INR (S k)).
Proof.
  unfold gint_term.
  replace (2 * S k)%nat with (S (S (2 * k))) by lia.
  rewrite <- !tech_pow_Rmult.
  replace (fact (S k)) with (S k * fact k)%nat by reflexivity.
  rewrite mult_INR.
  pose proof (INR_fact_neq_0 k).
  assert (INR (S k) <> 0) by (apply not_0_INR; lia).
  assert (2 ^ k <> 0) by (apply pow_nonzero; lra).
  field. repeat split; assumption.
Qed.

Lemma gint_series_Q_correct n x :
  Q2R (fst (gint_series_Q n x)) = gint_term n (Q2R x) /\
  Q2R (snd (gint_series_Q n x)) = gint_series n (Q2R x).
Proof.
  induction n as [|n [IHt IHs]].
  - simpl. unfold gint_series, gint_term. simpl. split; field.
  - cbn [gint_series_Q]. destruct (gint_series_Q n x) as [t s].
    cbn [fst snd] in *.
    assert (Hd1 : ~ (inject_Z (2 * Z.of_nat (S n)) == 0)%Q)
      by (apply inject_Z_nonzero; lia).
    assert (Hd2 : ~ (inject_Z (2 * Z.of_nat (S n) + 1) == 0)%Q)
      by (apply inject_Z_nonzero; lia).
    assert (Ht : Q2R (t * - (x * x) / inject_Z (2 * Z.of_nat (S n)))
                 = gint_term (S n) (Q2R x)).
    { rewrite Q2R_div by exact Hd1.
      rewrite Q2R_mult, Q2R_opp, Q2R_mult, Q2R_inject_Z, IHt.
      rewrite gint_term_succ, mult_IZR, <- INR_IZR_INZ. reflexivity. }
    split; [exact Ht|].
    rewrite Q2R_plus, Q2R_div by exact Hd2.
    rewrite Ht, IHs, Q2R_inject_Z.
    unfold gint_series. rewrite tech5. f_equal. f_equal.
    replace (2 * Z.of_nat (S n) + 1)%Z with (Z.of_nat (S (2 * S n))) by lia.
    rewrite <- INR_IZR_INZ. reflexivity.
Qed.

Lemma gint_series_Q_eval n x :
  gint_series n (Q2R x) = Q2R (snd (gint_series_Q n x)).
Proof. symmetry. apply gint_series_Q_correct. Qed.

Lemma gint_lower_Q m (x lo : Q) :
  (0 <= x)%Q -> (lo <= snd (gint_series_Q (S (2 * m)) x))%Q ->
  Q2R lo <= gint (Q2R x).
Proof.
  intros Hx Hlo.
  apply Rle_trans with (gint_series (S (2 * m)) (Q2R x)).
  - rewrite gint_series_Q_eval. apply Qle_Rle. exact Hlo.
  - apply gint_series_lower. replace 0 with (Q2R 0) by (unfold Q2R; simpl; field).
    apply Qle_Rle. exact Hx.
Qed.

Lemma gint_upper_Q m (x hi : Q) :
  (0 <= x)%Q -> (snd (gint_series_Q (2 * m) x) <= hi)%Q ->
  gint (Q2R x) <= Q2R hi.
Proof.
  intros Hx Hhi.
  apply Rle_trans with (gint_series (2 * m) (Q2R x)).
  - apply gint_series_upper. replace 0 with (Q2R 0) by (unfold Q2R; simpl; field).
    apply Qle_Rle. exact Hx.
  - rewrite gint_series_Q_eval. apply Qle_Rle. exact Hhi.
Qed.

(** ** Numerical bounds *)

Lemma gint_035_bounds : 0.3429835 <= gint 0.35 <= 0.3429836.
Proof.
  replace 0.35 with (Q2R (7 # 20)) by (unfold Q2R; simpl; lra).
  split.
  - replace 0.3429835 with (Q2R (3429835 # 10000000)) by (unfold Q2R; simpl; lra).
    apply (gint_lower_Q 1); apply Qle_bool_imp_le; vm_compute; reflexivity.
  - replace 0.3429836 with (Q2R (3429836 # 10000000)) by (unfold Q2R; simpl; lra).
    apply (gint_upper_Q 2); apply Qle_bool_imp_le; vm_compute; reflexivity.
Qed.

Lemma gint_015_bounds : 0.1494393 <= gint 0.15 <= 0.1494394.
Proof.
  replace 0.15 with (Q2R (3 # 20)) by (unfold Q2R; simpl; lra).
  split.
  - replace 0.1494393 with (Q2R (1494393 # 10000000)) by (unfold Q2R; simpl; lra).
    apply (gint_lower_Q 1); apply Qle_bool_imp_le; vm_compute; reflexivity.
  - replace 0.1494394 with (Q2R (1494394 # 10000000)) by (unfold Q2R; simpl; lra).
    apply (gint_upper_Q 2); apply Qle_bool_imp_le; vm_compute; reflexivity.
Qed.

Lemma gint_4_bounds : 1.25323 <= gint 4 <= 1.25324.
Proof.
  replace 4 with (Q2R (4 # 1)) by (unfold Q2R; simpl; lra).
  split.
  - replace 1.25323 with (Q2R (125323 # 100000)) by (unfold Q2R; simpl; lra).
    apply (gint_lower_Q 13); apply Qle_bool_imp_le; vm_compute; reflexivity.
  - replace 1.25324 with (Q2R (125324 # 100000)) by (unfold Q2R; simpl; lra).
    apply (gint_upper_Q 14); apply Qle_bool_imp_le; vm_compute; reflexivity.
Qed.

Lemma exp_m1_upper : exp (- 1) <= 0.375.
Proof.
  eapply Rle_trans; [apply (exp_series_upper 2 1); lra|].
  unfold exp_series. simpl. lra.
Qed.

Lemma exp_m8_upper : exp (- 8) <= 0.0004.
Proof.
  replace (- 8) with (- 1 + - 1 + - 1 + - 1 + - 1 + - 1 + - 1 + - 1) by ring.
  rewrite !exp_plus.
  pose proof (exp_pos (- 1)) as Hp. pose proof exp_m1_upper as Hu.
  remember (exp (- 1)) as e eqn:He. clear He.
  assert (H2 : e * e <= 0.375 * 0.375) by (apply Rmult_le_compat; lra).
  assert (H4 : e * e * (e * e) <= 0.375 * 0.375 * (0.375 * 0.375)).
  { apply Rmult_le_compat; try lra; apply Rmult_le_pos; lra. }
  assert (H8 : e * e * (e * e) * (e * e * (e * e))
               <= 0.375 * 0.375 * (0.375 * 0.375) * (0.375 * 0.375 * (0.375 * 0.375))).
  { assert (0 <= e * e) by (apply Rmult_le_pos; lra).
    apply Rmult_le_compat; try lra; apply Rmult_le_pos; lra. }
  lra.
Qed.

Lemma exp_m005_bounds : 0.951229 <= exp (- (0.05)) <= 0.95123.
Proof.
  split.
  - eapply Rle_trans; [|apply (exp_series_lower 1 0.05); lra].
    unfold exp_series. simpl. lra.
  - eapply Rle_trans; [apply (exp_series_upper 2 0.05); lra|].
    unfold exp_series. simpl. lra.
Qed.

Lemma gauss_half_mass_bounds : 1.25323 <= gauss_half_mass <= 1.25334.
Proof.
  pose proof gint_4_bounds as [H4l H4u].
  split.
  - pose proof (gint_lt_half_mass 4). lra.
  - apply (proj2 gauss_half_mass_lub). intros y [x ->].
    destruct (Rle_dec x 4) as [Hx|Hx].
    + pose proof (gint_monotone x 4 Hx). lra.
    + pose proof (gint_diff_le 4 4 x ltac:(lra) ltac:(lra)) as Ht.
      replace (4 * 4 / 2 - 4 * 4) with (- 8) in Ht by field.
      pose proof exp_m8_upper. lra.
Qed.

Lemma norm_cdf_035_bounds : 0.636826 <= norm_cdf 0.35 <= 0.636841.
Proof.
  pose proof gint_035_bounds as [Hl Hu].
  pose proof gauss_half_mass_bounds as [Gl Gu].
  rewrite norm_cdf_half_mass.
  assert (0.136826 <= gint 0.35 / (2 * gauss_half_mass)
          <= 0.136841); [|lra].
  split.
  - apply Rmult_le_reg_r with (2 * gauss_half_mass); [lra|].
    unfold Rdiv. rewrite Rmult_assoc, Rinv_l by lra. lra.
  - apply Rmult_le_reg_r with (2 * gauss_half_mass); [lra|].
    unfold Rdiv. rewrite Rmult_assoc, Rinv_l by lra. lra.
Qed.

Lemma norm_cdf_015_bounds : 0.559616 <= norm_cdf 0.15 <= 0.559622.
Proof.
  pose proof gint_015_bounds as [Hl Hu].
  pose proof gauss_half_mass_bounds as [Gl Gu].
  rewrite norm_cdf_half_mass.
  assert (0.059616 <= gint 0.15 / (2 * gauss_half_mass)
          <= 0.059622); [|lra].
  split.
  - apply Rmult_le_reg_r with (2 * gauss_half_mass); [lra|].
    unfold Rdiv. rewrite Rmult_assoc, Rinv_l by lra. lra.
  - apply Rmult_le_reg_r with (2 * gauss_half_mass); [lra|].
    unfold Rdiv. rewrite Rmult_assoc, Rinv_l by lra. lra.
Qed.

(** The arguments of the distribution function at the example parameters. *)
Lemma example_d1 : Spec.d1 100 100 1 0.05 0.2 = 0.35.
Proof.
  unfold Spec.d1.
  replace (100 / 100) with 1 by field.
  rewrite ln_1, sqrt_1. cbn [pow]. lra.
Qed.

Lemma example_d2 : Spec.d2 100 100 1 0.05 0.2 = 0.15.
Proof. unfold Spec.d2. rewrite example_d1, sqrt_1. lra. Qed.

Lemma Rabs_le_elim x b : Rabs x <= b -> - b <= x <= b.
Proof. unfold Rabs. destruct (Rcase_abs x); lra. Qed.

Lemma example_prices_bounds (cdf : R -> R) :
  (forall x, Rabs (cdf x - norm_cdf x) <= / 100000000) ->
  Rabs (Spec.call_price cdf 100 100 1 0.05 0.2 - 10.45) <= 0.01 /\
  Rabs (Spec.put_price cdf 100 100 1 0.05 0.2 - 5.57) <= 0.01.
Proof.
  intros Hcdf.
  unfold Spec.call_price, Spec.put_price.
  rewrite example_d1, example_d2.
  replace (- (0.05) * 1) with (- (0.05)) by ring.
  pose proof exp_m005_bounds as [El Eu].
  pose proof norm_cdf_035_bounds as [P1l P1u].
  pose proof norm_cdf_015_bounds as [P2l P2u].
  pose proof (norm_cdf_sym 0.35) as S1.
  pose proof (norm_cdf_sym 0.15) as S2.
  pose proof (Hcdf 0.35) as H1. apply Rabs_le_elim in H1.
  pose proof (Hcdf 0.15) as H2. apply Rabs_le_elim in H2.
  pose proof (Hcdf (- (0.35))) as H3. apply Rabs_le_elim in H3.
  pose proof (Hcdf (- (0.15))) as H4. apply Rabs_le_elim in H4.
  remember (exp (- (0.05))) as e eqn:He. clear He.
  remember (cdf 0.35) as p1 eqn:Hp1. clear Hp1.
  remember (cdf 0.15) as p2 eqn:Hp2. clear Hp2.
  remember (cdf (- (0.35))) as q1 eqn:Hq1. clear Hq1.
  remember (cdf (- (0.15))) as q2 eqn:Hq2. clear Hq2.
  remember (norm_cdf 0.35) as n1. remember (norm_cdf 0.15) as n2.
  remember (norm_cdf (- (0.35))) as m1. remember (norm_cdf (- (0.15))) as m2.
  assert (Hep2l : 0.951229 * 0.559615 <= e * p2)
    by (apply Rmult_le_compat; lra).
  assert (Hep2u : e * p2 <= 0.95123 * 0.559623)
    by (apply Rmult_le_compat; lra).
  assert (Heq2l : 0.951229 * 0.440377 <= e * q2)
    by (apply Rmult_le_compat; lra).
  assert (Heq2u : e * q2 <= 0.95123 * 0.440385)
    by (apply Rmult_le_compat; lra).
  split; apply Rabs_le; lra.
Qed.

(** ** Runs on floats *)

Lemma run_bind_value {A B} (m : Run A) (k : A -> Run B) w a w' :
  m w = (Value a, w') -> run_bind m k w = k a w'.
Proof. intros H. unfold run_bind. rewrite H. reflexivity. Qed.

Lemma run_bind_fails {A B} (m : Run A) (k : A -> Run B) w e w' :
  m w = (Fails e, w') -> run_bind m k w = (Fails e, w').
Proof. intros H. unfold run_bind. rewrite H. reflexivity. Qed.

Lemma signal_globals fs w : globals (signal fs w) = globals w.
Proof. destruct fs; reflexivity. Qed.

Lemma signal_printed fs w : printed (signal fs w) = printed w.
Proof. destruct fs; reflexivity. Qed.


Lemma signal_signal fs fs' w : signal fs' (signal fs w) = signal (fs ++ fs') w.
Proof.
  destruct fs as [|f fs]; [reflexivity|].
  destruct fs' as [|f' fs']; simpl.
  - rewrite app_nil_r. reflexivity.
  - rewrite <- app_assoc. reflexivity.
Qed.

Lemma use_library_bound x library w :
  lookup (globals w) x = Some (BLibrary library) ->
  use_library x library w = (Value tt, w).
Proof.
  intros H. unfold use_library, with_library. rewrite H, String.eqb_refl.
  reflexivity.
Qed.

(** *** The range of binary64 *)

Lemma overflow_threshold_pos : 0 < overflow_threshold.
Proof. unfold overflow_threshold. apply pow_lt. lra. Qed.

Lemma pow2_pos n : 0 < 2 ^ n.
Proof. apply pow_lt. lra. Qed.

Lemma pow2_le n m : (n <= m)%nat -> 2 ^ n <= 2 ^ m.
Proof. intros H. apply Rle_pow; [lra|exact H]. Qed.

Lemma pow2_lt n m : (n < m)%nat -> 2 ^ n < 2 ^ m.
Proof. intros H. apply Rlt_pow; [lra|exact H]. Qed.

Lemma below_threshold x n :
  Rabs x <= 2 ^ n -> (n < 1024)%nat -> Rabs x < overflow_threshold.
Proof.
  intros Hx Hn. unfold overflow_threshold.
  apply Rle_lt_trans with (1 := Hx). apply pow2_lt. exact Hn.
Qed.

Lemma bound_weaken x n m : Rabs x <= 2 ^ n -> (n <= m)%nat -> Rabs x <= 2 ^ m.
Proof. intros Hx Hn. apply Rle_trans with (1 := Hx). apply pow2_le. exact Hn. Qed.

Lemma bound_add x y n : Rabs x <= 2 ^ n -> Rabs y <= 2 ^ n -> Rabs (x + y) <= 2 ^ (S n).
Proof.
  intros Hx Hy. apply Rle_trans with (1 := Rabs_triang x y).
  replace (2 ^ S n) with (2 ^ n + 2 ^ n) by (simpl; ring). lra.
Qed.

Lemma bound_sub x y n : Rabs x <= 2 ^ n -> Rabs y <= 2 ^ n -> Rabs (x - y) <= 2 ^ (S n).
Proof.
  intros Hx Hy. unfold Rminus. apply bound_add; [exact Hx|].
  rewrite Rabs_Ropp. exact Hy.
Qed.

Lemma bound_mul x y n m :
  Rabs x <= 2 ^ n -> Rabs y <= 2 ^ m -> Rabs (x * y) <= 2 ^ (n + m).
Proof.
  intros Hx Hy. rewrite Rabs_mult, pow_add.
  apply Rmult_le_compat; try apply Rabs_pos; assumption.
Qed.

Lemma bound_div x y n m :
  Rabs x <= 2 ^ n -> / 2 ^ m <= Rabs y -> Rabs (x / y) <= 2 ^ (n + m).
Proof.
  intros Hx Hy. unfold Rdiv. apply bound_mul; [exact Hx|].
  pose proof (pow2_pos m) as Hm.
  assert (H0 : 0 < / 2 ^ m) by (apply Rinv_0_lt_compat; exact Hm).
  assert (Hy0 : y <> 0) by (intros ->; rewrite Rabs_R0 in Hy; lra).
  rewrite Rabs_inv. rewrite <- (Rinv_inv (2 ^ m)).
  apply Rinv_le_contravar; assumption.
Qed.

Lemma bound_neg x n : Rabs x <= 2 ^ n -> Rabs (- x) <= 2 ^ n.
Proof. rewrite Rabs_Ropp. trivial. Qed.

(** *** Finite floats *)

Lemma absorb_finite x v :
  absorb x = Finite v ->
  Ieee.is_nan x = false /\ Ieee.is_inf x = false /\ Ieee.value x = v.
Proof.
  destruct x; simpl; intros H; try discriminate H;
    injection H as <-; repeat split; reflexivity.
Qed.

Lemma absorb_signed x s : absorb (Ieee.signed x s) = Finite x.
Proof.
  unfold Ieee.signed, Ieee.zero.
  destruct (Req_dec_T x 0) as [->|H]; [destruct s|]; reflexivity.
Qed.

Lemma absorb_is_zero a x : absorb a = Finite x -> x <> 0 -> Ieee.is_zero a = false.
Proof.
  destruct a as [u| | | |]; simpl; intros H Hx; try discriminate H.
  - injection H as ->. destruct (Req_dec_T x 0); [contradiction|reflexivity].
  - injection H as <-. contradiction.
Qed.

Lemma absorb_add a b x y :
  absorb a = Finite x -> absorb b = Finite y ->
  absorb (Ieee.add a b) = Finite (x + y).
Proof.
  destruct a, b; simpl; intros Ha Hb; try discriminate;
    injection Ha as <-; injection Hb as <-; f_equal; ring.
Qed.

Lemma absorb_neg a x : absorb a = Finite x -> absorb (Ieee.neg a) = Finite (- x).
Proof.
  destruct a as [u| | | |]; simpl; intros Ha; try discriminate; injection Ha as <-.
  - destruct (Req_dec_T u 0) as [->|]; simpl; f_equal; ring.
  - f_equal. ring.
Qed.

Lemma absorb_sub a b x y :
  absorb a = Finite x -> absorb b = Finite y ->
  absorb (Ieee.sub a b) = Finite (x - y).
Proof.
  intros Ha Hb. unfold Ieee.sub, Rminus.
  apply absorb_add; [exact Ha|apply absorb_neg; exact Hb].
Qed.

Lemma absorb_mul a b x y :
  absorb a = Finite x -> absorb b = Finite y ->
  absorb (Ieee.mul a b) = Finite (x * y).
Proof.
  intros Ha Hb.
  destruct (absorb_finite _ _ Ha) as (Hna & Hia & Hva).
  destruct (absorb_finite _ _ Hb) as (Hnb & Hib & Hvb).
  unfold Ieee.mul. rewrite Hna, Hnb, Hia, Hib, Hva, Hvb. simpl.
  apply absorb_signed.
Qed.

Lemma absorb_div a b x y :
  absorb a = Finite x -> absorb b = Finite y -> y <> 0 ->
  absorb (Ieee.div a b) = Finite (x / y).
Proof.
  intros Ha Hb Hy.
  destruct (absorb_finite _ _ Ha) as (Hna & Hia & Hva).
  destruct (absorb_finite _ _ Hb) as (Hnb & Hib & Hvb).
  unfold Ieee.div. rewrite Hna, Hnb, Hia, Hib, Hva, Hvb. simpl.
  rewrite (absorb_is_zero _ _ Hb Hy). apply absorb_signed.
Qed.

Lemma absorb_log a x : absorb a = Finite x -> 0 < x -> absorb (Fp.log a) = Finite (ln x).
Proof.
  destruct a as [u| | | |]; simpl; intros Ha Hx; try discriminate;
    injection Ha as <-; [|lra].
  unfold Ieee.log. destruct (Rlt_dec 0 u); [reflexivity|contradiction].
Qed.

Lemma absorb_sqrt a x : absorb a = Finite x -> 0 <= x -> absorb (Fp.sqrt a) = Finite (sqrt x).
Proof.
  destruct a as [u| | | |]; simpl; intros Ha Hx; try discriminate;
    injection Ha as <-.
  - unfold Ieee.sqrt. destruct (Rle_dec 0 u); [reflexivity|contradiction].
  - rewrite sqrt_0. reflexivity.
Qed.

Lemma absorb_exp a x : absorb a = Finite x -> absorb (Fp.exp a) = Finite (exp x).
Proof.
  destruct a; simpl; intros Ha; try discriminate; injection Ha as <-.
  - reflexivity.
  - rewrite exp_0. reflexivity.
Qed.

Lemma absorb_cdf cdf a x :
  absorb a = Finite x -> absorb (Ieee.norm_cdf cdf a) = Finite (cdf x).
Proof. destruct a; simpl; intros Ha; try discriminate; injection Ha as <-; reflexivity. Qed.

Lemma fit_finite a x :
  absorb a = Finite x -> Rabs x < overflow_threshold -> Fp.fit a = a.
Proof.
  destruct a as [u| | | |]; simpl; intros Ha Hx; try reflexivity.
  injection Ha as ->.
  destruct (Rle_dec overflow_threshold (Rabs x)); [lra|reflexivity].
Qed.

Lemma flags_finite args a x :
  absorb a = Finite x -> Rabs x < overflow_threshold -> Fp.flags args a = [].
Proof.
  intros Ha Hx. destruct (absorb_finite _ _ Ha) as (Hn & Hi & _).
  unfold Fp.flags, Fp.overflows.
  rewrite Hn, Hi, (fit_finite _ _ Ha Hx), Hi. reflexivity.
Qed.

Lemma binary_real op a b z w :
  absorb (op (num_val a) (num_val b)) = Finite z -> Rabs z < overflow_threshold ->
  exists c, Py.binary op a b w = (Value c, w) /\ is_real c z.
Proof.
  intros Hz Hr. unfold Py.binary, Py.python_float, Py.numpy_float, run_ret.
  destruct (Py.both_python a b).
  - eexists. split; [reflexivity|]. unfold is_real. simpl.
    rewrite (fit_finite _ _ Hz Hr). exact Hz.
  - rewrite (flags_finite _ _ _ Hz Hr). eexists. split; [reflexivity|].
    unfold is_real. simpl. rewrite (fit_finite _ _ Hz Hr). exact Hz.
Qed.

Lemma add_real a b x y w :
  is_real a x -> is_real b y -> Rabs (x + y) < overflow_threshold ->
  exists c, Py.add a b w = (Value c, w) /\ is_real c (x + y).
Proof. intros Ha Hb. apply binary_real, absorb_add; assumption. Qed.

Lemma sub_real a b x y w :
  is_real a x -> is_real b y -> Rabs (x - y) < overflow_threshold ->
  exists c, Py.sub a b w = (Value c, w) /\ is_real c (x - y).
Proof. intros Ha Hb. apply binary_real, absorb_sub; assumption. Qed.

Lemma mul_real a b x y w :
  is_real a x -> is_real b y -> Rabs (x * y) < overflow_threshold ->
  exists c, Py.mul a b w = (Value c, w) /\ is_real c (x * y).
Proof. intros Ha Hb. apply binary_real, absorb_mul; assumption. Qed.

Lemma truediv_real a b x y w :
  is_real a x -> is_real b y -> y <> 0 -> Rabs (x / y) < overflow_threshold ->
  exists c, Py.truediv a b w = (Value c, w) /\ is_real c (x / y).
Proof.
  intros Ha Hb Hy Hr. unfold Py.truediv.
  rewrite (absorb_is_zero _ _ Hb Hy), Bool.andb_false_r.
  apply binary_real; [apply absorb_div; assumption|exact Hr].
Qed.

Lemma square_real a x w :
  is_real a x -> Rabs (x * x) < overflow_threshold ->
  exists c, Py.square a w = (Value c, w) /\ is_real c (x * x).
Proof.
  intros Ha Hr. unfold Py.square.
  pose proof (absorb_mul _ _ _ _ Ha Ha) as Hz.
  destruct (num_kind a).
  - unfold Fp.overflows. rewrite (fit_finite _ _ Hz Hr).
    destruct (absorb_finite _ _ Hz) as (_ & Hi & _). rewrite Hi. simpl.
    eexists. split; [reflexivity|exact Hz].
  - unfold Py.numpy_float. rewrite (flags_finite _ _ _ Hz Hr).
    eexists. split; [reflexivity|]. unfold is_real. simpl.
    rewrite (fit_finite _ _ Hz Hr). exact Hz.
Qed.

Lemma numpy_float_real args e z w :
  absorb e = Finite z -> Rabs z < overflow_threshold ->
  exists c, Py.numpy_float args e w = (Value c, w) /\ is_real c z.
Proof.
  intros Hz Hr. unfold Py.numpy_float. rewrite (flags_finite _ _ _ Hz Hr).
  eexists. split; [reflexivity|]. unfold is_real. simpl.
  rewrite (fit_finite _ _ Hz Hr). exact Hz.
Qed.

Lemma np_log_real a x w :
  is_real a x -> 0 < x -> Rabs (ln x) < overflow_threshold ->
  exists c, Py.np_log a w = (Value c, w) /\ is_real c (ln x).
Proof. intros Ha Hx. apply numpy_float_real, absorb_log; assumption. Qed.

Lemma np_sqrt_real a x w :
  is_real a x -> 0 <= x -> Rabs (sqrt x) < overflow_threshold ->
  exists c, Py.np_sqrt a w = (Value c, w) /\ is_real c (sqrt x).
Proof. intros Ha Hx. apply numpy_float_real, absorb_sqrt; assumption. Qed.

Lemma np_exp_real a x w :
  is_real a x -> Rabs (exp x) < overflow_threshold ->
  exists c, Py.np_exp a w = (Value c, w) /\ is_real c (exp x).
Proof. intros Ha. apply numpy_float_real, absorb_exp; assumption. Qed.

Lemma norm_cdf_real cdf a x w :
  is_real a x ->
  exists c, Py.norm_cdf cdf a w = (Value c, w) /\ is_real c (cdf x).
Proof.
  intros Ha. eexists. split; [reflexivity|]. apply absorb_cdf. exact Ha.
Qed.

Lemma neg_real a x : is_real a x -> is_real (Py.neg a) (- x).
Proof. apply absorb_neg. Qed.

Lemma two_real : is_real Py.two 2.
Proof. reflexivity. Qed.
(** *** What a run reads and what it leaves behind *)

(** [framed m]: the outcome of [m] and the exceptions it reports depend
    on the world through [view] only, and [m] changes the world only by
    reporting them. *)
Definition framed {A} (m : Run A) : Prop :=
  forall w w', view w = view w' ->
    exists fs, fst (m w) = fst (m w') /\
               snd (m w) = signal fs w /\ snd (m w') = signal fs w'.

Lemma view_signal fs w : view (signal fs w) = view w.
Proof. unfold view. rewrite signal_globals. reflexivity. Qed.

Lemma framed_ret {A} (a : A) : framed (run_ret a).
Proof. intros w w' _. exists []. repeat split. Qed.

Lemma framed_fail {A} e : framed (@run_fail A e).
Proof. intros w w' _. exists []. repeat split. Qed.

Lemma framed_bind {A B} (m : Run A) (k : A -> Run B) :
  framed m -> (forall a, framed (k a)) -> framed (run_bind m k).
Proof.
  intros Hm Hk w w' Hv. destruct (Hm w w' Hv) as (fs & Hr & Hw & Hw').
  unfold run_bind.
  destruct (m w) as [[a|e] w1], (m w') as [[a'|e'] w1']; simpl in *;
    try discriminate Hr; subst w1 w1'.
  - injection Hr as <-.
    destruct (Hk a (signal fs w) (signal fs w')) as (fs' & Hr' & Hs & Hs').
    { rewrite !view_signal. exact Hv. }
    exists (fs ++ fs')%list. rewrite <- !signal_signal. repeat split; assumption.
  - injection Hr as <-. exists fs. repeat split.
Qed.

Lemma framed_numpy_float args e : framed (Py.numpy_float args e).
Proof. intros w w' _. exists (Fp.flags args e). repeat split. Qed.

Lemma framed_binary op a b : framed (Py.binary op a b).
Proof.
  unfold Py.binary. destruct (Py.both_python a b);
    [apply framed_ret|apply framed_numpy_float].
Qed.

Lemma framed_truediv a b : framed (Py.truediv a b).
Proof.
  unfold Py.truediv.
  destruct (Py.both_python a b && Ieee.is_zero (num_val b));
    [apply framed_fail|apply framed_binary].
Qed.

Lemma framed_square a : framed (Py.square a).
Proof.
  unfold Py.square. destruct (num_kind a).
  - destruct (Fp.overflows _); [apply framed_fail|apply framed_ret].
  - apply framed_numpy_float.
Qed.

Lemma framed_use_np library : framed (use_library "np" library).
Proof.
  intros w w' Hv. exists []. unfold use_library, with_library, view in *.
  injection Hv as Hnp _. rewrite Hnp.
  destruct (lookup (globals w') "np") as [[| | | |name]|]; simpl;
    try (repeat split; reflexivity).
  destruct (name =? library)%string; repeat split; reflexivity.
Qed.

Lemma framed_use_norm library : framed (use_library "norm" library).
Proof.
  intros w w' Hv. exists []. unfold use_library, with_library, view in *.
  injection Hv as _ Hnorm. rewrite Hnorm.
  destruct (lookup (globals w') "norm") as [[| | | |name]|]; simpl;
    try (repeat split; reflexivity).
  destruct (name =? library)%string; repeat split; reflexivity.
Qed.

Ltac framed_step :=
  first [ apply framed_use_np | apply framed_use_norm | apply framed_truediv
        | apply framed_square | apply framed_binary | apply framed_numpy_float
        | apply framed_ret | apply framed_fail
        | apply framed_bind; [|intros ?] ].

Lemma black_scholes_float_framed cdf S K T r sigma side :
  framed (black_scholes_float cdf S K T r sigma side).
Proof.
  unfold black_scholes_float, d1_d2_float, numerator_float, divisor_float,
    Py.add, Py.sub, Py.mul, Py.np_log, Py.np_sqrt, Py.np_exp, Py.norm_cdf.
  repeat framed_step.
  destruct (side =? "call")%string; [repeat framed_step|].
  destruct (side =? "put")%string; repeat framed_step.
Qed.



(** *** Which runs return and which raise *)

(** In a namespace [g]: [m] returns a value that satisfies [P], or [m]
    raises [e]; either way it may report floating-point exceptions. *)
Definition returns_in {A} (g : namespace) (m : Run A) (P : A -> Prop) : Prop :=
  forall w, globals w = g -> exists a fs, m w = (Value a, signal fs w) /\ P a.

Definition fails_in {A} (g : namespace) (m : Run A) (e : cell_exn) : Prop :=
  forall w, globals w = g -> exists fs, m w = (Fails e, signal fs w).

Definition any {A} (a : A) : Prop := True.

Definition is_numpy (a : num) : Prop := num_kind a = NumpyFloat.

Lemma returns_bind {A B} g (m : Run A) (k : A -> Run B) P Q :
  returns_in g m P -> (forall a, P a -> returns_in g (k a) Q) ->
  returns_in g (run_bind m k) Q.
Proof.
  intros Hm Hk w Hw. destruct (Hm w Hw) as (a & fs & E & Ha).
  rewrite (run_bind_value _ _ _ _ _ E).
  destruct (Hk a Ha (signal fs w)) as (b & fs' & E' & Hb).
  { rewrite signal_globals. exact Hw. }
  exists b, (fs ++ fs')%list. rewrite E', signal_signal. split; [reflexivity|exact Hb].
Qed.

Lemma fails_bind {A B} g (m : Run A) (k : A -> Run B) P e :
  returns_in g m P -> (forall a, P a -> fails_in g (k a) e) ->
  fails_in g (run_bind m k) e.
Proof.
  intros Hm Hk w Hw. destruct (Hm w Hw) as (a & fs & E & Ha).
  rewrite (run_bind_value _ _ _ _ _ E).
  destruct (Hk a Ha (signal fs w)) as (fs' & E').
  { rewrite signal_globals. exact Hw. }
  exists (fs ++ fs')%list. rewrite E', signal_signal. reflexivity.
Qed.

Lemma fails_first {A B} g (m : Run A) (k : A -> Run B) e :
  fails_in g m e -> fails_in g (run_bind m k) e.
Proof.
  intros Hm w Hw. destruct (Hm w Hw) as (fs & E).
  exists fs. apply run_bind_fails. exact E.
Qed.

Lemma returns_weaken {A} g (m : Run A) (P Q : A -> Prop) :
  returns_in g m P -> (forall a, P a -> Q a) -> returns_in g m Q.
Proof.
  intros Hm HPQ w Hw. destruct (Hm w Hw) as (a & fs & E & Ha).
  exists a, fs. split; [exact E|apply HPQ; exact Ha].
Qed.

Lemma returns_ret {A} g (a : A) (P : A -> Prop) : P a -> returns_in g (run_ret a) P.
Proof. intros Ha w _. exists a, []. split; [reflexivity|exact Ha]. Qed.

Lemma returns_ret_any {A} g (a : A) : returns_in g (run_ret a) any.
Proof. apply returns_ret. exact I. Qed.

Lemma fails_fail {A} g e : fails_in g (@run_fail A e) e.
Proof. intros w _. exists []. reflexivity. Qed.

Lemma returns_numpy_float g args e : returns_in g (Py.numpy_float args e) is_numpy.
Proof. intros w _. eexists _, _. split; reflexivity. Qed.

Lemma returns_binary g op a b : returns_in g (Py.binary op a b) any.
Proof.
  unfold Py.binary. destruct (Py.both_python a b).
  - apply returns_ret. exact I.
  - apply returns_weaken with (1 := returns_numpy_float g _ _). intros; exact I.
Qed.

Lemma both_python_numpy_r a b : is_numpy b -> Py.both_python a b = false.
Proof. unfold is_numpy, Py.both_python. intros ->. destruct (num_kind a); reflexivity. Qed.

Lemma both_python_numpy_l a b : is_numpy a -> Py.both_python a b = false.
Proof. unfold is_numpy, Py.both_python. intros ->. reflexivity. Qed.

Lemma returns_binary_numpy_r g op a b :
  is_numpy b -> returns_in g (Py.binary op a b) is_numpy.
Proof.
  intros Hb. unfold Py.binary. rewrite (both_python_numpy_r _ _ Hb).
  apply returns_numpy_float.
Qed.

Lemma returns_binary_numpy_l g op a b :
  is_numpy a -> returns_in g (Py.binary op a b) is_numpy.
Proof.
  intros Ha. unfold Py.binary. rewrite (both_python_numpy_l _ _ Ha).
  apply returns_numpy_float.
Qed.

Lemma returns_use_library g x library :
  lookup g x = Some (BLibrary library) -> returns_in g (use_library x library) any.
Proof.
  intros H w Hw. subst g. exists tt, []. split; [|exact I].
  apply use_library_bound. exact H.
Qed.

(** The two operations of Python that raise. *)
Definition division_fails (S K : num) : bool :=
  Py.both_python S K && Ieee.is_zero (num_val K).

Definition power_overflows (sigma : num) : bool :=
  match num_kind sigma with
  | PythonFloat => Fp.overflows (Ieee.mul (num_val sigma) (num_val sigma))
  | NumpyFloat => false
  end.

Lemma truediv_returns g a b :
  division_fails a b = false -> returns_in g (Py.truediv a b) any.
Proof.
  unfold division_fails, Py.truediv. intros ->. apply returns_binary.
Qed.

Lemma truediv_fails g a b :
  division_fails a b = true -> fails_in g (Py.truediv a b) (Raised ZeroDivisionError).
Proof.
  unfold division_fails, Py.truediv. intros ->. apply fails_fail.
Qed.

Lemma truediv_two_returns g a : returns_in g (Py.truediv a Py.two) any.
Proof.
  apply truediv_returns. unfold division_fails. simpl.
  destruct (Req_dec_T 2 0); [lra|]. apply Bool.andb_false_r.
Qed.

Lemma truediv_numpy_returns g a b :
  is_numpy b -> returns_in g (Py.truediv a b) is_numpy.
Proof.
  intros Hb. unfold Py.truediv. rewrite (both_python_numpy_r _ _ Hb). simpl.
  apply returns_binary_numpy_r. exact Hb.
Qed.

Lemma square_returns g a : power_overflows a = false -> returns_in g (Py.square a) any.
Proof.
  unfold power_overflows, Py.square. destruct (num_kind a).
  - intros ->. apply returns_ret. exact I.
  - intros _. apply returns_weaken with (1 := returns_numpy_float g _ _).
    intros; exact I.
Qed.

Lemma square_fails g a :
  power_overflows a = true -> fails_in g (Py.square a) (Raised OverflowError).
Proof.
  unfold power_overflows, Py.square. destruct (num_kind a).
  - intros ->. apply fails_fail.
  - discriminate.
Qed.

Ltac returns_step g Hnp :=
  first [ apply (returns_use_library g _ _ Hnp)
        | apply truediv_two_returns
        | apply truediv_numpy_returns; assumption
        | apply returns_binary_numpy_r; assumption
        | apply returns_numpy_float
        | apply returns_binary
        | apply returns_ret_any ].

Ltac returns_steps g Hnp :=
  repeat (eapply returns_bind; [returns_step g Hnp|intros ? ?]).

(** The outcome of the two assignments. *)
Lemma numerator_float_outcome S K T r sigma g :
  lookup g "np" = Some (BLibrary "numpy") ->
  if division_fails S K then
    fails_in g (numerator_float S K T r sigma) (Raised ZeroDivisionError)
  else if power_overflows sigma then
    fails_in g (numerator_float S K T r sigma) (Raised OverflowError)
  else returns_in g (numerator_float S K T r sigma) is_numpy.
Proof.
  intros Hnp.
  unfold numerator_float, Py.add, Py.sub, Py.mul, Py.np_log.
  destruct (division_fails S K) eqn:Hdiv.
  { eapply fails_bind; [returns_step g Hnp|intros _ _].
    apply fails_first, truediv_fails. exact Hdiv. }
  destruct (power_overflows sigma) eqn:Hpow.
  { eapply fails_bind; [returns_step g Hnp|intros _ _].
    eapply fails_bind; [apply truediv_returns; exact Hdiv|intros q _].
    eapply fails_bind; [returns_step g Hnp|intros l _].
    apply fails_first, square_fails. exact Hpow. }
  eapply returns_bind; [returns_step g Hnp|intros _ _].
  eapply returns_bind; [apply truediv_returns; exact Hdiv|intros q _].
  eapply returns_bind; [returns_step g Hnp|intros l Hl].
  eapply returns_bind; [apply square_returns; exact Hpow|intros s2 _].
  eapply returns_bind; [returns_step g Hnp|intros h _].
  eapply returns_bind; [returns_step g Hnp|intros a _].
  eapply returns_bind; [returns_step g Hnp|intros m _].
  apply returns_binary_numpy_l. exact Hl.
Qed.

Lemma divisor_float_returns T sigma g :
  lookup g "np" = Some (BLibrary "numpy") ->
  returns_in g (divisor_float T sigma) is_numpy.
Proof.
  intros Hnp. unfold divisor_float, Py.mul, Py.np_sqrt.
  eapply returns_bind; [returns_step g Hnp|intros _ _].
  eapply returns_bind; [apply returns_numpy_float|intros st Hst].
  apply returns_binary_numpy_r. exact Hst.
Qed.

Lemma d1_d2_float_outcome S K T r sigma g :
  lookup g "np" = Some (BLibrary "numpy") ->
  if division_fails S K then
    fails_in g (d1_d2_float S K T r sigma) (Raised ZeroDivisionError)
  else if power_overflows sigma then
    fails_in g (d1_d2_float S K T r sigma) (Raised OverflowError)
  else returns_in g (d1_d2_float S K T r sigma) any.
Proof.
  intros Hnp. pose proof (numerator_float_outcome S K T r sigma g Hnp) as Hn.
  pose proof (divisor_float_returns T sigma g Hnp) as Hv.
  unfold d1_d2_float, Py.sub.
  destruct (division_fails S K); [apply fails_first; exact Hn|].
  destruct (power_overflows sigma); [apply fails_first; exact Hn|].
  eapply returns_bind; [exact Hn|intros n _].
  eapply returns_bind; [exact Hv|intros v Hv'].
  eapply returns_bind; [apply truediv_numpy_returns; exact Hv'|intros d1 _].
  eapply returns_bind; [exact Hv|intros v' _].
  eapply returns_bind; [apply returns_binary|intros d2 _].
  apply returns_ret_any.
Qed.

(** The outcome of a call, case by case. *)
Lemma black_scholes_float_outcome cdf S K T r sigma side g :
  lookup g "np" = Some (BLibrary "numpy") ->
  if division_fails S K then
    fails_in g (black_scholes_float cdf S K T r sigma side) (Raised ZeroDivisionError)
  else if power_overflows sigma then
    fails_in g (black_scholes_float cdf S K T r sigma side) (Raised OverflowError)
  else if ((side =? "call") || (side =? "put"))%string then
    lookup g "norm" = Some (BLibrary "scipy.stats.norm") ->
    returns_in g (black_scholes_float cdf S K T r sigma side) any
  else
    fails_in g (black_scholes_float cdf S K T r sigma side)
      (Raised (ValueError "Option type must be 'call' or 'put'.")).
Proof.
  intros Hnp. pose proof (d1_d2_float_outcome S K T r sigma g Hnp) as Hd.
  unfold black_scholes_float.
  destruct (division_fails S K); [apply fails_first; exact Hd|].
  destruct (power_overflows sigma); [apply fails_first; exact Hd|].
  unfold Py.add, Py.sub, Py.mul, Py.np_exp, Py.norm_cdf.
  destruct (side =? "call")%string eqn:Hc; [|destruct (side =? "put")%string eqn:Hp];
    cbn [orb].
  - intros Hnorm. eapply returns_bind; [exact Hd|intros d _]. cbv beta iota zeta.
    eapply returns_bind; [apply (returns_use_library g _ _ Hnorm)|intros _ _].
    returns_steps g Hnp.
    eapply returns_bind; [apply (returns_use_library g _ _ Hnorm)|intros _ _].
    returns_steps g Hnp. returns_step g Hnp.
  - intros Hnorm. eapply returns_bind; [exact Hd|intros d _]. cbv beta iota zeta.
    returns_steps g Hnp.
    eapply returns_bind; [apply (returns_use_library g _ _ Hnorm)|intros _ _].
    returns_steps g Hnp.
    eapply returns_bind; [apply (returns_use_library g _ _ Hnorm)|intros _ _].
    returns_steps g Hnp. returns_step g Hnp.
  - eapply fails_bind; [exact Hd|intros d _]. cbv beta iota zeta.
    apply fails_fail.
Qed.
(** *** Runs inside the range of binary64 *)

Lemma is_real_eq a x y : is_real a x -> x = y -> is_real a y.
Proof. intros H <-. exact H. Qed.

Lemma inv_pow2_pos n : 0 < / 2 ^ n.
Proof. apply Rinv_0_lt_compat, pow2_pos. Qed.

Lemma bound_pos x n : 0 <= x -> x <= 2 ^ n -> Rabs x <= 2 ^ n.
Proof. intros H0 H. rewrite Rabs_right; [exact H|lra]. Qed.

Lemma ln_2_le_1 : ln 2 <= 1.
Proof.
  rewrite <- (ln_exp 1). left. apply ln_increasing; [lra|].
  pose proof (exp_ineq1 1). lra.
Qed.

Lemma ln_2_pos : 0 < ln 2.
Proof. rewrite <- ln_1. apply ln_increasing; lra. Qed.

Lemma ln_pow2 n : ln (2 ^ n) = INR n * ln 2.
Proof.
  induction n as [|n IH].
  - simpl. rewrite ln_1. ring.
  - rewrite S_INR. simpl pow. rewrite ln_mult by (try apply pow2_pos; lra).
    rewrite IH. ring.
Qed.

Lemma ln_bound_pow2 n x : / 2 ^ n <= x <= 2 ^ n -> Rabs (ln x) <= INR n.
Proof.
  intros [Hl Hu]. pose proof (pow2_pos n) as Hp. pose proof (inv_pow2_pos n) as Hi.
  pose proof ln_2_le_1 as H2. pose proof ln_2_pos as H2'. pose proof (pos_INR n) as Hn.
  assert (Hx : 0 < x) by lra.
  assert (Hup : ln x <= INR n * ln 2).
  { rewrite <- ln_pow2. destruct Hu as [Hu|Hu]; [left; apply ln_increasing; assumption|].
    rewrite Hu. lra. }
  assert (Hlo : - (INR n * ln 2) <= ln x).
  { rewrite <- ln_pow2, <- ln_Rinv by exact Hp.
    destruct Hl as [Hl|Hl]; [left; apply ln_increasing; assumption|].
    rewrite Hl. lra. }
  assert (Hm : INR n * ln 2 <= INR n).
  { rewrite <- (Rmult_1_r (INR n)) at 2. apply Rmult_le_compat_l; assumption. }
  apply Rabs_le. lra.
Qed.

Lemma sqrt_bound_pow2 n x :
  / 2 ^ (n + n) <= x <= 2 ^ (n + n) -> / 2 ^ n <= sqrt x <= 2 ^ n.
Proof.
  intros [Hl Hu]. pose proof (pow2_pos n) as Hp. pose proof (inv_pow2_pos n) as Hi.
  rewrite pow_add in Hl, Hu. split.
  - rewrite <- (sqrt_square (/ 2 ^ n)) by lra. apply sqrt_le_1_alt.
    rewrite <- Rinv_mult. exact Hl.
  - rewrite <- (sqrt_square (2 ^ n)) by lra. apply sqrt_le_1_alt. exact Hu.
Qed.

Lemma pow_IZR_nat (z : Z) (n : nat) : IZR z ^ n = IZR (z ^ Z.of_nat n).
Proof. apply pow_IZR. Qed.

Lemma exp_300_bound : exp 300 <= 2 ^ 500.
Proof.
  replace 300 with (INR 300 * 1) by (rewrite INR_IZR_INZ; simpl; lra).
  rewrite <- exp_pow_nat.
  apply Rle_trans with (3 ^ 300).
  - apply pow_incr. split; [left; apply exp_pos|apply exp_le_3].
  - rewrite !pow_IZR_nat. apply IZR_le. apply Z.leb_le. vm_compute. reflexivity.
Qed.

Lemma exp_bound x : Rabs x <= 300 -> 0 < exp x <= 2 ^ 500.
Proof.
  intros Hx. split; [apply exp_pos|].
  apply Rle_trans with (2 := exp_300_bound).
  pose proof (Rle_abs x) as Hx'.
  destruct (Req_dec x 300) as [->|Hne]; [lra|].
  left. apply exp_increasing. lra.
Qed.

Lemma INR_1000_bound : INR 1000 <= 2 ^ 10.
Proof. rewrite INR_IZR_INZ. simpl. lra. Qed.

Section NumeratorRange.

Variables xS xK xT xr xs : R.
Hypothesis HS : / 2 ^ 500 <= xS <= 2 ^ 500.
Hypothesis HK : / 2 ^ 500 <= xK <= 2 ^ 500.
Hypothesis HT : Rabs xT <= 2 ^ 100.
Hypothesis Hs : Rabs xs <= 2 ^ 100.
Hypothesis Hr : Rabs xr <= 2 ^ 100.

Lemma box_spot_pos : 0 < xS.
Proof. pose proof (inv_pow2_pos 500). lra. Qed.

Lemma box_strike_pos : 0 < xK.
Proof. pose proof (inv_pow2_pos 500). lra. Qed.

Lemma box_ratio : / 2 ^ 1000 <= xS / xK <= 2 ^ 1000.
Proof.
  destruct HS as [HS1 HS2], HK as [HK1 HK2].
  pose proof (inv_pow2_pos 500) as Hi. pose proof (pow2_pos 500) as Hp.
  pose proof box_strike_pos as HK0.
  assert (HiK : / xK <= 2 ^ 500).
  { rewrite <- (Rinv_inv (2 ^ 500)). apply Rinv_le_contravar; assumption. }
  assert (HiK' : / 2 ^ 500 <= / xK) by (apply Rinv_le_contravar; assumption).
  assert (H0 : 0 < / xK) by (apply Rinv_0_lt_compat; exact HK0).
  change 1000%nat with (500 + 500)%nat. rewrite pow_add, Rinv_mult.
  unfold Rdiv. split; apply Rmult_le_compat; lra.
Qed.

Lemma box_ratio_bound : Rabs (xS / xK) <= 2 ^ 1000.
Proof.
  destruct box_ratio as [H1 H2]. pose proof (inv_pow2_pos 1000).
  apply bound_pos; lra.
Qed.

Lemma box_log_bound : Rabs (ln (xS / xK)) <= 2 ^ 10.
Proof.
  apply Rle_trans with (INR 1000); [|apply INR_1000_bound].
  apply ln_bound_pow2. apply box_ratio.
Qed.

Lemma box_square_bound : Rabs (xs * xs) <= 2 ^ 200.
Proof. apply (bound_mul xs xs 100 100); exact Hs. Qed.

Lemma box_half_bound : Rabs (xs * xs / 2) <= 2 ^ 200.
Proof.
  pose proof box_square_bound as H. pose proof (Rabs_pos (xs * xs)).
  unfold Rdiv. rewrite Rabs_mult, (Rabs_right (/ 2)) by lra. lra.
Qed.

Lemma box_drift_bound : Rabs (xr + xs * xs / 2) <= 2 ^ 201.
Proof.
  apply (bound_add _ _ 200); [|apply box_half_bound].
  apply bound_weaken with (1 := Hr). lia.
Qed.

Lemma box_drift_time_bound : Rabs ((xr + xs * xs / 2) * xT) <= 2 ^ 301.
Proof. apply (bound_mul _ _ 201 100); [apply box_drift_bound|exact HT]. Qed.

Lemma box_numerator_bound :
  Rabs (ln (xS / xK) + (xr + xs * xs / 2) * xT) <= 2 ^ 302.
Proof.
  apply (bound_add _ _ 301); [|apply box_drift_time_bound].
  apply bound_weaken with (1 := box_log_bound). lia.
Qed.

(** The numerator of [d1], when nothing leaves the range. *)
Lemma numerator_float_in_box (S K T r sigma : num) w :
  is_real S xS -> is_real K xK -> is_real T xT -> is_real r xr -> is_real sigma xs ->
  lookup (globals w) "np" = Some (BLibrary "numpy") ->
  exists n,
    numerator_float S K T r sigma w = (Value n, w) /\
    is_real n (ln (xS / xK) + (xr + xs * xs / 2) * xT).
Proof.
  intros HS' HK' HT' Hr' Hs' Hnp.
  pose proof box_strike_pos as HK0. pose proof box_spot_pos as HS0.
  assert (Hq0 : 0 < xS / xK) by (apply Rdiv_lt_0_compat; assumption).
  unfold numerator_float.
  rewrite (run_bind_value _ _ _ _ _ (use_library_bound _ _ _ Hnp)).
  destruct (truediv_real S K xS xK w HS' HK') as (q & Eq & Hq);
    [lra|apply below_threshold with (1 := box_ratio_bound); lia|].
  rewrite (run_bind_value _ _ _ _ _ Eq).
  destruct (np_log_real q _ w Hq Hq0) as (l & El & Hl);
    [apply below_threshold with (1 := box_log_bound); lia|].
  rewrite (run_bind_value _ _ _ _ _ El).
  destruct (square_real sigma xs w Hs') as (s2 & Es2 & Hs2);
    [apply below_threshold with (1 := box_square_bound); lia|].
  rewrite (run_bind_value _ _ _ _ _ Es2).
  destruct (truediv_real s2 Py.two _ 2 w Hs2 two_real) as (h & Eh & Hh);
    [lra|apply below_threshold with (1 := box_half_bound); lia|].
  rewrite (run_bind_value _ _ _ _ _ Eh).
  destruct (add_real r h _ _ w Hr' Hh) as (a & Ea & Ha);
    [apply below_threshold with (1 := box_drift_bound); lia|].
  rewrite (run_bind_value _ _ _ _ _ Ea).
  destruct (mul_real a T _ _ w Ha HT') as (m & Em & Hm);
    [apply below_threshold with (1 := box_drift_time_bound); lia|].
  rewrite (run_bind_value _ _ _ _ _ Em).
  apply (add_real l m _ _ w Hl Hm).
  apply below_threshold with (1 := box_numerator_bound); lia.
Qed.

End NumeratorRange.

Section InRange.

Variables xS xK xT xr xs : R.
Hypothesis Hbox : in_box xS xK xT xr xs.

Lemma box_maturity_pos : 0 < xT.
Proof. destruct Hbox as (_ & _ & [H _] & _). pose proof (inv_pow2_pos 100). lra. Qed.

Lemma box_volatility_pos : 0 < xs.
Proof. destruct Hbox as (_ & _ & _ & [H _] & _). pose proof (inv_pow2_pos 100). lra. Qed.

Lemma box_volatility_bound : Rabs xs <= 2 ^ 100.
Proof.
  destruct Hbox as (_ & _ & _ & [H1 H2] & _). pose proof box_volatility_pos.
  apply bound_pos; lra.
Qed.

Lemma box_maturity_bound : Rabs xT <= 2 ^ 100.
Proof.
  destruct Hbox as (_ & _ & [H1 H2] & _). pose proof box_maturity_pos.
  apply bound_pos; lra.
Qed.

Lemma box_sqrt : / 2 ^ 50 <= sqrt xT <= 2 ^ 50.
Proof.
  apply sqrt_bound_pow2. destruct Hbox as (_ & _ & HT & _). exact HT.
Qed.

Lemma box_sqrt_bound : Rabs (sqrt xT) <= 2 ^ 50.
Proof.
  destruct box_sqrt as [H1 H2]. pose proof (inv_pow2_pos 50).
  apply bound_pos; lra.
Qed.

Lemma box_vol_sqrt : / 2 ^ 150 <= xs * sqrt xT <= 2 ^ 150.
Proof.
  destruct Hbox as (_ & _ & _ & [Hs1 Hs2] & _). destruct box_sqrt as [Hq1 Hq2].
  pose proof (inv_pow2_pos 100). pose proof (inv_pow2_pos 50).
  change 150%nat with (100 + 50)%nat. rewrite pow_add, Rinv_mult.
  split; apply Rmult_le_compat; lra.
Qed.

Lemma box_vol_sqrt_pos : 0 < xs * sqrt xT.
Proof. destruct box_vol_sqrt as [H _]. pose proof (inv_pow2_pos 150). lra. Qed.

Lemma box_vol_sqrt_bound : Rabs (xs * sqrt xT) <= 2 ^ 150.
Proof.
  destruct box_vol_sqrt as [H1 H2]. pose proof box_vol_sqrt_pos.
  apply bound_pos; lra.
Qed.

Lemma box_numerator :
  Rabs (ln (xS / xK) + (xr + xs * xs / 2) * xT) <= 2 ^ 302.
Proof.
  destruct Hbox as (HS & HK & _ & _ & Hr).
  apply box_numerator_bound; try assumption;
    [apply box_maturity_bound|apply box_volatility_bound].
Qed.

Lemma box_d1_bound :
  Rabs ((ln (xS / xK) + (xr + xs * xs / 2) * xT) / (xs * sqrt xT)) <= 2 ^ 452.
Proof.
  apply (bound_div _ _ 302 150); [apply box_numerator|].
  destruct box_vol_sqrt as [H1 _]. pose proof box_vol_sqrt_pos.
  rewrite Rabs_right; lra.
Qed.

Lemma box_d2_bound :
  Rabs ((ln (xS / xK) + (xr + xs * xs / 2) * xT) / (xs * sqrt xT) - xs * sqrt xT)
  <= 2 ^ 453.
Proof.
  apply (bound_sub _ _ 452); [apply box_d1_bound|].
  apply bound_weaken with (1 := box_vol_sqrt_bound). lia.
Qed.

Lemma box_d1_eq :
  (ln (xS / xK) + (xr + xs * xs / 2) * xT) / (xs * sqrt xT) = Spec.d1 xS xK xT xr xs.
Proof. unfold Spec.d1. simpl. rewrite Rmult_1_r. reflexivity. Qed.

(** The divisor of [d1]. *)
Lemma divisor_float_in_box (T sigma : num) w :
  is_real T xT -> is_real sigma xs ->
  lookup (globals w) "np" = Some (BLibrary "numpy") ->
  exists v, divisor_float T sigma w = (Value v, w) /\ is_real v (xs * sqrt xT).
Proof.
  intros HT Hs Hnp. pose proof box_maturity_pos as HT0. unfold divisor_float.
  rewrite (run_bind_value _ _ _ _ _ (use_library_bound _ _ _ Hnp)).
  destruct (np_sqrt_real T xT w HT) as (st & Est & Hst);
    [lra|apply below_threshold with (1 := box_sqrt_bound); lia|].
  rewrite (run_bind_value _ _ _ _ _ Est).
  apply (mul_real sigma st _ _ w Hs Hst).
  apply below_threshold with (1 := box_vol_sqrt_bound); lia.
Qed.

(** Inside the box the two assignments report nothing and [d1] and [d2]
    are the reals of the specification. *)
Lemma d1_d2_float_in_box (S K T r sigma : num) w :
  is_real S xS -> is_real K xK -> is_real T xT -> is_real r xr -> is_real sigma xs ->
  lookup (globals w) "np" = Some (BLibrary "numpy") ->
  exists d1 d2,
    d1_d2_float S K T r sigma w = (Value (d1, d2), w) /\
    is_real d1 (Spec.d1 xS xK xT xr xs) /\ is_real d2 (Spec.d2 xS xK xT xr xs).
Proof.
  intros HS HK HT Hr Hs Hnp. pose proof box_vol_sqrt_pos as Hv0.
  destruct Hbox as (HbS & HbK & _ & _ & Hbr).
  destruct (numerator_float_in_box xS xK xT xr xs HbS HbK box_maturity_bound
              box_volatility_bound Hbr S K T r sigma w HS HK HT Hr Hs Hnp)
    as (n & En & Hn).
  destruct (divisor_float_in_box T sigma w HT Hs Hnp) as (v & Ev & Hv).
  unfold d1_d2_float.
  rewrite (run_bind_value _ _ _ _ _ En), (run_bind_value _ _ _ _ _ Ev).
  destruct (truediv_real n v _ _ w Hn Hv) as (d1 & Ed1 & Hd1);
    [lra|apply below_threshold with (1 := box_d1_bound); lia|].
  rewrite (run_bind_value _ _ _ _ _ Ed1), (run_bind_value _ _ _ _ _ Ev).
  destruct (sub_real d1 v _ _ w Hd1 Hv) as (d2 & Ed2 & Hd2);
    [apply below_threshold with (1 := box_d2_bound); lia|].
  rewrite (run_bind_value _ _ _ _ _ Ed2).
  exists d1, d2. split; [reflexivity|].
  split.
  - apply is_real_eq with (1 := Hd1). apply box_d1_eq.
  - apply is_real_eq with (1 := Hd2). unfold Spec.d2. rewrite box_d1_eq. reflexivity.
Qed.

End InRange.
(** *** The price, once [d1] and [d2] are there *)

Section Price.

Variable cdf : R -> R.
Variables xS xK xT xr : R.
Hypothesis HS : Rabs xS <= 2 ^ 500.
Hypothesis HK : Rabs xK <= 2 ^ 500.
Hypothesis Hrt : Rabs (xr * xT) <= 300.

Lemma range_rate_time_bound : Rabs (- xr * xT) <= 2 ^ 9.
Proof.
  replace (- xr * xT) with (- (xr * xT)) by ring.
  rewrite Rabs_Ropp. simpl. lra.
Qed.

Lemma range_discount : 0 < exp (- xr * xT) <= 2 ^ 500.
Proof.
  apply exp_bound.
  replace (- xr * xT) with (- (xr * xT)) by ring. rewrite Rabs_Ropp. exact Hrt.
Qed.

Lemma range_discount_bound : Rabs (exp (- xr * xT)) <= 2 ^ 500.
Proof. destruct range_discount as [H1 H2]. apply bound_pos; lra. Qed.

Lemma range_strike_discount_bound : Rabs (xK * exp (- xr * xT)) <= 2 ^ 1000.
Proof.
  apply (bound_mul _ _ 500 500); [exact HK|apply range_discount_bound].
Qed.

Lemma range_leg_spot_bound a : Rabs a <= 1 -> Rabs (xS * a) <= 2 ^ 1000.
Proof.
  intros Ha. apply bound_weaken with (500 + 0)%nat; [|simpl; lia].
  apply bound_mul; [exact HS|simpl; exact Ha].
Qed.

Lemma range_leg_strike_bound a :
  Rabs a <= 1 -> Rabs (xK * exp (- xr * xT) * a) <= 2 ^ 1000.
Proof.
  intros Ha. change 1000%nat with (1000 + 0)%nat.
  apply bound_mul; [apply range_strike_discount_bound|simpl; exact Ha].
Qed.

(** [K * np.exp(-r * T)], followed by whatever uses it. *)
Lemma discounted_strike_float (K T r : num) w :
  is_real K xK -> is_real T xT -> is_real r xr ->
  exists ke,
    is_real ke (xK * exp (- xr * xT)) /\
    forall k : num -> Run num,
      ((rt <- Py.mul (Py.neg r) T ;; e <- Py.np_exp rt ;;
        ke <- Py.mul K e ;; k ke)%run w) = k ke w.
Proof.
  intros HK' HT' Hr'. pose proof (neg_real _ _ Hr') as Hnr.
  destruct (mul_real _ T _ _ w Hnr HT') as (rt & Ert & Hrt');
    [apply below_threshold with (1 := range_rate_time_bound); lia|].
  destruct (np_exp_real rt _ w Hrt') as (e & Ee & He);
    [apply below_threshold with (1 := range_discount_bound); lia|].
  destruct (mul_real K e _ _ w HK' He) as (ke & Eke & Hke);
    [apply below_threshold with (1 := range_strike_discount_bound); lia|].
  exists ke. split; [exact Hke|]. intros k.
  rewrite (run_bind_value _ _ _ _ _ Ert), (run_bind_value _ _ _ _ _ Ee),
    (run_bind_value _ _ _ _ _ Eke).
  reflexivity.
Qed.

(** The call, when [norm.cdf(d1)] and [norm.cdf(d2)] are the finite
    floats [a] and [b]. *)
Lemma price_float_call (S K T r sigma d1 d2 : num) (a b : R) w w1 :
  is_real S xS -> is_real K xK -> is_real T xT -> is_real r xr ->
  d1_d2_float S K T r sigma w = (Value (d1, d2), w1) ->
  absorb (Ieee.norm_cdf cdf (num_val d1)) = Finite a -> Rabs a <= 1 ->
  absorb (Ieee.norm_cdf cdf (num_val d2)) = Finite b -> Rabs b <= 1 ->
  lookup (globals w1) "np" = Some (BLibrary "numpy") ->
  lookup (globals w1) "norm" = Some (BLibrary "scipy.stats.norm") ->
  exists p, black_scholes_float cdf S K T r sigma "call" w = (Value p, w1) /\
            is_real p (xS * a - xK * exp (- xr * xT) * b).
Proof.
  intros HS' HK' HT' Hr' Ed Ha Ha1 Hb Hb1 Hnp Hnorm.
  destruct (discounted_strike_float K T r w1 HK' HT' Hr') as (ke & Hke & Eke).
  unfold black_scholes_float. rewrite (run_bind_value _ _ _ _ _ Ed).
  cbv beta iota zeta. cbn [String.eqb Ascii.eqb Bool.eqb fst snd].
  rewrite (run_bind_value _ _ _ _ _ (use_library_bound _ _ _ Hnorm)).
  unfold Py.norm_cdf at 1. unfold run_bind at 1, run_ret at 1.
  destruct (mul_real S (Num NumpyFloat (Ieee.norm_cdf cdf (num_val d1))) _ _ w1
              HS' Ha) as (x & Ex & Hx);
    [apply below_threshold with (1 := range_leg_spot_bound a Ha1); lia|].
  rewrite (run_bind_value _ _ _ _ _ Ex).
  rewrite (run_bind_value _ _ _ _ _ (use_library_bound _ _ _ Hnp)).
  rewrite Eke.
  rewrite (run_bind_value _ _ _ _ _ (use_library_bound _ _ _ Hnorm)).
  unfold Py.norm_cdf at 1. unfold run_bind at 1, run_ret at 1.
  destruct (mul_real ke (Num NumpyFloat (Ieee.norm_cdf cdf (num_val d2))) _ _ w1
              Hke Hb) as (y & Ey & Hy);
    [apply below_threshold with (1 := range_leg_strike_bound b Hb1); lia|].
  rewrite (run_bind_value _ _ _ _ _ Ey).
  apply (sub_real x y _ _ w1 Hx Hy).
  apply below_threshold with 1001%nat; [|lia].
  apply (bound_sub _ _ 1000);
    [apply range_leg_spot_bound; exact Ha1|apply range_leg_strike_bound; exact Hb1].
Qed.

(** The put, when [norm.cdf(-d2)] and [norm.cdf(-d1)] are the finite
    floats [a] and [b]. *)
Lemma price_float_put (S K T r sigma d1 d2 : num) (a b : R) w w1 :
  is_real S xS -> is_real K xK -> is_real T xT -> is_real r xr ->
  d1_d2_float S K T r sigma w = (Value (d1, d2), w1) ->
  absorb (Ieee.norm_cdf cdf (Ieee.neg (num_val d2))) = Finite a -> Rabs a <= 1 ->
  absorb (Ieee.norm_cdf cdf (Ieee.neg (num_val d1))) = Finite b -> Rabs b <= 1 ->
  lookup (globals w1) "np" = Some (BLibrary "numpy") ->
  lookup (globals w1) "norm" = Some (BLibrary "scipy.stats.norm") ->
  exists p, black_scholes_float cdf S K T r sigma "put" w = (Value p, w1) /\
            is_real p (xK * exp (- xr * xT) * a - xS * b).
Proof.
  intros HS' HK' HT' Hr' Ed Ha Ha1 Hb Hb1 Hnp Hnorm.
  destruct (discounted_strike_float K T r w1 HK' HT' Hr') as (ke & Hke & Eke).
  unfold black_scholes_float. rewrite (run_bind_value _ _ _ _ _ Ed).
  cbv beta iota zeta. cbn [String.eqb Ascii.eqb Bool.eqb fst snd].
  rewrite (run_bind_value _ _ _ _ _ (use_library_bound _ _ _ Hnp)).
  rewrite Eke.
  rewrite (run_bind_value _ _ _ _ _ (use_library_bound _ _ _ Hnorm)).
  unfold Py.norm_cdf at 1. unfold run_bind at 1, run_ret at 1.
  destruct (mul_real ke (Num NumpyFloat (Ieee.norm_cdf cdf (Ieee.neg (num_val d2))))
              _ _ w1 Hke Ha) as (x & Ex & Hx);
    [apply below_threshold with (1 := range_leg_strike_bound a Ha1); lia|].
  rewrite (run_bind_value _ _ _ _ _ Ex).
  rewrite (run_bind_value _ _ _ _ _ (use_library_bound _ _ _ Hnorm)).
  unfold Py.norm_cdf at 1. unfold run_bind at 1, run_ret at 1.
  destruct (mul_real S (Num NumpyFloat (Ieee.norm_cdf cdf (Ieee.neg (num_val d1))))
              _ _ w1 HS' Hb) as (y & Ey & Hy);
    [apply below_threshold with (1 := range_leg_spot_bound b Hb1); lia|].
  rewrite (run_bind_value _ _ _ _ _ Ey).
  apply (sub_real x y _ _ w1 Hx Hy).
  apply below_threshold with 1001%nat; [|lia].
  apply (bound_sub _ _ 1000);
    [apply range_leg_strike_bound; exact Ha1|apply range_leg_spot_bound; exact Hb1].
Qed.

End Price.

(** Inside the range a call reports nothing and returns the closed-form
    price as a finite float. *)
Lemma black_scholes_float_in_range cdf (xS xK xT xr xs : R) (S K T r sigma : num)
  side w :
  (forall x, Rabs (cdf x) <= 1) -> in_range xS xK xT xr xs ->
  is_real S xS -> is_real K xK -> is_real T xT -> is_real r xr -> is_real sigma xs ->
  lookup (globals w) "np" = Some (BLibrary "numpy") ->
  lookup (globals w) "norm" = Some (BLibrary "scipy.stats.norm") ->
  (side = "call" ->
   exists p, black_scholes_float cdf S K T r sigma side w = (Value p, w) /\
             is_real p (Spec.call_price cdf xS xK xT xr xs)) /\
  (side = "put" ->
   exists p, black_scholes_float cdf S K T r sigma side w = (Value p, w) /\
             is_real p (Spec.put_price cdf xS xK xT xr xs)).
Proof.
  intros Hcdf [Hbox Hrt] HS HK HT Hr Hs Hnp Hnorm.
  destruct (d1_d2_float_in_box _ _ _ _ _ Hbox S K T r sigma w HS HK HT Hr Hs Hnp)
    as (d1 & d2 & Ed & Hd1 & Hd2).
  assert (HbS : Rabs xS <= 2 ^ 500).
  { destruct Hbox as ([H1 H2] & _). pose proof (inv_pow2_pos 500).
    apply bound_pos; lra. }
  assert (HbK : Rabs xK <= 2 ^ 500).
  { destruct Hbox as (_ & [H1 H2] & _). pose proof (inv_pow2_pos 500).
    apply bound_pos; lra. }
  split; intros ->.
  - apply (price_float_call cdf xS xK xT xr HbS HbK Hrt S K T r sigma d1 d2
             _ _ w w HS HK HT Hr Ed (absorb_cdf _ _ _ Hd1) (Hcdf _)
             (absorb_cdf _ _ _ Hd2) (Hcdf _) Hnp Hnorm).
  - apply (price_float_put cdf xS xK xT xr HbS HbK Hrt S K T r sigma d1 d2
             _ _ w w HS HK HT Hr Ed
             (absorb_cdf _ _ _ (absorb_neg _ _ Hd2)) (Hcdf _)
             (absorb_cdf _ _ _ (absorb_neg _ _ Hd1)) (Hcdf _) Hnp Hnorm).
Qed.
(** *** The inputs on which Python raises *)

Lemma division_fails_iff S K : division_fails S K = true <-> zero_divisor S K.
Proof.
  unfold division_fails, zero_divisor, Py.both_python.
  destruct S as [kS vS], K as [kK vK]; simpl.
  destruct kS, kK; simpl;
    try (split; [discriminate|intros (H1 & H2 & _); discriminate]).
  destruct vK as [x| | | |]; simpl.
  - destruct (Req_dec_T x 0) as [->|Hx].
    + split; [intros _; repeat split; left; reflexivity|reflexivity].
    + split; [discriminate|].
      intros (_ & _ & [H|H]); [injection H as ->; lra|discriminate H].
  - split; [intros _; repeat split; right; reflexivity|reflexivity].
  - split; [discriminate|intros (_ & _ & [H|H]); discriminate H].
  - split; [discriminate|intros (_ & _ & [H|H]); discriminate H].
  - split; [discriminate|intros (_ & _ & [H|H]); discriminate H].
Qed.

Lemma threshold_square : overflow_threshold = 2 ^ 512 * 2 ^ 512.
Proof. unfold overflow_threshold. rewrite <- pow_add. reflexivity. Qed.

Lemma square_reaches_threshold x :
  overflow_threshold <= Rabs (x * x) <-> 2 ^ 512 <= Rabs x.
Proof.
  rewrite threshold_square, Rabs_mult.
  pose proof (pow2_pos 512) as Hc. pose proof (Rabs_pos x) as Hx.
  set (c := 2 ^ 512) in *. set (t := Rabs x) in *. split; intros H; nra.
Qed.

Lemma overflows_real x :
  Fp.overflows (XReal x) = true <-> overflow_threshold <= Rabs x.
Proof.
  unfold Fp.overflows, Fp.fit. simpl.
  destruct (Rle_dec overflow_threshold (Rabs x)) as [H|H].
  - split; [intros _; exact H|intros _]. unfold Ieee.inf.
    destruct (Rlt_dec x 0); reflexivity.
  - split; [discriminate|intros H'; contradiction].
Qed.

Lemma power_overflows_iff sigma : power_overflows sigma = true <-> square_overflows sigma.
Proof.
  unfold power_overflows, square_overflows.
  destruct sigma as [k v]; simpl.
  destruct k; [|split; [discriminate|intros [H _]; discriminate H]].
  destruct v as [x| | | |].
  - assert (Hmul : Ieee.mul (XReal x) (XReal x) = XReal (x * x)).
    { unfold Ieee.mul, Ieee.signed, Ieee.zero. simpl.
      destruct (Rlt_dec x 0); simpl;
        (destruct (Req_dec_T (x * x) 0) as [->|]; reflexivity). }
    rewrite Hmul, overflows_real, square_reaches_threshold.
    split.
    + intros H. split; [reflexivity|]. exists x. split; [reflexivity|exact H].
    + intros (_ & y & Hy & H). injection Hy as <-. exact H.
  - split; [|intros (_ & y & Hy & _); discriminate Hy].
    unfold Ieee.mul, Ieee.signed, Ieee.zero, Fp.overflows. simpl.
    destruct (Req_dec_T (0 * 0) 0) as [_|H]; [|exfalso; apply H; ring].
    simpl. pose proof overflow_threshold_pos.
    destruct (Rle_dec overflow_threshold (Rabs 0)) as [H'|_];
      [rewrite Rabs_R0 in H'; lra|discriminate].
  - split; [discriminate|intros (_ & y & Hy & _); discriminate Hy].
  - split; [discriminate|intros (_ & y & Hy & _); discriminate Hy].
  - split; [discriminate|intros (_ & y & Hy & _); discriminate Hy].
Qed.

Lemma division_fails_false S K : ~ zero_divisor S K -> division_fails S K = false.
Proof.
  intros H. destruct (division_fails S K) eqn:E; [|reflexivity].
  exfalso. apply H, division_fails_iff. exact E.
Qed.

Lemma power_overflows_false sigma : ~ square_overflows sigma -> power_overflows sigma = false.
Proof.
  intros H. destruct (power_overflows sigma) eqn:E; [|reflexivity].
  exfalso. apply H, power_overflows_iff. exact E.
Qed.

Lemma is_real_not_zero_divisor S K x : is_real K x -> x <> 0 -> ~ zero_divisor S K.
Proof.
  unfold is_real. intros HK Hx (_ & _ & [H|H]); rewrite H in HK; simpl in HK;
    injection HK as <-; apply Hx; reflexivity.
Qed.

Lemma is_real_not_square_overflows sigma x :
  is_real sigma x -> Rabs x < 2 ^ 512 -> ~ square_overflows sigma.
Proof.
  unfold is_real. intros Hs Hx (_ & y & Hy & H). rewrite Hy in Hs. simpl in Hs.
  injection Hs as <-. lra.
Qed.

(** The libraries, whatever their names are bound to. *)
Lemma use_library_outcome g x library :
  returns_in g (use_library x library) any \/
  fails_in g (use_library x library) (NameError x) \/
  fails_in g (use_library x library) Unsupported.
Proof.
  destruct (lookup g x) as [b|] eqn:E.
  - destruct b as [| | | |name];
      try (right; right; intros w <-; exists []; unfold use_library, with_library;
           rewrite E; reflexivity).
    destruct (name =? library)%string eqn:En.
    + left. apply returns_use_library. apply String.eqb_eq in En. subst. exact E.
    + right; right. intros w <-. exists []. unfold use_library, with_library.
      rewrite E, En. reflexivity.
  - right; left. intros w <-. exists []. unfold use_library, with_library.
    rewrite E. reflexivity.
Qed.

(** With a valid side a call returns, unless [norm] is not the library. *)
Lemma black_scholes_float_norm_missing cdf S K T r sigma side g e :
  lookup g "np" = Some (BLibrary "numpy") ->
  returns_in g (d1_d2_float S K T r sigma) any ->
  side = "call" \/ side = "put" ->
  fails_in g (use_library "norm" "scipy.stats.norm") e ->
  fails_in g (black_scholes_float cdf S K T r sigma side) e.
Proof.
  intros Hnp Hd Hside Hnorm. unfold black_scholes_float, Py.mul, Py.np_exp.
  eapply fails_bind; [exact Hd|intros d _]. cbv beta iota zeta.
  destruct Hside as [-> | ->]; cbn [String.eqb Ascii.eqb Bool.eqb].
  - apply fails_first. exact Hnorm.
  - eapply fails_bind; [returns_step g Hnp|intros _ _].
    eapply fails_bind; [returns_step g Hnp|intros rt _].
    eapply fails_bind; [returns_step g Hnp|intros e' _].
    eapply fails_bind; [returns_step g Hnp|intros ke _].
    apply fails_first. exact Hnorm.
Qed.

Lemma black_scholes_float_valid_side cdf S K T r sigma side g :
  lookup g "np" = Some (BLibrary "numpy") ->
  division_fails S K = false -> power_overflows sigma = false ->
  side = "call" \/ side = "put" ->
  returns_in g (black_scholes_float cdf S K T r sigma side) any \/
  fails_in g (black_scholes_float cdf S K T r sigma side) (NameError "norm") \/
  fails_in g (black_scholes_float cdf S K T r sigma side) Unsupported.
Proof.
  intros Hnp Hdiv Hpow Hside.
  pose proof (black_scholes_float_outcome cdf S K T r sigma side g Hnp) as Hout.
  pose proof (d1_d2_float_outcome S K T r sigma g Hnp) as Hd.
  rewrite Hdiv, Hpow in Hout, Hd.
  assert (Hvalid : ((side =? "call") || (side =? "put"))%string = true).
  { destruct Hside as [-> | ->]; reflexivity. }
  rewrite Hvalid in Hout.
  destruct (use_library_outcome g "norm" "scipy.stats.norm") as [H|[H|H]].
  - left. apply Hout.
    destruct (lookup g "norm") as [b|] eqn:E.
    + destruct (H (World g [] []) eq_refl) as (a & fs & Ea & _).
      unfold use_library, with_library in Ea. simpl in Ea. rewrite E in Ea.
      destruct b as [x|f|xs|vs|name]; try discriminate Ea.
      destruct (name =? "scipy.stats.norm")%string eqn:En; [|discriminate Ea].
      apply String.eqb_eq in En. subst. reflexivity.
    + destruct (H (World g [] []) eq_refl) as (a & fs & Ea & _).
      unfold use_library, with_library in Ea. simpl in Ea. rewrite E in Ea.
      discriminate Ea.
  - right; left. apply black_scholes_float_norm_missing; assumption.
  - right; right. apply black_scholes_float_norm_missing; assumption.
Qed.

Lemma returns_at {A} (m : Run A) P w :
  returns_in (globals w) m P -> exists a, fst (m w) = Value a.
Proof. intros H. destruct (H w eq_refl) as (a & fs & E & _). exists a. rewrite E. reflexivity. Qed.

Lemma fails_at {A} (m : Run A) e w :
  fails_in (globals w) m e -> fst (m w) = Fails e.
Proof. intros H. destruct (H w eq_refl) as (fs & E). rewrite E. reflexivity. Qed.

Lemma framed_frame {A} (m : Run A) w :
  framed m -> globals (snd (m w)) = globals w /\ printed (snd (m w)) = printed w.
Proof.
  intros Hm. destruct (Hm w w eq_refl) as (fs & _ & Hw & _). rewrite Hw.
  split; [apply signal_globals|apply signal_printed].
Qed.
(** *** The example parameters and an overflowing rate *)

Lemma pow2_interval x k n :
  (k <= n)%nat -> / 2 ^ k <= x <= 2 ^ k -> / 2 ^ n <= x <= 2 ^ n.
Proof.
  intros Hk [H1 H2]. pose proof (pow2_le k n Hk) as Hp.
  pose proof (pow2_pos k) as Hk0. split.
  - apply Rle_trans with (2 := H1). apply Rinv_le_contravar; assumption.
  - lra.
Qed.

Lemma in_box_example (r : R) : Rabs r <= 1024 -> in_box 100 100 1 r 0.2.
Proof.
  intros Hr. unfold in_box.
  split; [apply (pow2_interval _ 7); [lia|simpl; lra]|].
  split; [apply (pow2_interval _ 7); [lia|simpl; lra]|].
  split; [apply (pow2_interval _ 0); [lia|simpl; lra]|].
  split; [apply (pow2_interval _ 3); [lia|simpl; lra]|].
  apply bound_weaken with 10%nat; [simpl; lra|lia].
Qed.

Lemma in_range_example : in_range 100 100 1 0.05 0.2.
Proof.
  split.
  - apply in_box_example. rewrite Rabs_right; lra.
  - rewrite Rabs_right; lra.
Qed.

Lemma norm_cdf_abs x : Rabs (norm_cdf x) <= 1.
Proof.
  pose proof (norm_cdf_pos x). pose proof (norm_cdf_lt_1 x).
  rewrite Rabs_right; lra.
Qed.

Lemma float_real x : is_real (Py.float x) x.
Proof. reflexivity. Qed.

Lemma float_not_zero_divisor S x : x <> 0 -> ~ zero_divisor S (Py.float x).
Proof. apply is_real_not_zero_divisor. reflexivity. Qed.

Lemma float_not_square_overflows x : Rabs x <= 1 -> ~ square_overflows (Py.float x).
Proof.
  intros Hx. apply is_real_not_square_overflows with x; [reflexivity|].
  apply Rle_lt_trans with (1 := Hx). apply (pow2_lt 0 512). lia.
Qed.

Lemma exp_1000_overflows : overflow_threshold <= exp 1000.
Proof.
  replace 1000 with (INR 2000 * (1 / 2)) by (rewrite INR_IZR_INZ; simpl; lra).
  rewrite <- exp_pow_nat.
  apply Rle_trans with ((3 / 2) ^ 2000).
  - unfold overflow_threshold.
    apply Rmult_le_reg_r with (2 ^ 2000); [apply pow2_pos|].
    rewrite <- Rpow_mult_distr, <- pow_add.
    replace (3 / 2 * 2) with 3 by lra.
    rewrite !pow_IZR_nat. apply IZR_le. apply Z.leb_le. vm_compute. reflexivity.
  - apply pow_incr. pose proof (exp_ineq1 (1 / 2)). lra.
Qed.

Lemma absorb_nonzero a z : absorb a = Finite z -> z <> 0 -> a = XReal z.
Proof.
  destruct a as [u| | | |]; simpl; intros H Hz; try discriminate H;
    injection H as <-; [reflexivity|contradiction].
Qed.

Lemma fit_overflow a z :
  absorb a = Finite z -> overflow_threshold <= z ->
  Fp.fit a = XPInf /\ forall args, Fp.flags args a = [Overflow].
Proof.
  intros Ha Hz. pose proof overflow_threshold_pos as H0.
  assert (Hne : z <> 0) by lra.
  rewrite (absorb_nonzero _ _ Ha Hne).
  assert (Hfit : Fp.fit (XReal z) = XPInf).
  { unfold Fp.fit. rewrite Rabs_right by lra.
    destruct (Rle_dec overflow_threshold z); [|contradiction].
    simpl. destruct (Rlt_dec z 0); [lra|reflexivity]. }
  split; [exact Hfit|]. intros args.
  unfold Fp.flags, Fp.overflows. rewrite Hfit. reflexivity.
Qed.

Lemma ieee_mul_pos_inf x : 0 < x -> Ieee.mul (XReal x) XPInf = XPInf.
Proof.
  intros Hx. unfold Ieee.mul. simpl.
  destruct (Req_dec_T x 0); [lra|]. destruct (Rlt_dec x 0); [lra|reflexivity].
Qed.

Lemma ieee_mul_inf_pos x : 0 < x -> Ieee.mul XPInf (XReal x) = XPInf.
Proof.
  intros Hx. unfold Ieee.mul. simpl.
  destruct (Req_dec_T x 0); [lra|]. destruct (Rlt_dec x 0); [lra|reflexivity].
Qed.

Lemma ieee_inf_sub_finite a z : absorb a = Finite z -> Ieee.sub XPInf a = XPInf.
Proof.
  destruct a as [u| | | |]; simpl; intros H; try discriminate H.
  - unfold Ieee.sub, Ieee.neg. destruct (Req_dec_T u 0); reflexivity.
  - reflexivity.
Qed.

(** The put at the rate [-1000]: [np.exp(1000.0)] overflows. *)
Lemma put_overflows_at_rate_m1000 w :
  lookup (globals w) "np" = Some (BLibrary "numpy") ->
  lookup (globals w) "norm" = Some (BLibrary "scipy.stats.norm") ->
  black_scholes_float norm_cdf (Py.float 100) (Py.float 100) (Py.float 1)
    (Py.float (-1000)) (Py.float 0.2) "put" w
  = (Value (Num NumpyFloat XPInf), signal [Overflow] w).
Proof.
  intros Hnp Hnorm.
  assert (Hbox : in_box 100 100 1 (-1000) 0.2).
  { apply in_box_example. rewrite Rabs_left; lra. }
  destruct (d1_d2_float_in_box _ _ _ _ _ Hbox _ _ _ _ _ w
              (float_real 100) (float_real 100) (float_real 1)
              (float_real (-1000)) (float_real 0.2) Hnp)
    as (d1 & d2 & Ed & Hd1 & Hd2).
  unfold black_scholes_float. rewrite (run_bind_value _ _ _ _ _ Ed).
  cbv beta iota zeta. cbn [String.eqb Ascii.eqb Bool.eqb fst snd].
  rewrite (run_bind_value _ _ _ _ _ (use_library_bound _ _ _ Hnp)).
  destruct (mul_real (Py.neg (Py.float (-1000))) (Py.float 1) _ _ w
              (neg_real _ _ (float_real (-1000))) (float_real 1))
    as (rt & Ert & Hrt).
  { apply below_threshold with 10%nat; [|lia].
    rewrite Rabs_right by lra. simpl. lra. }
  rewrite (run_bind_value _ _ _ _ _ Ert).
  pose proof (absorb_exp _ _ Hrt) as He.
  replace (- -1000 * 1) with 1000 in He by lra.
  destruct (fit_overflow _ _ He exp_1000_overflows) as [Hfit Hflags].
  assert (Ee : Py.np_exp rt w = (Value (Num NumpyFloat XPInf), signal [Overflow] w)).
  { unfold Py.np_exp, Py.numpy_float. rewrite Hfit, Hflags. reflexivity. }
  rewrite (run_bind_value _ _ _ _ _ Ee).
  set (w1 := signal [Overflow] w).
  assert (Hnp1 : lookup (globals w1) "np" = Some (BLibrary "numpy")) by exact Hnp.
  assert (Hnorm1 : lookup (globals w1) "norm" = Some (BLibrary "scipy.stats.norm"))
    by exact Hnorm.
  assert (Eke : Py.mul (Py.float 100) (Num NumpyFloat XPInf) w1
                = (Value (Num NumpyFloat XPInf), w1)).
  { unfold Py.mul, Py.binary, Py.numpy_float, Py.both_python, Py.float.
    cbn [num_kind num_val]. rewrite ieee_mul_pos_inf by lra. reflexivity. }
  rewrite (run_bind_value _ _ _ _ _ Eke).
  rewrite (run_bind_value _ _ _ _ _ (use_library_bound _ _ _ Hnorm1)).
  destruct (norm_cdf_real norm_cdf _ _ w1 (neg_real _ _ Hd2)) as (c2 & Ec2 & Hc2).
  rewrite (run_bind_value _ _ _ _ _ Ec2).
  assert (Ex : Py.mul (Num NumpyFloat XPInf) c2 w1
               = (Value (Num NumpyFloat XPInf), w1)).
  { unfold Py.mul, Py.binary, Py.numpy_float, Py.both_python.
    cbn [num_kind num_val].
    pose proof (norm_cdf_pos (- Spec.d2 100 100 1 (-1000) 0.2)) as Hpos.
    rewrite (absorb_nonzero _ _ Hc2) by lra.
    rewrite ieee_mul_inf_pos by exact Hpos. reflexivity. }
  rewrite (run_bind_value _ _ _ _ _ Ex).
  rewrite (run_bind_value _ _ _ _ _ (use_library_bound _ _ _ Hnorm1)).
  destruct (norm_cdf_real norm_cdf _ _ w1 (neg_real _ _ Hd1)) as (c1 & Ec1 & Hc1).
  rewrite (run_bind_value _ _ _ _ _ Ec1).
  destruct (mul_real (Py.float 100) c1 _ _ w1 (float_real 100) Hc1) as (y & Ey & Hy).
  { apply below_threshold with (7 + 0)%nat; [|simpl; lia].
    apply bound_mul; [rewrite Rabs_right by lra; simpl; lra|].
    simpl. apply norm_cdf_abs. }
  rewrite (run_bind_value _ _ _ _ _ Ey).
  unfold Py.sub, Py.binary, Py.numpy_float, Py.both_python.
  cbn [num_kind num_val]. rewrite (ieee_inf_sub_finite _ _ Hy). reflexivity.
Qed.
(** *** Comprehensions over runs that leave the world as it was *)



(** * Properties of the pricer *)

(** C1. On parameters with positive spot, strike, maturity and volatility,
    [black_scholes] computes [d1] and [d2] by the closed formulas and
    returns [S * Phi d1 - K * exp (- r * T) * Phi d2] for a call and
    [K * exp (- r * T) * Phi (- d2) - S * Phi (- d1)] for a put, whatever
    function [Phi] stands for [norm.cdf] (the standard normal distribution
    function in particular). *)
Theorem black_scholes_closed_form (Phi : R -> R) (S K T r sigma : R) (out : stdout) :
  0 < S -> 0 < K -> 0 < T -> 0 < sigma ->
  let d1 := (ln (S / K) + (r + sigma ^ 2 / 2) * T) / (sigma * sqrt T) in
  let d2 := d1 - sigma * sqrt T in
  black_scholes Phi S K T r sigma "call" out
  = (Return (PyFloat (Finite (S * Phi d1 - K * exp (- r * T) * Phi d2))), out)
  /\
  black_scholes Phi S K T r sigma "put" out
  = (Return (PyFloat (Finite (K * exp (- r * T) * Phi (- d2) - S * Phi (- d1)))), out).
Proof.
  intros HS HK HT Hs d1 d2. split.
  - rewrite black_scholes_call_run by assumption. reflexivity.
  - rewrite black_scholes_put_run by assumption. reflexivity.
Qed.

Lemma black_scholes_closed_form_witness :
  (0 < 100 /\ 0 < 100 /\ 0 < 1 /\ 0 < 0.2) /\
  let d1 := (ln (100 / 100) + (0.05 + 0.2 ^ 2 / 2) * 1) / (0.2 * sqrt 1) in
  let d2 := d1 - 0.2 * sqrt 1 in
  black_scholes norm_cdf 100 100 1 0.05 0.2 "call" []
  = (Return (PyFloat (Finite (100 * norm_cdf d1
                              - 100 * exp (- (0.05) * 1) * norm_cdf d2))), [])
  /\
  black_scholes norm_cdf 100 100 1 0.05 0.2 "put" []
  = (Return (PyFloat (Finite (100 * exp (- (0.05) * 1) * norm_cdf (- d2)
                              - 100 * norm_cdf (- d1)))), []).
Proof.
  split; [lra|].
  apply (black_scholes_closed_form norm_cdf 100 100 1 0.05 0.2 []); lra.
Defined.

(** C2. Put-call parity: on valid parameters the call price minus the put
    price equals [S - K * exp (- r * T)], exactly, over the reals. *)
Theorem put_call_parity (S K T r sigma : R) (out : stdout) :
  0 < S -> 0 < K -> 0 < T -> 0 < sigma ->
  exists c p,
    black_scholes norm_cdf S K T r sigma "call" out
    = (Return (PyFloat (Finite c)), out) /\
    black_scholes norm_cdf S K T r sigma "put" out
    = (Return (PyFloat (Finite p)), out) /\
    c - p = S - K * exp (- r * T).
Proof.
  intros HS HK HT Hs.
  exists (Spec.call_price norm_cdf S K T r sigma),
         (Spec.put_price norm_cdf S K T r sigma).
  split; [apply black_scholes_call_run; assumption|].
  split; [apply black_scholes_put_run; assumption|].
  apply put_call_parity_real.
Qed.

Lemma put_call_parity_witness :
  (0 < 100 /\ 0 < 100 /\ 0 < 1 /\ 0 < 0.2) /\
  exists c p,
    black_scholes norm_cdf 100 100 1 0.05 0.2 "call" []
    = (Return (PyFloat (Finite c)), []) /\
    black_scholes norm_cdf 100 100 1 0.05 0.2 "put" []
    = (Return (PyFloat (Finite p)), []) /\
    c - p = 100 - 100 * exp (- (0.05) * 1).
Proof.
  split; [lra|].
  apply (put_call_parity 100 100 1 0.05 0.2 []); lra.
Defined.

(** The floating-point clause of C2 is settled at one spot next to the
    discounted strike, which takes [exp (- 0.05)] to twenty digits.  The
    partial sums of the series of [exp (- u)] at a rational: the pair of
    the last term and the sum. *)
Fixpoint exp_series_Q (n : nat) (u : Q) : Q * Q :=
  match n with
  | O => (1, 1)%Q
  | S n' =>
      let '(t, s) := exp_series_Q n' u in
      let t' := (t * (- u) / inject_Z (Z.of_nat n))%Q in
      (t', (s + t')%Q)
  end.

(** The binary64 number that the literal [95.12294245007142] denotes: the
    float next to [100 * exp (- 0.05)], the strike 100 discounted at the
    rate 0.05 over one year. *)
Definition spot_at_forward : R := 6693682002695731 / 2 ^ 46.

(** The spacing of the binary64 numbers between 1 and 2 is [2^-52], and
    every binary64 number of magnitude at least 1 is a multiple of it. *)
Definition binary64_multiple (x : R) : Prop := exists k : Z, x = IZR k / 2 ^ 52.

Lemma exp_series_Q_correct n u :
  Q2R (fst (exp_series_Q n u)) = (- Q2R u) ^ n / INR (fact n) /\
  Q2R (snd (exp_series_Q n u)) = exp_series n (Q2R u).
Proof.
  induction n as [|n [IHt IHs]].
  - simpl. unfold exp_series. simpl. unfold Q2R. simpl. split; field.
  - cbn [exp_series_Q]. destruct (exp_series_Q n u) as [t s].
    cbn [fst snd] in *.
    assert (Hd : ~ (inject_Z (Z.of_nat (S n)) == 0)%Q)
      by (apply inject_Z_nonzero; lia).
    assert (Ht : Q2R (t * - u / inject_Z (Z.of_nat (S n)))
                 = (- Q2R u) ^ S n / INR (fact (S n))).
    { rewrite Q2R_div by exact Hd.
      rewrite Q2R_mult, Q2R_opp, Q2R_inject_Z, IHt, <- INR_IZR_INZ.
      replace (fact (S n)) with (S n * fact n)%nat by reflexivity.
      rewrite mult_INR, <- tech_pow_Rmult.
      pose proof (INR_fact_neq_0 n).
      assert (INR (S n) <> 0) by (apply not_0_INR; lia).
      field. split; assumption. }
    split; [exact Ht|].
    rewrite Q2R_plus, Ht, IHs. unfold exp_series. rewrite tech5. reflexivity.
Qed.

Lemma Q2R_nonneg u : (0 <= u)%Q -> 0 <= Q2R u.
Proof.
  intros Hu. replace 0 with (Q2R 0) by (unfold Q2R; simpl; field).
  apply Qle_Rle. exact Hu.
Qed.

Lemma exp_lower_Q m (u lo : Q) :
  (0 <= u)%Q -> (lo <= snd (exp_series_Q (S (2 * m)) u))%Q ->
  Q2R lo <= exp (- Q2R u).
Proof.
  intros Hu Hlo.
  apply Rle_trans with (exp_series (S (2 * m)) (Q2R u)).
  - rewrite <- (proj2 (exp_series_Q_correct _ _)). apply Qle_Rle. exact Hlo.
  - apply exp_series_lower. apply Q2R_nonneg. exact Hu.
Qed.

Lemma exp_upper_Q m (u hi : Q) :
  (0 <= u)%Q -> (snd (exp_series_Q (2 * m) u) <= hi)%Q ->
  exp (- Q2R u) <= Q2R hi.
Proof.
  intros Hu Hhi.
  apply Rle_trans with (exp_series (2 * m) (Q2R u)).
  - apply exp_series_upper. apply Q2R_nonneg. exact Hu.
  - rewrite <- (proj2 (exp_series_Q_correct _ _)). apply Qle_Rle. exact Hhi.
Qed.

Lemma exp_m005_tight :
  0.95122942450071400909 <= exp (- (0.05)) <= 0.95122942450071400910.
Proof.
  replace 0.05 with (Q2R (1 # 20)) by (unfold Q2R; simpl; lra).
  split.
  - replace 0.95122942450071400909
      with (Q2R (95122942450071400909 # 100000000000000000000))
      by (unfold Q2R; simpl; lra).
    apply (exp_lower_Q 5); apply Qle_bool_imp_le; vm_compute; reflexivity.
  - replace 0.95122942450071400910
      with (Q2R (95122942450071400910 # 100000000000000000000))
      by (unfold Q2R; simpl; lra).
    apply (exp_upper_Q 5); apply Qle_bool_imp_le; vm_compute; reflexivity.
Qed.

Lemma exp_m0049_lower : 0.9521 <= exp (- (0.049)).
Proof.
  replace 0.049 with (Q2R (49 # 1000)) by (unfold Q2R; simpl; lra).
  replace 0.9521 with (Q2R (9521 # 10000)) by (unfold Q2R; simpl; lra).
  apply (exp_lower_Q 1); apply Qle_bool_imp_le; vm_compute; reflexivity.
Qed.

Lemma pow2_46 : 2 ^ 46 = 70368744177664.
Proof. rewrite (pow_IZR 2 46). reflexivity. Qed.

Lemma pow2_52 : 2 ^ 52 = 4503599627370496.
Proof. rewrite (pow_IZR 2 52). reflexivity. Qed.

Lemma spot_at_forward_value :
  95.12294245007142 < spot_at_forward < 95.12294245007143.
Proof. unfold spot_at_forward. rewrite pow2_46. lra. Qed.

(** The spot less the discounted strike lies strictly between two
    consecutive multiples of [2^-52]. *)
Lemma forward_gap :
  87 / 2 ^ 52 + 1e-17 <= spot_at_forward - 100 * exp (- (0.05) * 1)
  /\ spot_at_forward - 100 * exp (- (0.05) * 1) <= 88 / 2 ^ 52 - 1e-17.
Proof.
  replace (- (0.05) * 1) with (- (0.05)) by ring.
  pose proof exp_m005_tight as [Hl Hu].
  unfold spot_at_forward. rewrite pow2_46, pow2_52. lra.
Qed.

Lemma gint_at_010 : 0.0998335 <= gint 0.1 <= 0.0998336.
Proof.
  replace 0.1 with (Q2R (1 # 10)) by (unfold Q2R; simpl; lra).
  split.
  - replace 0.0998335 with (Q2R (998335 # 10000000)) by (unfold Q2R; simpl; lra).
    apply (gint_lower_Q 1); apply Qle_bool_imp_le; vm_compute; reflexivity.
  - replace 0.0998336 with (Q2R (998336 # 10000000)) by (unfold Q2R; simpl; lra).
    apply (gint_upper_Q 1); apply Qle_bool_imp_le; vm_compute; reflexivity.
Qed.

Lemma gint_at_0095 : 0.0948572 <= gint 0.095.
Proof.
  replace 0.095 with (Q2R (95 # 1000)) by (unfold Q2R; simpl; lra).
  replace 0.0948572 with (Q2R (948572 # 10000000)) by (unfold Q2R; simpl; lra).
  apply (gint_lower_Q 1); apply Qle_bool_imp_le; vm_compute; reflexivity.
Qed.

Lemma gint_at_0105 : gint 0.105 <= 0.1048074.
Proof.
  replace 0.105 with (Q2R (105 # 1000)) by (unfold Q2R; simpl; lra).
  replace 0.1048074 with (Q2R (1048074 # 10000000)) by (unfold Q2R; simpl; lra).
  apply (gint_upper_Q 1); apply Qle_bool_imp_le; vm_compute; reflexivity.
Qed.

Lemma norm_cdf_from_gint x lo hi :
  lo <= gint x <= hi -> 0 <= lo ->
  / 2 + lo / 2.50668 <= norm_cdf x <= / 2 + hi / 2.50646.
Proof.
  intros [Hl Hu] H0.
  pose proof gauss_half_mass_bounds as [Gl Gu].
  rewrite norm_cdf_half_mass.
  assert (Hg : 0 < 2 * gauss_half_mass) by lra.
  split; apply Rplus_le_compat_l.
  - apply Rle_trans with (lo / (2 * gauss_half_mass)).
    + unfold Rdiv. apply Rmult_le_compat_l; [exact H0|].
      apply Rinv_le_contravar; lra.
    + unfold Rdiv. apply Rmult_le_compat_r; [left; apply Rinv_0_lt_compat; lra|lra].
  - apply Rle_trans with (hi / (2 * gauss_half_mass)).
    + unfold Rdiv. apply Rmult_le_compat_r; [left; apply Rinv_0_lt_compat; lra|lra].
    + unfold Rdiv. apply Rmult_le_compat_l; [lra|].
      apply Rinv_le_contravar; lra.
Qed.

Lemma norm_cdf_le x y : x <= y -> norm_cdf x <= norm_cdf y.
Proof.
  intros [H| ->]; [left; apply norm_cdf_increasing; exact H|right; reflexivity].
Qed.

Lemma spot_at_forward_d1 :
  0.1 <= Spec.d1 spot_at_forward 100 1 0.05 0.2 <= 0.105.
Proof.
  pose proof spot_at_forward_value as [Sl Su].
  pose proof exp_m005_tight as [_ El]. pose proof exp_m0049_lower as Eu.
  assert (Hq : 0 < spot_at_forward / 100) by lra.
  assert (Hln : - (0.05) <= ln (spot_at_forward / 100) <= - (0.049)).
  { split.
    - rewrite <- (ln_exp (- (0.05))).
      destruct (Rle_lt_or_eq_dec (exp (- (0.05))) (spot_at_forward / 100)) as [H|H];
        [lra| |].
      + left. apply ln_increasing; [apply exp_pos|exact H].
      + rewrite H. right. reflexivity.
    - rewrite <- (ln_exp (- (0.049))).
      left. apply ln_increasing; [exact Hq|lra]. }
  unfold Spec.d1. rewrite sqrt_1.
  replace (0.2 * 1) with 0.2 by ring.
  replace ((0.05 + 0.2 ^ 2 / 2) * 1) with 0.07 by (simpl; lra).
  lra.
Qed.

Lemma spot_at_forward_call :
  7.3 < Spec.call_price norm_cdf spot_at_forward 100 1 0.05 0.2 < 7.8.
Proof.
  pose proof spot_at_forward_value as [Sl Su].
  pose proof exp_m005_tight as [El Eu].
  pose proof spot_at_forward_d1 as [Dl Du].
  pose proof (norm_cdf_from_gint 0.1 _ _ gint_at_010 ltac:(lra)) as [P1l P1u].
  assert (P0 : / 2 + 0.0948572 / 2.50668 <= norm_cdf 0.095).
  { rewrite norm_cdf_half_mass. pose proof gauss_half_mass_bounds as [Gl Gu].
    pose proof gint_at_0095 as Hg.
    apply Rplus_le_compat_l.
    apply Rle_trans with (0.0948572 / (2 * gauss_half_mass)).
    - unfold Rdiv. apply Rmult_le_compat_l; [lra|].
      apply Rinv_le_contravar; lra.
    - unfold Rdiv. apply Rmult_le_compat_r;
        [left; apply Rinv_0_lt_compat; lra|exact Hg]. }
  assert (P2 : norm_cdf 0.105 <= / 2 + 0.1048074 / 2.50646).
  { rewrite norm_cdf_half_mass. pose proof gauss_half_mass_bounds as [Gl Gu].
    pose proof gint_at_0105 as Hg.
    assert (0 <= gint 0.105).
    { apply Rle_trans with (gint 0.1); [pose proof gint_at_010; lra|].
      apply gint_monotone. lra. }
    apply Rplus_le_compat_l.
    apply Rle_trans with (0.1048074 / (2 * gauss_half_mass)).
    - unfold Rdiv. apply Rmult_le_compat_r;
        [left; apply Rinv_0_lt_compat; lra|exact Hg].
    - unfold Rdiv. apply Rmult_le_compat_l; [lra|].
      apply Rinv_le_contravar; lra. }
  unfold Spec.call_price, Spec.d2. rewrite sqrt_1.
  replace (- (0.05) * 1) with (- (0.05)) by ring.
  set (d := Spec.d1 spot_at_forward 100 1 0.05 0.2) in *.
  pose proof (norm_cdf_le 0.1 d Dl) as A1.
  pose proof (norm_cdf_le d 0.105 Du) as A2.
  pose proof (norm_cdf_le (- (0.1)) (d - 0.2 * 1) ltac:(lra)) as B1.
  pose proof (norm_cdf_le (d - 0.2 * 1) (- (0.095)) ltac:(lra)) as B2.
  rewrite norm_cdf_sym in B1, B2.
  set (a := norm_cdf d) in *. set (b := norm_cdf (d - 0.2 * 1)) in *.
  set (e := exp (- (0.05))) in *.
  assert (Ha : 0.5398 <= a <= 0.5419) by lra.
  assert (Hb : 0.4601 <= b <= 0.4622) by lra.
  assert (H1 : spot_at_forward * 0.5398 <= spot_at_forward * a)
    by (apply Rmult_le_compat_l; lra).
  assert (H2 : spot_at_forward * a <= spot_at_forward * 0.5419)
    by (apply Rmult_le_compat_l; lra).
  assert (H3 : 100 * e * 0.4601 <= 100 * e * b)
    by (apply Rmult_le_compat_l; lra).
  assert (H4 : 100 * e * b <= 100 * e * 0.4622)
    by (apply Rmult_le_compat_l; lra).
  lra.
Qed.

(** C2, in floating point.  At this spot the exact prices lie between 7
    and 8 and differ by less than [2e-14].  Whatever binary64 numbers of
    magnitude at least 1 a run returns for them, their difference misses
    the right-hand side of parity by more than a relative [1e-9]: it is a
    multiple of [2^-52], and the right-hand side is at least [1e-17] away
    from each of these. *)
Lemma parity_tolerance_fails :
  exists c0 p0,
    black_scholes norm_cdf spot_at_forward 100 1 0.05 0.2 "call" []
    = (Return (PyFloat (Finite c0)), []) /\
    black_scholes norm_cdf spot_at_forward 100 1 0.05 0.2 "put" []
    = (Return (PyFloat (Finite p0)), []) /\
    7 < c0 < 8 /\ 7 < p0 < 8 /\
    forall c p, binary64_multiple c -> binary64_multiple p ->
      1e-9 * Rmax (Rabs (c - p))
               (Rabs (spot_at_forward - 100 * exp (- (0.05) * 1)))
      < Rabs (c - p - (spot_at_forward - 100 * exp (- (0.05) * 1))).
Proof.
  pose proof spot_at_forward_value as [Sl Su].
  pose proof spot_at_forward_call as [Cl Cu].
  pose proof forward_gap as [Gl Gu].
  pose proof (put_call_parity_real spot_at_forward 100 1 0.05 0.2) as Hpar.
  exists (Spec.call_price norm_cdf spot_at_forward 100 1 0.05 0.2),
         (Spec.put_price norm_cdf spot_at_forward 100 1 0.05 0.2).
  split; [apply black_scholes_call_run; lra|].
  split; [apply black_scholes_put_run; lra|].
  rewrite pow2_52 in Gl, Gu.
  split; [lra|]. split; [lra|].
  intros c p [m ->] [n ->].
  set (g := spot_at_forward - 100 * exp (- (0.05) * 1)) in *.
  rewrite pow2_52.
  replace (IZR m / 4503599627370496 - IZR n / 4503599627370496)
    with (IZR (m - n) / 4503599627370496) by (rewrite minus_IZR; lra).
  set (j := (m - n)%Z).
  assert (Hj : IZR j <= 87 \/ 88 <= IZR j).
  { destruct (Z.le_gt_cases j 87) as [H|H].
    - left. apply IZR_le. exact H.
    - right. apply IZR_le. lia. }
  set (x := IZR j) in *.
  unfold Rmax, Rabs.
  destruct Hj as [Hj|Hj];
    destruct (Rcase_abs (x / 4503599627370496 - g));
    destruct (Rcase_abs (x / 4503599627370496));
    destruct (Rcase_abs g);
    match goal with |- context [Rle_dec ?a ?b] => destruct (Rle_dec a b) end;
    lra.
Qed.

(** C3, as the code has it.  The quotient [S / K] is evaluated before the
    side is looked at, so a zero strike raises [ZeroDivisionError] even for
    an invalid side. *)
Lemma invalid_side_zero_strike :
  "straddle" <> "call" /\ "straddle" <> "put" /\
  black_scholes norm_cdf 100 0 1 0.05 0.2 "straddle" []
  = (Raise ZeroDivisionError, []) /\
  ~ (exists msg, fst (black_scholes norm_cdf 100 0 1 0.05 0.2 "straddle" [])
                 = Raise (ValueError msg)).
Proof.
  split; [discriminate|]. split; [discriminate|].
  rewrite black_scholes_zero_strike. split; [reflexivity|].
  intros [msg H]. discriminate H.
Qed.

(** C3, amended.  On floats, where [np] is bound to NumPy, the strike is
    not a zero that Python divides by and the square of the volatility
    does not overflow, [black_scholes] raises the [ValueError] exactly
    when the side is neither ["call"] nor ["put"], and returns a float
    for a valid side when [norm] is bound to the library.  It never
    prints and rebinds no global name.  The side is looked at after [d1]
    and [d2] have been computed, so the exceptions of their computation
    are reported first; for parameters inside the range of binary64 there
    are none, and a call with an invalid side leaves the world as it
    was. *)
Theorem invalid_side_rejected (cdf : R -> R) (S K T r sigma : num)
  (option_type : string) (w : world) :
  lookup (globals w) "np" = Some (BLibrary "numpy") ->
  ~ zero_divisor S K -> ~ square_overflows sigma ->
  (fst (black_scholes_float cdf S K T r sigma option_type w)
   = Fails (Raised (ValueError "Option type must be 'call' or 'put'."))
   <-> option_type <> "call" /\ option_type <> "put")
  /\
  (option_type = "call" \/ option_type = "put" ->
   lookup (globals w) "norm" = Some (BLibrary "scipy.stats.norm") ->
   exists p, fst (black_scholes_float cdf S K T r sigma option_type w) = Value p)
  /\
  globals (snd (black_scholes_float cdf S K T r sigma option_type w)) = globals w
  /\
  printed (snd (black_scholes_float cdf S K T r sigma option_type w)) = printed w
  /\
  (forall xS xK xT xr xs : R,
     is_real S xS -> is_real K xK -> is_real T xT -> is_real r xr ->
     is_real sigma xs -> in_box xS xK xT xr xs ->
     option_type <> "call" -> option_type <> "put" ->
     black_scholes_float cdf S K T r sigma option_type w
     = (Fails (Raised (ValueError "Option type must be 'call' or 'put'.")), w)).
Proof.
  intros Hnp Hzero Hover.
  pose proof (division_fails_false _ _ Hzero) as Hdiv.
  pose proof (power_overflows_false _ Hover) as Hpow.
  pose proof (black_scholes_float_outcome cdf S K T r sigma option_type
                (globals w) Hnp) as Hout.
  rewrite Hdiv, Hpow in Hout.
  destruct (framed_frame _ w (black_scholes_float_framed cdf S K T r sigma option_type))
    as [Hg Hp].
  split; [|split; [|split; [exact Hg|split; [exact Hp|]]]].
  - split.
    + intros Hraise.
      assert (Hvalid : option_type = "call" \/ option_type = "put" -> False).
      { intros Hside.
        destruct (black_scholes_float_valid_side cdf S K T r sigma option_type
                    (globals w) Hnp Hdiv Hpow Hside) as [H|[H|H]].
        - destruct (returns_at _ _ _ H) as [a Ha]. rewrite Ha in Hraise.
          discriminate Hraise.
        - rewrite (fails_at _ _ _ H) in Hraise. discriminate Hraise.
        - rewrite (fails_at _ _ _ H) in Hraise. discriminate Hraise. }
      split; intros H; apply Hvalid; [left|right]; exact H.
    + intros [Hc Hp']. apply String.eqb_neq in Hc, Hp'. rewrite Hc, Hp' in Hout.
      apply fails_at. exact Hout.
  - intros Hside Hnorm.
    assert (Hvalid : ((option_type =? "call") || (option_type =? "put"))%string = true).
    { destruct Hside as [-> | ->]; reflexivity. }
    rewrite Hvalid in Hout. apply (returns_at _ _ _ (Hout Hnorm)).
  - intros xS xK xT xr xs HS HK HT Hr Hs Hbox Hc Hp'.
    destruct (d1_d2_float_in_box _ _ _ _ _ Hbox S K T r sigma w HS HK HT Hr Hs Hnp)
      as (d1 & d2 & Ed & _).
    unfold black_scholes_float. rewrite (run_bind_value _ _ _ _ _ Ed).
    apply String.eqb_neq in Hc, Hp'. cbv beta iota zeta. rewrite Hc, Hp'.
    reflexivity.
Qed.

Lemma invalid_side_rejected_witness :
  (lookup (globals imported) "np" = Some (BLibrary "numpy") /\
   ~ zero_divisor (Py.float 100) (Py.float 100) /\
   ~ square_overflows (Py.float 0.2)) /\
  black_scholes_float norm_cdf (Py.float 100) (Py.float 100) (Py.float 1)
    (Py.float 0.05) (Py.float 0.2) "straddle" imported
  = (Fails (Raised (ValueError "Option type must be 'call' or 'put'.")), imported).
Proof.
  assert (H1 : ~ zero_divisor (Py.float 100) (Py.float 100))
    by (apply float_not_zero_divisor; lra).
  assert (H2 : ~ square_overflows (Py.float 0.2))
    by (apply float_not_square_overflows; rewrite Rabs_right; lra).
  split; [split; [reflexivity|split; assumption]|].
  apply (invalid_side_rejected norm_cdf (Py.float 100) (Py.float 100) (Py.float 1)
           (Py.float 0.05) (Py.float 0.2) "straddle" imported eq_refl H1 H2)
    with (xS := 100) (xK := 100) (xT := 1) (xr := 0.05) (xs := 0.2);
    try reflexivity; try discriminate.
  apply in_box_example. rewrite Rabs_right; lra.
Defined.

(** C4. At [S = 100], [K = 100], [T = 1], [r = 0.05], [sigma = 0.2], with
    any [norm.cdf] within [1e-8] of the standard normal distribution
    function, the call price is within [0.01] of [10.45] and the put price
    within [0.01] of [5.57]. *)
Theorem example_prices (cdf : R -> R) (out : stdout) :
  (forall x, Rabs (cdf x - norm_cdf x) <= / 100000000) ->
  exists c p,
    black_scholes cdf 100 100 1 0.05 0.2 "call" out
    = (Return (PyFloat (Finite c)), out) /\
    Rabs (c - 10.45) <= 0.01 /\
    black_scholes cdf 100 100 1 0.05 0.2 "put" out
    = (Return (PyFloat (Finite p)), out) /\
    Rabs (p - 5.57) <= 0.01.
Proof.
  intros Hcdf.
  destruct (example_prices_bounds cdf Hcdf) as [Hc Hp].
  exists (Spec.call_price cdf 100 100 1 0.05 0.2),
         (Spec.put_price cdf 100 100 1 0.05 0.2).
  split; [apply black_scholes_call_run; lra|].
  split; [exact Hc|].
  split; [apply black_scholes_put_run; lra|exact Hp].
Qed.

Lemma example_prices_witness :
  (forall x, Rabs (norm_cdf x - norm_cdf x) <= / 100000000) /\
  exists c p,
    black_scholes norm_cdf 100 100 1 0.05 0.2 "call" []
    = (Return (PyFloat (Finite c)), []) /\
    Rabs (c - 10.45) <= 0.01 /\
    black_scholes norm_cdf 100 100 1 0.05 0.2 "put" []
    = (Return (PyFloat (Finite p)), []) /\
    Rabs (p - 5.57) <= 0.01.
Proof.
  assert (H : forall x, Rabs (norm_cdf x - norm_cdf x) <= / 100000000).
  { intros x. rewrite Rminus_diag, Rabs_R0. lra. }
  split; [exact H|].
  apply (example_prices norm_cdf [] H).
Defined.

(** C5, as the code has it.  The invariants do not keep the result
    finite: at the rate [-1000], with the other parameters of the
    example, [np.exp(1000.0)] overflows and the put is [inf]. *)
Lemma price_infinite_at_rate_m1000 :
  (0 < 100 /\ 0 < 100 /\ 0 < 1 /\ 0 < 0.2) /\
  black_scholes_float norm_cdf (Py.float 100) (Py.float 100) (Py.float 1)
    (Py.float (-1000)) (Py.float 0.2) "put" imported
  = (Value (Num NumpyFloat XPInf), signal [Overflow] imported).
Proof.
  split; [lra|]. apply put_overflows_at_rate_m1000; reflexivity.
Qed.

(** C5, amended.  For a spot and a strike between [2^-500] and [2^500], a
    maturity and a volatility between [2^-100] and [2^100], a rate of
    magnitude at most [2^100] and [|r T| <= 300], and a valid side, no
    operation leaves its domain or the range of binary64: the call
    reports no floating-point exception and returns a finite float, the
    closed-form price. *)
Theorem price_is_finite (S K T r sigma : num) (xS xK xT xr xs : R)
  (option_type : string) (w : world) :
  is_real S xS -> is_real K xK -> is_real T xT -> is_real r xr -> is_real sigma xs ->
  in_range xS xK xT xr xs ->
  option_type = "call" \/ option_type = "put" ->
  lookup (globals w) "np" = Some (BLibrary "numpy") ->
  lookup (globals w) "norm" = Some (BLibrary "scipy.stats.norm") ->
  exists (p : num) (x : R),
    black_scholes_float norm_cdf S K T r sigma option_type w = (Value p, w) /\
    absorb (num_val p) = Finite x /\
    x = (if (option_type =? "call")%string
         then Spec.call_price norm_cdf xS xK xT xr xs
         else Spec.put_price norm_cdf xS xK xT xr xs).
Proof.
  intros HS HK HT Hr Hs Hrange Hside Hnp Hnorm.
  destruct (black_scholes_float_in_range norm_cdf _ _ _ _ _ S K T r sigma
              option_type w norm_cdf_abs Hrange HS HK HT Hr Hs Hnp Hnorm)
    as [Hcall Hput].
  destruct Hside as [Hc|Hp].
  - destruct (Hcall Hc) as (p & Ep & Hp). exists p, (Spec.call_price norm_cdf xS xK xT xr xs).
    subst option_type. split; [exact Ep|]. split; [exact Hp|reflexivity].
  - destruct (Hput Hp) as (p & Ep & Hp'). exists p, (Spec.put_price norm_cdf xS xK xT xr xs).
    subst option_type. split; [exact Ep|]. split; [exact Hp'|reflexivity].
Qed.

Lemma price_is_finite_witness :
  (in_range 100 100 1 0.05 0.2 /\
   lookup (globals imported) "np" = Some (BLibrary "numpy") /\
   lookup (globals imported) "norm" = Some (BLibrary "scipy.stats.norm")) /\
  exists (p : num) (x : R),
    black_scholes_float norm_cdf (Py.float 100) (Py.float 100) (Py.float 1)
      (Py.float 0.05) (Py.float 0.2) "put" imported = (Value p, imported) /\
    absorb (num_val p) = Finite x /\
    x = Spec.put_price norm_cdf 100 100 1 0.05 0.2.
Proof.
  split; [split; [exact in_range_example|split; reflexivity]|].
  apply (price_is_finite (Py.float 100) (Py.float 100) (Py.float 1) (Py.float 0.05)
           (Py.float 0.2) 100 100 1 0.05 0.2 "put" imported);
    try reflexivity.
  - exact in_range_example.
  - right. reflexivity.
Defined.

(** C6. With the other parameters fixed, the call price does not decrease
    when the volatility increases. *)
Theorem call_monotone_in_volatility (S K T r v1 v2 : R) (out : stdout) :
  0 < S -> 0 < K -> 0 < T -> 0 < v1 -> v1 <= v2 ->
  exists p1 p2,
    black_scholes norm_cdf S K T r v1 "call" out
    = (Return (PyFloat (Finite p1)), out) /\
    black_scholes norm_cdf S K T r v2 "call" out
    = (Return (PyFloat (Finite p2)), out) /\
    p1 <= p2.
Proof.
  intros HS HK HT Hv1 Hv.
  exists (Spec.call_price norm_cdf S K T r v1),
         (Spec.call_price norm_cdf S K T r v2).
  split; [apply black_scholes_call_run; assumption|].
  split; [apply black_scholes_call_run; lra|].
  rewrite !call_price_core by lra.
  apply Rmult_le_compat_l.
  - apply Rmult_le_pos; [lra|left; apply exp_pos].
  - pose proof (sqrt_lt_R0 T HT) as Hq.
    apply bs_core_monotone_v.
    + apply Rmult_lt_0_compat; assumption.
    + apply Rmult_le_compat_r; lra.
Qed.

Lemma call_monotone_in_volatility_witness :
  (0 < 100 /\ 0 < 100 /\ 0 < 1 /\ 0 < 0.1 /\ 0.1 <= 0.5) /\
  exists p1 p2,
    black_scholes norm_cdf 100 100 1 0.05 0.1 "call" []
    = (Return (PyFloat (Finite p1)), []) /\
    black_scholes norm_cdf 100 100 1 0.05 0.5 "call" []
    = (Return (PyFloat (Finite p2)), []) /\
    p1 <= p2.
Proof.
  split; [lra|].
  apply (call_monotone_in_volatility 100 100 1 0.05 0.1 0.5 []); lra.
Defined.



(** C8. As the maturity tends to zero from above, the call price tends to
    [max (S - K) 0] and the put price to [max (K - S) 0]. *)
Theorem intrinsic_value_limit (S K r sigma eps : R) (out : stdout) :
  0 < S -> 0 < K -> 0 < sigma -> 0 < eps ->
  exists delta, 0 < delta /\
    forall T, 0 < T < delta ->
      exists c p,
        black_scholes norm_cdf S K T r sigma "call" out
        = (Return (PyFloat (Finite c)), out) /\
        black_scholes norm_cdf S K T r sigma "put" out
        = (Return (PyFloat (Finite p)), out) /\
        Rabs (c - Rmax (S - K) 0) < eps /\
        Rabs (p - Rmax (K - S) 0) < eps.
Proof.
  intros HS HK Hs Heps.
  destruct (right_limit_elim _ _ (call_price_intrinsic_limit S K r sigma HS HK Hs)
              eps Heps) as [dc [Hdc Hc]].
  destruct (right_limit_elim _ _ (put_price_intrinsic_limit S K r sigma HS HK Hs)
              eps Heps) as [dp [Hdp Hp]].
  exists (Rmin dc dp). split; [apply Rmin_pos; assumption|].
  intros T [HT0 HT].
  assert (T < dc) by (eapply Rlt_le_trans; [exact HT|apply Rmin_l]).
  assert (T < dp) by (eapply Rlt_le_trans; [exact HT|apply Rmin_r]).
  exists (Spec.call_price norm_cdf S K T r sigma),
         (Spec.put_price norm_cdf S K T r sigma).
  split; [apply black_scholes_call_run; assumption|].
  split; [apply black_scholes_put_run; assumption|].
  split; [apply Hc|apply Hp]; lra.
Qed.

Lemma intrinsic_value_limit_witness :
  (0 < 110 /\ 0 < 100 /\ 0 < 0.2 /\ 0 < 0.01) /\
  exists delta, 0 < delta /\
    forall T, 0 < T < delta ->
      exists c p,
        black_scholes norm_cdf 110 100 T 0.05 0.2 "call" []
        = (Return (PyFloat (Finite c)), []) /\
        black_scholes norm_cdf 110 100 T 0.05 0.2 "put" []
        = (Return (PyFloat (Finite p)), []) /\
        Rabs (c - Rmax (110 - 100) 0) < 0.01 /\
        Rabs (p - Rmax (100 - 110) 0) < 0.01.
Proof.
  split; [lra|].
  apply (intrinsic_value_limit 110 100 0.05 0.2 0.01 []); lra.
Defined.

(** C9. The function of the example cell ignores its numeric arguments: it
    behaves as [black_scholes] at [S = 100], [K = 100], [T = 1],
    [r = 0.05], [sigma = 0.2].  Nothing after its [return] runs: the result
    does not depend on the binding of the name it would call nor on the
    float formatting, and nothing is printed. *)
Theorem example_cell_ignores_arguments (Phi : R -> R)
  (fmt fmt' : npfloat -> string) (self self' : pyfun)
  (S K T r sigma S' K' T' r' sigma' : R) (option_type : string) (out : stdout) :
  black_scholes_example Phi fmt self S K T r sigma option_type out
  = black_scholes_example Phi fmt' self' S' K' T' r' sigma' option_type out /\
  black_scholes_example Phi fmt self S K T r sigma option_type out
  = black_scholes Phi 100 100 1 0.05 0.2 option_type out /\
  snd (black_scholes_example Phi fmt self S K T r sigma option_type out) = out.
Proof.
  rewrite !example_is_fixed_call.
  split; [reflexivity|]. split; [reflexivity|].
  destruct (black_scholes_pure Phi 100 100 1 0.05 0.2 option_type) as [res Hres].
  rewrite Hres. reflexivity.
Qed.

(** C10. On valid parameters the price, call or put, is not negative; an
    out-of-the-money call can be priced below any positive bound. *)
Theorem price_nonnegative (S K T r sigma : R) (option_type : string) (out : stdout) :
  0 < S -> 0 < K -> 0 < T -> 0 < sigma ->
  option_type = "call" \/ option_type = "put" ->
  (exists p : R,
     black_scholes norm_cdf S K T r sigma option_type out
     = (Return (PyFloat (Finite p)), out) /\ 0 <= p)
  /\
  (S < K ->
   forall eps, 0 < eps ->
     exists T' p', 0 < T' /\
       black_scholes norm_cdf S K T' r sigma "call" out
       = (Return (PyFloat (Finite p')), out) /\ p' < eps).
Proof.
  intros HS HK HT Hs Hside.
  pose proof (vol_sqrt_pos T sigma HT Hs) as Hv.
  split.
  - destruct Hside as [-> | ->].
    + exists (Spec.call_price norm_cdf S K T r sigma).
      split; [apply black_scholes_call_run; assumption|].
      rewrite call_price_core by assumption.
      apply Rmult_le_pos.
      * apply Rmult_le_pos; [lra|left; apply exp_pos].
      * left. apply bs_core_pos. exact Hv.
    + exists (Spec.put_price norm_cdf S K T r sigma).
      split; [apply black_scholes_put_run; assumption|].
      rewrite put_price_core by assumption.
      apply Rmult_le_pos; [lra|].
      left. apply bs_core_pos. exact Hv.
  - intros HSK eps Heps.
    destruct (right_limit_elim _ _ (call_price_intrinsic_limit S K r sigma HS HK Hs)
                eps Heps) as [d [Hd Hc]].
    exists (d / 2), (Spec.call_price norm_cdf S K (d / 2) r sigma).
    split; [lra|].
    split; [apply black_scholes_call_run; lra|].
    pose proof (Hc (d / 2) ltac:(lra)) as Hclose.
    rewrite Rmax_right in Hclose by lra.
    apply Rabs_def2 in Hclose. lra.
Qed.

Lemma price_nonnegative_witness :
  (0 < 100 /\ 0 < 100 /\ 0 < 1 /\ 0 < 0.2) /\
  exists p : R,
    black_scholes norm_cdf 100 100 1 0.05 0.2 "put" []
    = (Return (PyFloat (Finite p)), []) /\ 0 <= p.
Proof.
  split; [lra|].
  apply (price_nonnegative 100 100 1 0.05 0.2 "put" []); try lra.
  right. reflexivity.
Defined.

(** * Further properties of the notebook's code *)

(** ** The pricer outside the data model's invariants *)

(** The real-valued run only needs a non-zero strike of the sign of the
    spot, a positive maturity and a non-zero volatility. *)
Lemma black_scholes_call_run_gen cdf S K T r sigma out :
  K <> 0 -> 0 < S / K -> 0 < T -> sigma <> 0 ->
  black_scholes cdf S K T r sigma "call" out
  = (Return (PyFloat (Finite (Spec.call_price cdf S K T r sigma))), out).
Proof.
  intros HK HSK HT Hsig.
  pose proof (sqrt_lt_R0 T HT) as Hq.
  assert (Hv : sigma * sqrt T <> 0) by (apply Rmult_integral_contrapositive_currified; lra).
  unfold black_scholes, call, black_scholes_body, bind.
  rewrite py_div_nonzero by exact HK.
  rewrite np_log_pos by exact HSK.
  rewrite np_sqrt_nonneg by lra.
  cbn [String.eqb Ascii.eqb Bool.eqb Np.add Np.mul Np.sub Np.lift2 pure return_
       norm_cdf_np Np.lift1].
  rewrite np_div_finite by exact Hv.
  reflexivity.
Qed.

Lemma black_scholes_put_run_gen cdf S K T r sigma out :
  K <> 0 -> 0 < S / K -> 0 < T -> sigma <> 0 ->
  black_scholes cdf S K T r sigma "put" out
  = (Return (PyFloat (Finite (Spec.put_price cdf S K T r sigma))), out).
Proof.
  intros HK HSK HT Hsig.
  pose proof (sqrt_lt_R0 T HT) as Hq.
  assert (Hv : sigma * sqrt T <> 0) by (apply Rmult_integral_contrapositive_currified; lra).
  unfold black_scholes, call, black_scholes_body, bind.
  rewrite py_div_nonzero by exact HK.
  rewrite np_log_pos by exact HSK.
  rewrite np_sqrt_nonneg by lra.
  cbn [String.eqb Ascii.eqb Bool.eqb Np.add Np.mul Np.sub Np.lift2 pure return_
       norm_cdf_np Np.lift1 Np.neg].
  rewrite np_div_finite by exact Hv.
  reflexivity.
Qed.

Lemma d1_neg_vol S K T r sigma :
  0 < T -> sigma <> 0 ->
  Spec.d1 S K T r (- sigma) = - Spec.d1 S K T r sigma.
Proof.
  intros HT Hs. unfold Spec.d1. pose proof (sqrt_lt_R0 T HT).
  simpl pow. field. split; lra.
Qed.

Lemma d2_neg_vol S K T r sigma :
  0 < T -> sigma <> 0 ->
  Spec.d2 S K T r (- sigma) = - Spec.d2 S K T r sigma.
Proof.
  intros HT Hs. unfold Spec.d2. rewrite d1_neg_vol by assumption. ring.
Qed.

Lemma d1_scale lam S K T r sigma :
  lam <> 0 -> K <> 0 ->
  Spec.d1 (lam * S) (lam * K) T r sigma = Spec.d1 S K T r sigma.
Proof.
  intros Hl HK. unfold Spec.d1.
  replace (lam * S / (lam * K)) with (S / K) by (field; split; assumption).
  reflexivity.
Qed.

(** The two forms of the call and of the put price in terms of the
    normalised price. *)
Lemma discount_spot S K T r :
  0 < S -> 0 < K ->
  K * exp (- r * T) = S * exp (- (ln (S / K) + r * T)).
Proof.
  intros HS HK.
  rewrite Ropp_plus_distr, exp_plus, exp_Ropp.
  rewrite exp_ln by (apply Rdiv_lt_0_compat; assumption).
  replace (- (r * T)) with (- r * T) by ring. field. lra.
Qed.

Definition bs_core_fwd (a v : R) : R := exp (- a) * bs_core a v.

Lemma bs_core_fwd_deriv_a a v :
  0 < v ->
  derivable_pt_lim (fun a => bs_core_fwd a v) a (exp (- a) * norm_cdf (a / v - v / 2)).
Proof.
  intros Hv. unfold bs_core_fwd.
  apply (derivable_pt_lim_eq _ _
           (exp (- a) * - 1 * bs_core a v
            + exp (- a) * (exp a * norm_cdf (a / v + v / 2)))).
  - apply (derivable_pt_lim_mult (fun a => exp (- a)) (fun a => bs_core a v)).
    + derive. ring.
    + apply bs_core_deriv_a. exact Hv.
  - unfold bs_core.
    assert (He : exp (- a) * exp a = 1) by (rewrite <- exp_plus, Rplus_opp_l; apply exp_0).
    transitivity (exp (- a) * norm_cdf (a / v - v / 2)
                  + (exp (- a) * exp a - exp (- a) * exp a) * norm_cdf (a / v + v / 2));
      [ring|]. ring.
Qed.

Lemma bs_core_fwd_increasing_a a1 a2 v :
  0 < v -> a1 < a2 -> bs_core_fwd a1 v < bs_core_fwd a2 v.
Proof.
  intros Hv Ha.
  apply (deriv_pos_lt (fun a => bs_core_fwd a v)
           (fun a => exp (- a) * norm_cdf (a / v - v / 2))); [exact Ha| |].
  - intros c _. apply bs_core_fwd_deriv_a. exact Hv.
  - intros c _. apply Rmult_lt_0_compat; [apply exp_pos|apply norm_cdf_pos].
Qed.

Lemma bs_core_increasing_v a v1 v2 :
  0 < v1 -> v1 < v2 -> bs_core a v1 < bs_core a v2.
Proof.
  intros Hv1 Hv.
  apply (deriv_pos_lt (fun v => bs_core a v)
           (fun v => norm_pdf (a / v - v / 2))); [exact Hv| |].
  - intros c Hc. apply bs_core_deriv_v. lra.
  - intros c _. apply norm_pdf_pos.
Qed.

Lemma call_price_fwd S K T r sigma :
  0 < S -> 0 < K -> 0 < T -> 0 < sigma ->
  Spec.call_price norm_cdf S K T r sigma
  = S * bs_core_fwd (ln (S / K) + r * T) (sigma * sqrt T).
Proof.
  intros HS HK HT Hs. rewrite call_price_core by assumption.
  rewrite (discount_spot S K T r HS HK). unfold bs_core_fwd. ring.
Qed.

Lemma put_price_fwd S K T r sigma :
  0 < S -> 0 < K -> 0 < T -> 0 < sigma ->
  Spec.put_price norm_cdf S K T r sigma
  = K * exp (- r * T) * bs_core_fwd (- (ln (S / K) + r * T)) (sigma * sqrt T).
Proof.
  intros HS HK HT Hs. rewrite put_price_core by assumption.
  rewrite (discount_spot S K T r HS HK). unfold bs_core_fwd.
  rewrite Ropp_involutive.
  assert (He : exp (- (ln (S / K) + r * T)) * exp (ln (S / K) + r * T) = 1)
    by (rewrite <- exp_plus, Rplus_opp_l; apply exp_0).
  transitivity (S * (exp (- (ln (S / K) + r * T)) * exp (ln (S / K) + r * T))
                * bs_core (- (ln (S / K) + r * T)) (sigma * sqrt T)); [|ring].
  rewrite He. ring.
Qed.

Lemma ln_ratio_increasing S1 S2 K :
  0 < S1 -> S1 < S2 -> 0 < K -> ln (S1 / K) < ln (S2 / K).
Proof.
  intros H1 H12 HK. apply ln_increasing.
  - apply Rdiv_lt_0_compat; assumption.
  - unfold Rdiv. apply Rmult_lt_compat_r; [apply Rinv_0_lt_compat; exact HK|exact H12].
Qed.

Lemma ln_ratio_decreasing S K1 K2 :
  0 < S -> 0 < K1 -> K1 < K2 -> ln (S / K2) < ln (S / K1).
Proof.
  intros HS H1 H12. apply ln_increasing.
  - apply Rdiv_lt_0_compat; lra.
  - unfold Rdiv. apply Rmult_lt_compat_l; [exact HS|].
    apply Rinv_lt_contravar; [apply Rmult_lt_0_compat; lra|exact H12].
Qed.

(** [price_is Phi S K T r sigma side p]: whatever was printed before, the
    call [black_scholes(S, K, T, r, sigma, side)] returns the real [p] and
    prints nothing. *)
Definition price_is (Phi : R -> R) (S K T r sigma : R) (side : string) (p : R) : Prop :=
  forall out : stdout,
    black_scholes Phi S K T r sigma side out = (Return (PyFloat (Finite p)), out).

Lemma price_is_call S K T r sigma :
  0 < S -> 0 < K -> 0 < T -> 0 < sigma ->
  price_is norm_cdf S K T r sigma "call" (Spec.call_price norm_cdf S K T r sigma).
Proof. intros HS HK HT Hs out. apply black_scholes_call_run; assumption. Qed.

Lemma price_is_put S K T r sigma :
  0 < S -> 0 < K -> 0 < T -> 0 < sigma ->
  price_is norm_cdf S K T r sigma "put" (Spec.put_price norm_cdf S K T r sigma).
Proof. intros HS HK HT Hs out. apply black_scholes_put_run; assumption. Qed.

Lemma spec_call_pos S K T r sigma :
  0 < S -> 0 < K -> 0 < T -> 0 < sigma ->
  0 < Spec.call_price norm_cdf S K T r sigma.
Proof.
  intros HS HK HT Hs. rewrite call_price_core by assumption.
  apply Rmult_lt_0_compat.
  - apply Rmult_lt_0_compat; [exact HK|apply exp_pos].
  - apply bs_core_pos, vol_sqrt_pos; assumption.
Qed.

Lemma spec_put_pos S K T r sigma :
  0 < S -> 0 < K -> 0 < T -> 0 < sigma ->
  0 < Spec.put_price norm_cdf S K T r sigma.
Proof.
  intros HS HK HT Hs. rewrite put_price_core by assumption.
  apply Rmult_lt_0_compat; [exact HS|].
  apply bs_core_pos, vol_sqrt_pos; assumption.
Qed.

(** X2. The volatility is not validated: on otherwise valid parameters a
    negative volatility [- sigma] is accepted, the call comes out as minus
    the put price at [sigma] and the put as minus the call price at
    [sigma], both negative. *)
Theorem negative_volatility_accepted (S K T r sigma : R) :
  0 < S -> 0 < K -> 0 < T -> 0 < sigma ->
  exists c p,
    price_is norm_cdf S K T r sigma "call" c /\
    price_is norm_cdf S K T r sigma "put" p /\
    price_is norm_cdf S K T r (- sigma) "call" (- p) /\
    price_is norm_cdf S K T r (- sigma) "put" (- c) /\
    - p < 0 /\ - c < 0.
Proof.
  intros HS HK HT Hs.
  exists (Spec.call_price norm_cdf S K T r sigma),
         (Spec.put_price norm_cdf S K T r sigma).
  assert (HSK : 0 < S / K) by (apply Rdiv_lt_0_compat; assumption).
  split; [apply price_is_call; assumption|].
  split; [apply price_is_put; assumption|].
  split.
  { intros out. rewrite black_scholes_call_run_gen by lra.
    do 3 f_equal. f_equal. unfold Spec.call_price, Spec.put_price.
    rewrite d1_neg_vol, d2_neg_vol by lra. ring. }
  split.
  { intros out. rewrite black_scholes_put_run_gen by lra.
    do 3 f_equal. f_equal. unfold Spec.call_price, Spec.put_price.
    rewrite d1_neg_vol, d2_neg_vol by lra. rewrite !Ropp_involutive. ring. }
  pose proof (spec_call_pos S K T r sigma HS HK HT Hs).
  pose proof (spec_put_pos S K T r sigma HS HK HT Hs).
  split; lra.
Qed.

Lemma negative_volatility_accepted_witness :
  (0 < 100 /\ 0 < 100 /\ 0 < 1 /\ 0 < 0.2) /\
  exists c p,
    price_is norm_cdf 100 100 1 0.05 0.2 "call" c /\
    price_is norm_cdf 100 100 1 0.05 0.2 "put" p /\
    price_is norm_cdf 100 100 1 0.05 (- (0.2)) "call" (- p) /\
    price_is norm_cdf 100 100 1 0.05 (- (0.2)) "put" (- c) /\
    - p < 0 /\ - c < 0.
Proof.
  split; [lra|].
  apply (negative_volatility_accepted 100 100 1 0.05 0.2); lra.
Defined.

(** X3. The price is homogeneous of degree one in spot and strike:
    multiplying both by [lam > 0] multiplies the price by [lam], for any
    [norm.cdf]. *)
Theorem price_homogeneous (Phi : R -> R) (lam S K T r sigma : R) (side : string) :
  0 < lam -> 0 < S -> 0 < K -> 0 < T -> 0 < sigma ->
  side = "call" \/ side = "put" ->
  exists p,
    price_is Phi S K T r sigma side p /\
    price_is Phi (lam * S) (lam * K) T r sigma side (lam * p).
Proof.
  intros Hl HS HK HT Hs Hside.
  assert (HlS : 0 < lam * S) by (apply Rmult_lt_0_compat; assumption).
  assert (HlK : 0 < lam * K) by (apply Rmult_lt_0_compat; assumption).
  destruct Hside as [-> | ->].
  - exists (Spec.call_price Phi S K T r sigma). split.
    + intros out. apply black_scholes_call_run; assumption.
    + intros out. rewrite black_scholes_call_run by assumption.
      do 3 f_equal. f_equal. unfold Spec.call_price, Spec.d2.
      rewrite !d1_scale by lra. ring.
  - exists (Spec.put_price Phi S K T r sigma). split.
    + intros out. apply black_scholes_put_run; assumption.
    + intros out. rewrite black_scholes_put_run by assumption.
      do 3 f_equal. f_equal. unfold Spec.put_price, Spec.d2.
      rewrite !d1_scale by lra. ring.
Qed.

Lemma price_homogeneous_witness :
  (0 < 2 /\ 0 < 100 /\ 0 < 100 /\ 0 < 1 /\ 0 < 0.2) /\
  exists p,
    price_is norm_cdf 100 100 1 0.05 0.2 "put" p /\
    price_is norm_cdf (2 * 100) (2 * 100) 1 0.05 0.2 "put" (2 * p).
Proof.
  split; [lra|].
  apply (price_homogeneous norm_cdf 2 100 100 1 0.05 0.2 "put"); try lra.
  right. reflexivity.
Defined.

(** X4. No-arbitrage bounds: on valid parameters the call price lies
    strictly between [max (S - K exp (- r T)) 0] and [S], and the put price
    strictly between [max (K exp (- r T) - S) 0] and [K exp (- r T)]. *)
Theorem price_bounds (S K T r sigma : R) :
  0 < S -> 0 < K -> 0 < T -> 0 < sigma ->
  exists c p,
    price_is norm_cdf S K T r sigma "call" c /\
    price_is norm_cdf S K T r sigma "put" p /\
    Rmax (S - K * exp (- r * T)) 0 < c < S /\
    Rmax (K * exp (- r * T) - S) 0 < p < K * exp (- r * T).
Proof.
  intros HS HK HT Hs.
  exists (Spec.call_price norm_cdf S K T r sigma),
         (Spec.put_price norm_cdf S K T r sigma).
  split; [apply price_is_call; assumption|].
  split; [apply price_is_put; assumption|].
  pose proof (spec_call_pos S K T r sigma HS HK HT Hs) as Hc.
  pose proof (spec_put_pos S K T r sigma HS HK HT Hs) as Hp.
  pose proof (put_call_parity_real S K T r sigma) as Hpar.
  assert (Hd : 0 < K * exp (- r * T))
    by (apply Rmult_lt_0_compat; [exact HK|apply exp_pos]).
  assert (HcS : Spec.call_price norm_cdf S K T r sigma < S).
  { unfold Spec.call_price.
    pose proof (norm_cdf_lt_1 (Spec.d1 S K T r sigma)).
    pose proof (norm_cdf_pos (Spec.d2 S K T r sigma)).
    assert (S * norm_cdf (Spec.d1 S K T r sigma) < S * 1)
      by (apply Rmult_lt_compat_l; assumption).
    assert (0 < K * exp (- r * T) * norm_cdf (Spec.d2 S K T r sigma))
      by (apply Rmult_lt_0_compat; assumption).
    lra. }
  split; split.
  - apply Rmax_lub_lt; lra.
  - exact HcS.
  - apply Rmax_lub_lt; lra.
  - lra.
Qed.

Lemma price_bounds_witness :
  (0 < 100 /\ 0 < 100 /\ 0 < 1 /\ 0 < 0.2) /\
  exists c p,
    price_is norm_cdf 100 100 1 0.05 0.2 "call" c /\
    price_is norm_cdf 100 100 1 0.05 0.2 "put" p /\
    Rmax (100 - 100 * exp (- (0.05) * 1)) 0 < c < 100 /\
    Rmax (100 * exp (- (0.05) * 1) - 100) 0 < p < 100 * exp (- (0.05) * 1).
Proof.
  split; [lra|].
  apply (price_bounds 100 100 1 0.05 0.2); lra.
Defined.

(** X5. Sensitivity to the spot: the call price increases strictly with the
    spot, by less than the spot does, and the put price decreases
    strictly. *)
Theorem price_monotone_in_spot (S1 S2 K T r sigma : R) :
  0 < S1 -> S1 < S2 -> 0 < K -> 0 < T -> 0 < sigma ->
  exists c1 c2 p1 p2,
    price_is norm_cdf S1 K T r sigma "call" c1 /\
    price_is norm_cdf S2 K T r sigma "call" c2 /\
    price_is norm_cdf S1 K T r sigma "put" p1 /\
    price_is norm_cdf S2 K T r sigma "put" p2 /\
    c1 < c2 /\ c2 - c1 < S2 - S1 /\ p2 < p1.
Proof.
  intros HS1 HS HK HT Hs.
  assert (HS2 : 0 < S2) by lra.
  exists (Spec.call_price norm_cdf S1 K T r sigma),
         (Spec.call_price norm_cdf S2 K T r sigma),
         (Spec.put_price norm_cdf S1 K T r sigma),
         (Spec.put_price norm_cdf S2 K T r sigma).
  split; [apply price_is_call; assumption|].
  split; [apply price_is_call; assumption|].
  split; [apply price_is_put; assumption|].
  split; [apply price_is_put; assumption|].
  pose proof (vol_sqrt_pos T sigma HT Hs) as Hv.
  pose proof (ln_ratio_increasing S1 S2 K HS1 HS HK) as Hln.
  assert (Hd : 0 < K * exp (- r * T))
    by (apply Rmult_lt_0_compat; [exact HK|apply exp_pos]).
  assert (Hc : Spec.call_price norm_cdf S1 K T r sigma
               < Spec.call_price norm_cdf S2 K T r sigma).
  { rewrite !call_price_core by assumption.
    apply Rmult_lt_compat_l; [exact Hd|].
    apply bs_core_increasing_a; [exact Hv|lra]. }
  assert (Hp : Spec.put_price norm_cdf S2 K T r sigma
               < Spec.put_price norm_cdf S1 K T r sigma).
  { rewrite !put_price_fwd by assumption.
    apply Rmult_lt_compat_l; [exact Hd|].
    apply bs_core_fwd_increasing_a; [exact Hv|lra]. }
  pose proof (put_call_parity_real S1 K T r sigma).
  pose proof (put_call_parity_real S2 K T r sigma).
  repeat split; lra.
Qed.

Lemma price_monotone_in_spot_witness :
  (0 < 90 /\ 90 < 110 /\ 0 < 100 /\ 0 < 1 /\ 0 < 0.2) /\
  exists c1 c2 p1 p2,
    price_is norm_cdf 90 100 1 0.05 0.2 "call" c1 /\
    price_is norm_cdf 110 100 1 0.05 0.2 "call" c2 /\
    price_is norm_cdf 90 100 1 0.05 0.2 "put" p1 /\
    price_is norm_cdf 110 100 1 0.05 0.2 "put" p2 /\
    c1 < c2 /\ c2 - c1 < 110 - 90 /\ p2 < p1.
Proof.
  split; [lra|].
  apply (price_monotone_in_spot 90 110 100 1 0.05 0.2); lra.
Defined.

(** X6. Sensitivity to the strike: the call price decreases strictly as the
    strike increases, by less than the discounted strike increases, and the
    put price increases strictly. *)
Theorem price_monotone_in_strike (S K1 K2 T r sigma : R) :
  0 < S -> 0 < K1 -> K1 < K2 -> 0 < T -> 0 < sigma ->
  exists c1 c2 p1 p2,
    price_is norm_cdf S K1 T r sigma "call" c1 /\
    price_is norm_cdf S K2 T r sigma "call" c2 /\
    price_is norm_cdf S K1 T r sigma "put" p1 /\
    price_is norm_cdf S K2 T r sigma "put" p2 /\
    c2 < c1 /\ c1 - c2 < (K2 - K1) * exp (- r * T) /\ p1 < p2.
Proof.
  intros HS HK1 HK HT Hs.
  assert (HK2 : 0 < K2) by lra.
  exists (Spec.call_price norm_cdf S K1 T r sigma),
         (Spec.call_price norm_cdf S K2 T r sigma),
         (Spec.put_price norm_cdf S K1 T r sigma),
         (Spec.put_price norm_cdf S K2 T r sigma).
  split; [apply price_is_call; assumption|].
  split; [apply price_is_call; assumption|].
  split; [apply price_is_put; assumption|].
  split; [apply price_is_put; assumption|].
  pose proof (vol_sqrt_pos T sigma HT Hs) as Hv.
  pose proof (ln_ratio_decreasing S K1 K2 HS HK1 HK) as Hln.
  assert (Hc : Spec.call_price norm_cdf S K2 T r sigma
               < Spec.call_price norm_cdf S K1 T r sigma).
  { rewrite !call_price_fwd by assumption.
    apply Rmult_lt_compat_l; [exact HS|].
    apply bs_core_fwd_increasing_a; [exact Hv|lra]. }
  assert (Hp : Spec.put_price norm_cdf S K1 T r sigma
               < Spec.put_price norm_cdf S K2 T r sigma).
  { rewrite !put_price_core by assumption.
    apply Rmult_lt_compat_l; [exact HS|].
    apply bs_core_increasing_a; [exact Hv|lra]. }
  pose proof (put_call_parity_real S K1 T r sigma).
  pose proof (put_call_parity_real S K2 T r sigma).
  repeat split; lra.
Qed.

Lemma price_monotone_in_strike_witness :
  (0 < 100 /\ 0 < 90 /\ 90 < 110 /\ 0 < 1 /\ 0 < 0.2) /\
  exists c1 c2 p1 p2,
    price_is norm_cdf 100 90 1 0.05 0.2 "call" c1 /\
    price_is norm_cdf 100 110 1 0.05 0.2 "call" c2 /\
    price_is norm_cdf 100 90 1 0.05 0.2 "put" p1 /\
    price_is norm_cdf 100 110 1 0.05 0.2 "put" p2 /\
    c2 < c1 /\ c1 - c2 < (110 - 90) * exp (- (0.05) * 1) /\ p1 < p2.
Proof.
  split; [lra|].
  apply (price_monotone_in_strike 100 90 110 1 0.05 0.2); lra.
Defined.

(** X7. With a non-negative rate the call price increases strictly with the
    maturity. *)
Theorem call_monotone_in_maturity (S K T1 T2 r sigma : R) :
  0 < S -> 0 < K -> 0 < T1 -> T1 < T2 -> 0 <= r -> 0 < sigma ->
  exists c1 c2,
    price_is norm_cdf S K T1 r sigma "call" c1 /\
    price_is norm_cdf S K T2 r sigma "call" c2 /\
    c1 < c2.
Proof.
  intros HS HK HT1 HT Hr Hs.
  assert (HT2 : 0 < T2) by lra.
  exists (Spec.call_price norm_cdf S K T1 r sigma),
         (Spec.call_price norm_cdf S K T2 r sigma).
  split; [apply price_is_call; assumption|].
  split; [apply price_is_call; assumption|].
  rewrite !call_price_fwd by assumption.
  apply Rmult_lt_compat_l; [exact HS|].
  pose proof (vol_sqrt_pos T1 sigma HT1 Hs) as Hv1.
  assert (Hv : sigma * sqrt T1 < sigma * sqrt T2).
  { apply Rmult_lt_compat_l; [exact Hs|]. apply sqrt_lt_1; lra. }
  assert (Ha : ln (S / K) + r * T1 <= ln (S / K) + r * T2).
  { assert (r * T1 <= r * T2) by (apply Rmult_le_compat_l; lra). lra. }
  apply Rlt_le_trans
    with (bs_core_fwd (ln (S / K) + r * T1) (sigma * sqrt T2)).
  - unfold bs_core_fwd. apply Rmult_lt_compat_l; [apply exp_pos|].
    apply bs_core_increasing_v; assumption.
  - destruct Ha as [Ha|Ha].
    + left. apply bs_core_fwd_increasing_a; [lra|exact Ha].
    + rewrite Ha. right. reflexivity.
Qed.

Lemma call_monotone_in_maturity_witness :
  (0 < 100 /\ 0 < 100 /\ 0 < 0.1 /\ 0.1 < 2 /\ 0 <= 0.05 /\ 0 < 0.2) /\
  exists c1 c2,
    price_is norm_cdf 100 100 0.1 0.05 0.2 "call" c1 /\
    price_is norm_cdf 100 100 2 0.05 0.2 "call" c2 /\
    c1 < c2.
Proof.
  split; [lra|].
  apply (call_monotone_in_maturity 100 100 0.1 2 0.05 0.2); lra.
Defined.

(** X8. Sensitivity to the volatility: call and put prices both increase
    strictly with the volatility, and by the same amount. *)
Theorem price_monotone_in_volatility (S K T r v1 v2 : R) :
  0 < S -> 0 < K -> 0 < T -> 0 < v1 -> v1 < v2 ->
  exists c1 c2 p1 p2,
    price_is norm_cdf S K T r v1 "call" c1 /\
    price_is norm_cdf S K T r v2 "call" c2 /\
    price_is norm_cdf S K T r v1 "put" p1 /\
    price_is norm_cdf S K T r v2 "put" p2 /\
    c1 < c2 /\ p1 < p2 /\ p2 - p1 = c2 - c1.
Proof.
  intros HS HK HT Hv1 Hv.
  assert (Hv2 : 0 < v2) by lra.
  exists (Spec.call_price norm_cdf S K T r v1),
         (Spec.call_price norm_cdf S K T r v2),
         (Spec.put_price norm_cdf S K T r v1),
         (Spec.put_price norm_cdf S K T r v2).
  split; [apply price_is_call; assumption|].
  split; [apply price_is_call; assumption|].
  split; [apply price_is_put; assumption|].
  split; [apply price_is_put; assumption|].
  assert (Hc : Spec.call_price norm_cdf S K T r v1
               < Spec.call_price norm_cdf S K T r v2).
  { rewrite !call_price_core by assumption.
    apply Rmult_lt_compat_l.
    - apply Rmult_lt_0_compat; [exact HK|apply exp_pos].
    - pose proof (sqrt_lt_R0 T HT).
      apply bs_core_increasing_v.
      + apply Rmult_lt_0_compat; assumption.
      + apply Rmult_lt_compat_r; assumption. }
  pose proof (put_call_parity_real S K T r v1).
  pose proof (put_call_parity_real S K T r v2).
  repeat split; lra.
Qed.

Lemma price_monotone_in_volatility_witness :
  (0 < 100 /\ 0 < 100 /\ 0 < 1 /\ 0 < 0.1 /\ 0.1 < 0.5) /\
  exists c1 c2 p1 p2,
    price_is norm_cdf 100 100 1 0.05 0.1 "call" c1 /\
    price_is norm_cdf 100 100 1 0.05 0.5 "call" c2 /\
    price_is norm_cdf 100 100 1 0.05 0.1 "put" p1 /\
    price_is norm_cdf 100 100 1 0.05 0.5 "put" p2 /\
    c1 < c2 /\ p1 < p2 /\ p2 - p1 = c2 - c1.
Proof.
  split; [lra|].
  apply (price_monotone_in_volatility 100 100 1 0.05 0.1 0.5); lra.
Defined.

(** X9. Sensitivity to the rate: the call price increases strictly with the
    rate and the put price decreases strictly. *)
Theorem price_monotone_in_rate (S K T r1 r2 sigma : R) :
  0 < S -> 0 < K -> 0 < T -> r1 < r2 -> 0 < sigma ->
  exists c1 c2 p1 p2,
    price_is norm_cdf S K T r1 sigma "call" c1 /\
    price_is norm_cdf S K T r2 sigma "call" c2 /\
    price_is norm_cdf S K T r1 sigma "put" p1 /\
    price_is norm_cdf S K T r2 sigma "put" p2 /\
    c1 < c2 /\ p2 < p1.
Proof.
  intros HS HK HT Hr Hs.
  exists (Spec.call_price norm_cdf S K T r1 sigma),
         (Spec.call_price norm_cdf S K T r2 sigma),
         (Spec.put_price norm_cdf S K T r1 sigma),
         (Spec.put_price norm_cdf S K T r2 sigma).
  split; [apply price_is_call; assumption|].
  split; [apply price_is_call; assumption|].
  split; [apply price_is_put; assumption|].
  split; [apply price_is_put; assumption|].
  pose proof (vol_sqrt_pos T sigma HT Hs) as Hv.
  assert (Ha : r1 * T < r2 * T) by (apply Rmult_lt_compat_r; assumption).
  split.
  - rewrite !call_price_fwd by assumption.
    apply Rmult_lt_compat_l; [exact HS|].
    apply bs_core_fwd_increasing_a; [exact Hv|lra].
  - rewrite !put_price_core by assumption.
    apply Rmult_lt_compat_l; [exact HS|].
    apply bs_core_increasing_a; [exact Hv|lra].
Qed.

Lemma price_monotone_in_rate_witness :
  (0 < 100 /\ 0 < 100 /\ 0 < 1 /\ 0.01 < 0.05 /\ 0 < 0.2) /\
  exists c1 c2 p1 p2,
    price_is norm_cdf 100 100 1 0.01 0.2 "call" c1 /\
    price_is norm_cdf 100 100 1 0.05 0.2 "call" c2 /\
    price_is norm_cdf 100 100 1 0.01 0.2 "put" p1 /\
    price_is norm_cdf 100 100 1 0.05 0.2 "put" p2 /\
    c1 < c2 /\ p2 < p1.
Proof.
  split; [lra|].
  apply (price_monotone_in_rate 100 100 1 0.01 0.05 0.2); lra.
Defined.

(** X1. The outcomes of a call on floats, where [np] and [norm] are bound
    to the libraries: [ZeroDivisionError] exactly when spot and strike
    are Python floats and the strike is a zero of either sign, whatever
    the side; otherwise [OverflowError] exactly when the volatility is a
    finite Python float of magnitude at least [2^512], whatever the
    side; otherwise the [ValueError] exactly when the side is neither
    ["call"] nor ["put"]; and a float, possibly [nan] or an infinity, in
    all other cases.  An [np.float64] strike or volatility never
    raises. *)
Theorem black_scholes_outcomes (cdf : R -> R) (S K T r sigma : num)
  (side : string) (w : world) :
  lookup (globals w) "np" = Some (BLibrary "numpy") ->
  lookup (globals w) "norm" = Some (BLibrary "scipy.stats.norm") ->
  (fst (black_scholes_float cdf S K T r sigma side w) = Fails (Raised ZeroDivisionError)
   <-> zero_divisor S K) /\
  (fst (black_scholes_float cdf S K T r sigma side w) = Fails (Raised OverflowError)
   <-> ~ zero_divisor S K /\ square_overflows sigma) /\
  (fst (black_scholes_float cdf S K T r sigma side w)
   = Fails (Raised (ValueError "Option type must be 'call' or 'put'."))
   <-> ~ zero_divisor S K /\ ~ square_overflows sigma /\
       side <> "call" /\ side <> "put") /\
  ((exists p, fst (black_scholes_float cdf S K T r sigma side w) = Value p)
   <-> ~ zero_divisor S K /\ ~ square_overflows sigma /\
       (side = "call" \/ side = "put")).
Proof.
  intros Hnp Hnorm.
  pose proof (black_scholes_float_outcome cdf S K T r sigma side (globals w) Hnp)
    as Hout.
  pose proof (division_fails_iff S K) as Hdiv.
  pose proof (power_overflows_iff sigma) as Hpow.
  assert (Hside : ((side =? "call") || (side =? "put"))%string = true
                  <-> side = "call" \/ side = "put").
  { rewrite Bool.orb_true_iff, !String.eqb_eq. reflexivity. }
  destruct (division_fails S K).
  { assert (Hz : zero_divisor S K) by (apply Hdiv; reflexivity).
    rewrite (fails_at _ _ _ Hout).
    split; [split; [intros _; exact Hz|reflexivity]|].
    split; [split; [discriminate|intros [H _]; contradiction]|].
    split; [split; [discriminate|intros [H _]; contradiction]|].
    split; [intros [p H]; discriminate H|intros [H _]; contradiction]. }
  assert (Hz : ~ zero_divisor S K) by (intros H; apply Hdiv in H; discriminate H).
  destruct (power_overflows sigma).
  { assert (Ho : square_overflows sigma) by (apply Hpow; reflexivity).
    rewrite (fails_at _ _ _ Hout).
    split; [split; [discriminate|intros H; contradiction]|].
    split; [split; [intros _; split; assumption|reflexivity]|].
    split; [split; [discriminate|intros (_ & H & _); contradiction]|].
    split; [intros [p H]; discriminate H|intros (_ & H & _); contradiction]. }
  assert (Ho : ~ square_overflows sigma) by (intros H; apply Hpow in H; discriminate H).
  destruct ((side =? "call") || (side =? "put"))%string.
  { assert (Hv : side = "call" \/ side = "put") by (apply Hside; reflexivity).
    destruct (returns_at _ _ _ (Hout Hnorm)) as [p Hp]. rewrite Hp.
    split; [split; [discriminate|intros H; contradiction]|].
    split; [split; [discriminate|intros [_ H]; contradiction]|].
    split; [split; [discriminate|]|].
    - intros (_ & _ & Hc & Hp'). destruct Hv; contradiction.
    - split; [intros _; repeat split; assumption|intros _; exists p; reflexivity]. }
  assert (Hv : ~ (side = "call" \/ side = "put"))
    by (intros H; apply Hside in H; discriminate H).
  rewrite (fails_at _ _ _ Hout).
  split; [split; [discriminate|intros H; contradiction]|].
  split; [split; [discriminate|intros [_ H]; contradiction]|].
  split; [split; [intros _|reflexivity]|].
  - repeat split; try assumption; intros H; apply Hv; [left|right]; exact H.
  - split; [intros [p H]; discriminate H|intros (_ & _ & H); contradiction].
Qed.

Lemma black_scholes_outcomes_witness :
  (lookup (globals imported) "np" = Some (BLibrary "numpy") /\
   lookup (globals imported) "norm" = Some (BLibrary "scipy.stats.norm")) /\
  fst (black_scholes_float norm_cdf (Py.float 100) (Py.float 100) (Py.float 1)
         (Py.float 0.05) (Py.float (2 ^ 512)) "straddle" imported)
  = Fails (Raised OverflowError).
Proof.
  split; [split; reflexivity|].
  apply (black_scholes_outcomes norm_cdf (Py.float 100) (Py.float 100) (Py.float 1)
           (Py.float 0.05) (Py.float (2 ^ 512)) "straddle" imported eq_refl eq_refl).
  split.
  - apply float_not_zero_divisor. lra.
  - split; [reflexivity|]. exists (2 ^ 512). split; [reflexivity|].
    apply Rle_abs.
Defined.

(** ** The sweeps *)

Lemma comprehension_returns (f : R -> stdout -> result pyval * stdout)
  (g : R -> pyval) (xs : list R) :
  (forall x, In x xs -> forall out, f x out = (Return (g x), out)) ->
  forall out, comprehension f xs out = (Return (map g xs), out).
Proof.
  induction xs as [|x xs IH]; intros Hf out.
  - reflexivity.
  - simpl. rewrite (Hf x (or_introl eq_refl)).
    rewrite IH by (intros y Hy; apply Hf; right; exact Hy).
    reflexivity.
Qed.

Lemma linspace_length start stop num : length (linspace start stop num) = num.
Proof. unfold linspace. rewrite length_map, length_seq. reflexivity. Qed.

Lemma linspace_nth start stop num i d :
  (i < num)%nat ->
  nth i (linspace start stop num) d
  = start + INR i * ((stop - start) / INR (num - 1)).
Proof.
  intros Hi. unfold linspace.
  rewrite (nth_indep _ d (start + INR 0 * ((stop - start) / INR (num - 1))))
    by (rewrite length_map, length_seq; exact Hi).
  rewrite (map_nth (fun i => start + INR i * ((stop - start) / INR (num - 1)))).
  rewrite seq_nth by exact Hi. reflexivity.
Qed.

Lemma linspace_In start stop num x :
  In x (linspace start stop num) ->
  exists i, (i < num)%nat /\ x = start + INR i * ((stop - start) / INR (num - 1)).
Proof.
  unfold linspace. intros H. apply in_map_iff in H.
  destruct H as [i [Hx Hi]]. apply in_seq in Hi.
  exists i. split; [lia|symmetry; exact Hx].
Qed.

Lemma linspace_lower start stop num x :
  start <= stop -> In x (linspace start stop num) -> start <= x.
Proof.
  intros Hle Hx. destruct (linspace_In _ _ _ _ Hx) as [i [Hi ->]].
  assert (0 <= INR i * ((stop - start) / INR (num - 1))); [|lra].
  apply Rmult_le_pos; [apply pos_INR|].
  destruct (Nat.eq_dec (num - 1) 0) as [E|E].
  - rewrite E. simpl. unfold Rdiv. rewrite Rinv_0. lra.
  - apply Rmult_le_pos; [lra|]. left. apply Rinv_0_lt_compat, lt_0_INR. lia.
Qed.

Lemma linspace_nth_lt start stop num i j d :
  start < stop -> (i < j)%nat -> (j < num)%nat ->
  nth i (linspace start stop num) d < nth j (linspace start stop num) d.
Proof.
  intros Hlt Hij Hj.
  rewrite !linspace_nth by lia.
  assert (Hstep : 0 < (stop - start) / INR (num - 1)).
  { apply Rdiv_lt_0_compat; [lra|]. apply lt_0_INR. lia. }
  apply lt_INR in Hij.
  assert (INR i * ((stop - start) / INR (num - 1))
          < INR j * ((stop - start) / INR (num - 1)))
    by (apply Rmult_lt_compat_r; assumption).
  lra.
Qed.

Lemma linspace_last start stop num d :
  (2 <= num)%nat -> nth (num - 1) (linspace start stop num) d = stop.
Proof.
  intros Hn. rewrite linspace_nth by lia.
  assert (0 < INR (num - 1)) by (apply lt_0_INR; lia).
  field. lra.
Qed.

Lemma linspace_first start stop num d :
  (1 <= num)%nat -> nth 0 (linspace start stop num) d = start.
Proof. intros Hn. rewrite linspace_nth by lia. simpl. ring. Qed.

(** ** The two sweeps *)

Definition floats (ps : list R) : list pyval := map (fun p => PyFloat (Finite p)) ps.

Lemma floats_length ps : length (floats ps) = length ps.
Proof. apply length_map. Qed.

Lemma map_const_repeat {A B} (v : B) (xs : list A) :
  map (fun _ => v) xs = repeat v (length xs).
Proof. induction xs as [|x xs IH]; simpl; [reflexivity|rewrite IH; reflexivity]. Qed.

Lemma INR_99 : INR 99 = 99.
Proof. rewrite INR_IZR_INZ. reflexivity. Qed.

(** The volatilities and the maturities of the two sweeps. *)
Definition sweep_sigma (i : nat) : R := 0.1 + INR i * ((0.5 - 0.1) / 99).
Definition sweep_time (i : nat) : R := 0.1 + INR i * ((2 - 0.1) / 99).

Lemma sweep_sigma_nth i d :
  (i < 100)%nat -> nth i (linspace 0.1 0.5 100) d = sweep_sigma i.
Proof.
  intros Hi. rewrite linspace_nth by exact Hi.
  replace (100 - 1)%nat with 99%nat by reflexivity. rewrite INR_99. reflexivity.
Qed.

Lemma sweep_time_nth i d :
  (i < 100)%nat -> nth i (linspace 0.1 2 100) d = sweep_time i.
Proof.
  intros Hi. rewrite linspace_nth by exact Hi.
  replace (100 - 1)%nat with 99%nat by reflexivity. rewrite INR_99. reflexivity.
Qed.

Lemma sweep_sigma_pos i : 0 < sweep_sigma i.
Proof.
  unfold sweep_sigma. pose proof (pos_INR i).
  assert (0 <= INR i * ((0.5 - 0.1) / 99)) by (apply Rmult_le_pos; lra). lra.
Qed.

Lemma sweep_time_pos i : 0 < sweep_time i.
Proof.
  unfold sweep_time. pose proof (pos_INR i).
  assert (0 <= INR i * ((2 - 0.1) / 99)) by (apply Rmult_le_pos; lra). lra.
Qed.

Lemma sweep_sigma_lt i j : (i < j)%nat -> sweep_sigma i < sweep_sigma j.
Proof.
  intros Hij. apply lt_INR in Hij. unfold sweep_sigma.
  assert (INR i * ((0.5 - 0.1) / 99) < INR j * ((0.5 - 0.1) / 99))
    by (apply Rmult_lt_compat_r; lra).
  lra.
Qed.

Lemma sweep_time_lt i j : (i < j)%nat -> sweep_time i < sweep_time j.
Proof.
  intros Hij. apply lt_INR in Hij. unfold sweep_time.
  assert (INR i * ((2 - 0.1) / 99) < INR j * ((2 - 0.1) / 99))
    by (apply Rmult_lt_compat_r; lra).
  lra.
Qed.

Lemma nth_map_lt {A B} (f : A -> B) (xs : list A) (i : nat) (da : A) (db : B) :
  (i < length xs)%nat -> nth i (map f xs) db = f (nth i xs da).
Proof.
  intros Hi. rewrite (nth_indep _ db (f da)) by (rewrite length_map; exact Hi).
  apply map_nth.
Qed.

Lemma volatility_sweep_run S K T r out :
  0 < S -> 0 < K -> 0 < T ->
  volatility_sweep (black_scholes norm_cdf) S K T r out
  = (Return (floats (map (Spec.call_price norm_cdf S K T r) (linspace 0.1 0.5 100))),
     out).
Proof.
  intros HS HK HT. unfold volatility_sweep, floats. rewrite map_map.
  apply (comprehension_returns
           (fun s => black_scholes norm_cdf S K T r s "call")
           (fun s => PyFloat (Finite (Spec.call_price norm_cdf S K T r s)))).
  intros s Hs out'. apply black_scholes_call_run; try assumption.
  pose proof (linspace_lower 0.1 0.5 100 s ltac:(lra) Hs). lra.
Qed.

(** X10. With the pricer bound to the name and valid spot, strike and
    maturity, the volatility sweep returns exactly 100 prices and prints
    nothing; the [i]-th is the call price at the volatility
    [0.1 + i * 0.4 / 99], from [0.1] to [0.5], and the prices increase
    strictly along the list. *)
Theorem volatility_sweep_sorted (S K T r : R) (out : stdout) :
  0 < S -> 0 < K -> 0 < T ->
  exists ps : list R,
    volatility_sweep (black_scholes norm_cdf) S K T r out = (Return (floats ps), out) /\
    length ps = 100%nat /\
    (forall i, (i < 100)%nat ->
       price_is norm_cdf S K T r (sweep_sigma i) "call" (nth i ps 0)) /\
    sweep_sigma 0 = 0.1 /\ sweep_sigma 99 = 0.5 /\
    (forall i j, (i < j)%nat -> (j < 100)%nat -> nth i ps 0 < nth j ps 0).
Proof.
  intros HS HK HT.
  exists (map (Spec.call_price norm_cdf S K T r) (linspace 0.1 0.5 100)).
  assert (Hnth : forall i, (i < 100)%nat ->
            nth i (map (Spec.call_price norm_cdf S K T r) (linspace 0.1 0.5 100)) 0
            = Spec.call_price norm_cdf S K T r (sweep_sigma i)).
  { intros i Hi. rewrite (nth_map_lt _ _ _ 0) by (rewrite linspace_length; exact Hi).
    rewrite sweep_sigma_nth by exact Hi. reflexivity. }
  split; [apply volatility_sweep_run; assumption|].
  split; [rewrite length_map; apply linspace_length|].
  split.
  { intros i Hi. rewrite Hnth by exact Hi.
    apply price_is_call; try assumption. apply sweep_sigma_pos. }
  split; [unfold sweep_sigma; simpl; lra|].
  split; [unfold sweep_sigma; rewrite INR_99; lra|].
  intros i j Hij Hj. rewrite !Hnth by lia.
  rewrite !call_price_core by (try assumption; apply sweep_sigma_pos).
  apply Rmult_lt_compat_l.
  - apply Rmult_lt_0_compat; [exact HK|apply exp_pos].
  - pose proof (sqrt_lt_R0 T HT).
    apply bs_core_increasing_v.
    + apply Rmult_lt_0_compat; [apply sweep_sigma_pos|assumption].
    + apply Rmult_lt_compat_r; [assumption|apply sweep_sigma_lt; exact Hij].
Qed.

Lemma volatility_sweep_sorted_witness :
  (0 < 100 /\ 0 < 100 /\ 0 < 1) /\
  exists ps : list R,
    volatility_sweep (black_scholes norm_cdf) 100 100 1 0.05 [] = (Return (floats ps), []) /\
    length ps = 100%nat /\
    (forall i, (i < 100)%nat ->
       price_is norm_cdf 100 100 1 0.05 (sweep_sigma i) "call" (nth i ps 0)) /\
    sweep_sigma 0 = 0.1 /\ sweep_sigma 99 = 0.5 /\
    (forall i j, (i < j)%nat -> (j < 100)%nat -> nth i ps 0 < nth j ps 0).
Proof.
  split; [lra|].
  apply (volatility_sweep_sorted 100 100 1 0.05 []); lra.
Defined.

(** X11. Once the example cell has rebound the name [black_scholes], the
    volatility sweep is flat: whatever [S], [K], [T] and [r] are (a zero
    strike included), it returns 100 copies of the call price at the
    example cell's fixed parameters. *)
Theorem volatility_sweep_flat_after_example (Phi : R -> R) (fmt : npfloat -> string)
  (self : pyfun) (S K T r : R) (out : stdout) :
  exists p,
    price_is Phi 100 100 1 0.05 0.2 "call" p /\
    volatility_sweep (black_scholes_example Phi fmt self) S K T r out
    = (Return (repeat (PyFloat (Finite p)) 100), out).
Proof.
  exists (Spec.call_price Phi 100 100 1 0.05 0.2). split.
  - intros out'. apply black_scholes_call_run; lra.
  - unfold volatility_sweep.
    rewrite (comprehension_returns
               (fun s => black_scholes_example Phi fmt self S K T r s "call")
               (fun _ => PyFloat (Finite (Spec.call_price Phi 100 100 1 0.05 0.2)))).
    + rewrite map_const_repeat, linspace_length. reflexivity.
    + intros s _ out'. rewrite example_is_fixed_call.
      apply black_scholes_call_run; lra.
Qed.

Lemma maturity_sweep_run S K r sigma out :
  0 < S -> 0 < K -> 0 < sigma ->
  maturity_sweep (black_scholes norm_cdf) S K r sigma out
  = (Return
       (floats (map (fun t => Spec.call_price norm_cdf S K t r sigma) (linspace 0.1 2 100)),
        floats (map (fun t => Spec.put_price norm_cdf S K t r sigma) (linspace 0.1 2 100))),
     out).
Proof.
  intros HS HK Hs. unfold maturity_sweep, floats. rewrite !map_map.
  rewrite (comprehension_returns
             (fun t => black_scholes norm_cdf S K t r sigma "call")
             (fun t => PyFloat (Finite (Spec.call_price norm_cdf S K t r sigma)))).
  - rewrite (comprehension_returns
               (fun t => black_scholes norm_cdf S K t r sigma "put")
               (fun t => PyFloat (Finite (Spec.put_price norm_cdf S K t r sigma)))).
    + reflexivity.
    + intros t Ht out'. apply black_scholes_put_run; try assumption.
      pose proof (linspace_lower 0.1 2 100 t ltac:(lra) Ht). lra.
  - intros t Ht out'. apply black_scholes_call_run; try assumption.
    pose proof (linspace_lower 0.1 2 100 t ltac:(lra) Ht). lra.
Qed.

(** X12. With the pricer bound to the name and valid spot, strike and
    volatility, the maturity sweep returns 100 call prices and 100 put
    prices and prints nothing; the [i]-th ones are the prices at the
    maturity [0.1 + i * 1.9 / 99], from [0.1] to [2], they satisfy put-call
    parity entry by entry, and with a non-negative rate the call prices
    increase strictly along the list. *)
Theorem maturity_sweep_parity (S K r sigma : R) (out : stdout) :
  0 < S -> 0 < K -> 0 < sigma ->
  exists cs ps : list R,
    maturity_sweep (black_scholes norm_cdf) S K r sigma out
    = (Return (floats cs, floats ps), out) /\
    length cs = 100%nat /\ length ps = 100%nat /\
    sweep_time 0 = 0.1 /\ sweep_time 99 = 2 /\
    (forall i, (i < 100)%nat ->
       price_is norm_cdf S K (sweep_time i) r sigma "call" (nth i cs 0) /\
       price_is norm_cdf S K (sweep_time i) r sigma "put" (nth i ps 0) /\
       nth i cs 0 - nth i ps 0 = S - K * exp (- r * sweep_time i)) /\
    (0 <= r ->
     forall i j, (i < j)%nat -> (j < 100)%nat -> nth i cs 0 < nth j cs 0).
Proof.
  intros HS HK Hs.
  exists (map (fun t => Spec.call_price norm_cdf S K t r sigma) (linspace 0.1 2 100)),
         (map (fun t => Spec.put_price norm_cdf S K t r sigma) (linspace 0.1 2 100)).
  assert (Hc : forall i, (i < 100)%nat ->
            nth i (map (fun t => Spec.call_price norm_cdf S K t r sigma)
                     (linspace 0.1 2 100)) 0
            = Spec.call_price norm_cdf S K (sweep_time i) r sigma).
  { intros i Hi. rewrite (nth_map_lt _ _ _ 0) by (rewrite linspace_length; exact Hi).
    rewrite sweep_time_nth by exact Hi. reflexivity. }
  assert (Hp : forall i, (i < 100)%nat ->
            nth i (map (fun t => Spec.put_price norm_cdf S K t r sigma)
                     (linspace 0.1 2 100)) 0
            = Spec.put_price norm_cdf S K (sweep_time i) r sigma).
  { intros i Hi. rewrite (nth_map_lt _ _ _ 0) by (rewrite linspace_length; exact Hi).
    rewrite sweep_time_nth by exact Hi. reflexivity. }
  split; [apply maturity_sweep_run; assumption|].
  split; [rewrite length_map; apply linspace_length|].
  split; [rewrite length_map; apply linspace_length|].
  split; [unfold sweep_time; simpl; lra|].
  split; [unfold sweep_time; rewrite INR_99; lra|].
  split.
  - intros i Hi. rewrite Hc, Hp by exact Hi.
    pose proof (sweep_time_pos i) as Ht.
    split; [apply price_is_call; assumption|].
    split; [apply price_is_put; assumption|].
    apply put_call_parity_real.
  - intros Hr i j Hij Hj. rewrite !Hc by lia.
    pose proof (sweep_time_pos i) as Hti. pose proof (sweep_time_pos j) as Htj.
    pose proof (sweep_time_lt i j Hij) as Hlt.
    rewrite !call_price_fwd by assumption.
    apply Rmult_lt_compat_l; [exact HS|].
    pose proof (vol_sqrt_pos (sweep_time i) sigma Hti Hs) as Hv1.
    assert (Hv : sigma * sqrt (sweep_time i) < sigma * sqrt (sweep_time j)).
    { apply Rmult_lt_compat_l; [exact Hs|]. apply sqrt_lt_1; lra. }
    assert (Ha : ln (S / K) + r * sweep_time i <= ln (S / K) + r * sweep_time j).
    { assert (r * sweep_time i <= r * sweep_time j)
        by (apply Rmult_le_compat_l; lra). lra. }
    apply Rlt_le_trans
      with (bs_core_fwd (ln (S / K) + r * sweep_time i) (sigma * sqrt (sweep_time j))).
    + unfold bs_core_fwd. apply Rmult_lt_compat_l; [apply exp_pos|].
      apply bs_core_increasing_v; assumption.
    + destruct Ha as [Ha|Ha].
      * left. apply bs_core_fwd_increasing_a; [lra|exact Ha].
      * rewrite Ha. right. reflexivity.
Qed.

Lemma maturity_sweep_parity_witness :
  (0 < 100 /\ 0 < 100 /\ 0 < 0.2) /\
  exists cs ps : list R,
    maturity_sweep (black_scholes norm_cdf) 100 100 0.05 0.2 []
    = (Return (floats cs, floats ps), []) /\
    length cs = 100%nat /\ length ps = 100%nat /\
    sweep_time 0 = 0.1 /\ sweep_time 99 = 2 /\
    (forall i, (i < 100)%nat ->
       price_is norm_cdf 100 100 (sweep_time i) 0.05 0.2 "call" (nth i cs 0) /\
       price_is norm_cdf 100 100 (sweep_time i) 0.05 0.2 "put" (nth i ps 0) /\
       nth i cs 0 - nth i ps 0 = 100 - 100 * exp (- (0.05) * sweep_time i)) /\
    (0 <= 0.05 ->
     forall i j, (i < j)%nat -> (j < 100)%nat -> nth i cs 0 < nth j cs 0).
Proof.
  split; [lra|].
  apply (maturity_sweep_parity 100 100 0.05 0.2 []); lra.
Defined.

(** X13. Once the example cell has rebound the name [black_scholes], the
    maturity sweep is flat too: whatever [S], [K], [r] and [sigma] are, it
    returns 100 copies of the call price and 100 copies of the put price at
    the example cell's fixed parameters. *)
Theorem maturity_sweep_flat_after_example (Phi : R -> R) (fmt : npfloat -> string)
  (self : pyfun) (S K r sigma : R) (out : stdout) :
  exists c p,
    price_is Phi 100 100 1 0.05 0.2 "call" c /\
    price_is Phi 100 100 1 0.05 0.2 "put" p /\
    maturity_sweep (black_scholes_example Phi fmt self) S K r sigma out
    = (Return (repeat (PyFloat (Finite c)) 100, repeat (PyFloat (Finite p)) 100), out).
Proof.
  exists (Spec.call_price Phi 100 100 1 0.05 0.2),
         (Spec.put_price Phi 100 100 1 0.05 0.2).
  split; [intros out'; apply black_scholes_call_run; lra|].
  split; [intros out'; apply black_scholes_put_run; lra|].
  unfold maturity_sweep.
  rewrite (comprehension_returns
             (fun t => black_scholes_example Phi fmt self S K t r sigma "call")
             (fun _ => PyFloat (Finite (Spec.call_price Phi 100 100 1 0.05 0.2)))).
  - rewrite (comprehension_returns
               (fun t => black_scholes_example Phi fmt self S K t r sigma "put")
               (fun _ => PyFloat (Finite (Spec.put_price Phi 100 100 1 0.05 0.2)))).
    + rewrite !map_const_repeat, linspace_length. reflexivity.
    + intros t _ out'. rewrite example_is_fixed_call.
      apply black_scholes_put_run; lra.
  - intros t _ out'. rewrite example_is_fixed_call.
    apply black_scholes_call_run; lra.
Qed.

Lemma run_comprehension_returns {A} g (f : A -> Run num) xs :
  (forall x, returns_in g (f x) any) ->
  returns_in g (run_comprehension f xs) (fun vs => length vs = length xs).
Proof.
  intros Hf. induction xs as [|x xs IH]; simpl.
  - apply returns_ret. reflexivity.
  - apply returns_bind with (P := any); [apply Hf|intros v _].
    apply returns_bind with (P := fun vs => length vs = length xs); [exact IH|].
    intros vs Hvs. apply returns_ret. simpl. rewrite Hvs. reflexivity.
Qed.

Lemma run_comprehension_fails {A} g (f : A -> Run num) xs e :
  xs <> [] -> (forall x, fails_in g (f x) e) ->
  fails_in g (run_comprehension f xs) e.
Proof.
  intros Hxs Hf. destruct xs as [|x xs]; [contradiction|].
  simpl. apply fails_first. apply Hf.
Qed.

Lemma linspace_not_nil start stop num : num <> 0%nat -> linspace start stop num <> [].
Proof.
  intros Hn H. apply (f_equal (@length R)) in H.
  rewrite linspace_length in H. simpl in H. contradiction.
Qed.

Lemma numpy_never_overflows x : power_overflows (Num NumpyFloat x) = false.
Proof. reflexivity. Qed.

(** X14. The two sweeps on floats, where [np] and [norm] are bound to the
    libraries.  The volatilities and the maturities of the sweeps are
    [np.float64] values of [np.linspace].  The volatility sweep fails
    with the [ZeroDivisionError] of its first call exactly when spot and
    strike are Python floats and the strike is a zero, and returns a
    list of 100 floats otherwise.  The maturity sweep fails with the
    [ZeroDivisionError] in the same case, otherwise with [OverflowError]
    exactly when the volatility is a finite Python float of magnitude at
    least [2^512], and returns two lists of 100 floats otherwise. *)
Theorem sweeps_outcomes (cdf : R -> R) (S K T r sigma : num) (w : world) :
  lookup (globals w) "np" = Some (BLibrary "numpy") ->
  lookup (globals w) "norm" = Some (BLibrary "scipy.stats.norm") ->
  let vol := volatility_sweep_float (black_scholes_float cdf) S K T r in
  let mat := maturity_sweep_float (black_scholes_float cdf) S K r sigma in
  (zero_divisor S K <-> fst (vol w) = Fails (Raised ZeroDivisionError)) /\
  (~ zero_divisor S K <->
   exists prices, fst (vol w) = Value prices /\ length prices = 100%nat) /\
  (zero_divisor S K <-> fst (mat w) = Fails (Raised ZeroDivisionError)) /\
  (~ zero_divisor S K /\ square_overflows sigma <->
   fst (mat w) = Fails (Raised OverflowError)) /\
  (~ zero_divisor S K /\ ~ square_overflows sigma <->
   exists call_prices put_prices,
     fst (mat w) = Value (call_prices, put_prices) /\
     length call_prices = 100%nat /\ length put_prices = 100%nat).
Proof.
  intros Hnp Hnorm vol mat.
  pose proof (division_fails_iff S K) as Hdiv.
  pose proof (power_overflows_iff sigma) as Hpow.
  assert (Hout : forall T' s side,
            if division_fails S K then
              fails_in (globals w) (black_scholes_float cdf S K T' r s side)
                (Raised ZeroDivisionError)
            else if power_overflows s then
              fails_in (globals w) (black_scholes_float cdf S K T' r s side)
                (Raised OverflowError)
            else side = "call" \/ side = "put" ->
              returns_in (globals w) (black_scholes_float cdf S K T' r s side) any).
  { intros T' s side.
    pose proof (black_scholes_float_outcome cdf S K T' r s side (globals w) Hnp) as H.
    destruct (division_fails S K); [exact H|].
    destruct (power_overflows s); [exact H|].
    intros [-> | ->]; apply H; exact Hnorm. }
  assert (Hn1 : linspace 0.1 0.5 100 <> []) by (apply linspace_not_nil; discriminate).
  assert (Hn2 : linspace 0.1 2 100 <> []) by (apply linspace_not_nil; discriminate).
  destruct (division_fails S K) eqn:Ed.
  { assert (Hz : zero_divisor S K) by (apply Hdiv; reflexivity).
    assert (Hv : fst (vol w) = Fails (Raised ZeroDivisionError)).
    { apply fails_at. apply run_comprehension_fails; [exact Hn1|].
      intros s. apply (Hout T (Num NumpyFloat (XReal s)) "call"). }
    assert (Hm : fst (mat w) = Fails (Raised ZeroDivisionError)).
    { apply fails_at. apply fails_first. apply run_comprehension_fails; [exact Hn2|].
      intros t. apply (Hout (Num NumpyFloat (XReal t)) sigma "call"). }
    rewrite Hv, Hm.
    split; [split; [reflexivity|intros _; exact Hz]|].
    split; [split; [intros H; contradiction|intros (l & H & _); discriminate H]|].
    split; [split; [reflexivity|intros _; exact Hz]|].
    split; [split; [intros [H _]; contradiction|discriminate]|].
    split; [intros [H _]; contradiction|intros (cs & ps & H & _); discriminate H]. }
  assert (Hz : ~ zero_divisor S K) by (intros H; apply Hdiv in H; discriminate H).
  assert (Hv : exists prices, fst (vol w) = Value prices /\ length prices = 100%nat).
  { assert (H : returns_in (globals w) vol
                  (fun vs => length vs = length (linspace 0.1 0.5 100))).
    { apply run_comprehension_returns. intros s.
      apply (Hout T (Num NumpyFloat (XReal s)) "call"). left. reflexivity. }
    destruct (H w eq_refl) as (l & fs & E & Hl). exists l. rewrite E.
    split; [reflexivity|]. rewrite Hl. apply linspace_length. }
  destruct Hv as (prices & Hv & Hlen). rewrite Hv.
  split; [split; [intros H; contradiction|discriminate]|].
  split; [split; [intros _; exists prices; split; [reflexivity|exact Hlen]
                 |intros _; exact Hz]|].
  destruct (power_overflows sigma) eqn:Eo.
  { assert (Ho : square_overflows sigma) by (apply Hpow; reflexivity).
    assert (Hm : fst (mat w) = Fails (Raised OverflowError)).
    { apply fails_at. apply fails_first. apply run_comprehension_fails; [exact Hn2|].
      intros t. pose proof (Hout (Num NumpyFloat (XReal t)) sigma "call") as H.
      rewrite Eo in H. exact H. }
    rewrite Hm.
    split; [split; [intros H; contradiction|discriminate]|].
    split; [split; [reflexivity|intros _; split; assumption]|].
    split; [intros [_ H]; contradiction|intros (cs & ps & H & _); discriminate H]. }
  assert (Ho : ~ square_overflows sigma) by (intros H; apply Hpow in H; discriminate H).
  assert (Hm : returns_in (globals w) mat
                 (fun l => length (fst l) = 100%nat /\ length (snd l) = 100%nat)).
  { unfold mat, maturity_sweep_float.
    apply returns_bind
      with (P := fun vs : list num => length vs = length (linspace 0.1 2 100)).
    { apply run_comprehension_returns. intros t.
      pose proof (Hout (Num NumpyFloat (XReal t)) sigma "call") as H.
      rewrite Eo in H. apply H. left. reflexivity. }
    intros cs Hcs.
    apply returns_bind
      with (P := fun vs : list num => length vs = length (linspace 0.1 2 100)).
    { apply run_comprehension_returns. intros t.
      pose proof (Hout (Num NumpyFloat (XReal t)) sigma "put") as H.
      rewrite Eo in H. apply H. right. reflexivity. }
    intros ps Hps. apply returns_ret. cbn [fst snd].
    rewrite Hcs, Hps, linspace_length. split; reflexivity. }
  destruct (Hm w eq_refl) as ([cs ps] & fs & E & Hc & Hp). cbn [fst snd] in Hc, Hp.
  rewrite E. cbn [fst].
  split; [split; [intros H; contradiction|discriminate]|].
  split; [split; [intros [_ H]; contradiction|discriminate]|].
  split; [intros _; exists cs, ps; repeat split; assumption
         |intros _; split; assumption].
Qed.

Lemma sweeps_outcomes_witness :
  exists prices,
    fst (volatility_sweep_float (black_scholes_float norm_cdf)
           (Py.float 100) (Py.float 100) (Py.float 1) (Py.float 0.05) imported)
    = Value prices /\ length prices = 100%nat.
Proof.
  apply (sweeps_outcomes norm_cdf (Py.float 100) (Py.float 100) (Py.float 1)
           (Py.float 0.05) (Py.float 0.2) imported eq_refl eq_refl).
  apply float_not_zero_divisor. lra.
Defined.

(** ** Edge values of the parameters *)

Ltac ieee_cases :=
  repeat match goal with
    | |- context [Req_dec_T ?a ?b] => destruct (Req_dec_T a b); try lra
    | |- context [Rlt_dec ?a ?b] => destruct (Rlt_dec a b); try lra
    | |- context [Rle_dec ?a ?b] => destruct (Rle_dec a b); try lra
    end.

Lemma ieee_div_by_zero N :
  (XReal N / XReal 0)%ieee
  = if Rlt_dec 0 N then XPInf else if Rlt_dec N 0 then XNInf else XNaN.
Proof.
  unfold Ieee.div, Ieee.is_nan, Ieee.is_inf, Ieee.is_zero, Ieee.sign, Ieee.inf.
  simpl. ieee_cases; reflexivity.
Qed.

Lemma ieee_mul_real x y :
  x * y <> 0 -> (XReal x * XReal y)%ieee = XReal (x * y).
Proof.
  intros H. unfold Ieee.mul, Ieee.signed. simpl.
  destruct (Req_dec_T (x * y) 0); [contradiction|reflexivity].
Qed.

Lemma ieee_mul_zero_r x : 0 <= x -> (XReal x * XReal 0)%ieee = XReal 0.
Proof.
  intros H. unfold Ieee.mul, Ieee.signed, Ieee.sign, Ieee.zero. simpl.
  ieee_cases; reflexivity.
Qed.

Lemma ieee_mul_zero_l x : 0 <= x -> (XReal 0 * XReal x)%ieee = XReal 0.
Proof.
  intros H. unfold Ieee.mul, Ieee.signed, Ieee.sign, Ieee.zero. simpl.
  ieee_cases; reflexivity.
Qed.

Lemma ieee_sub_real x y : y <> 0 -> (XReal x - XReal y)%ieee = XReal (x - y).
Proof.
  intros H. unfold Ieee.sub, Ieee.neg.
  destruct (Req_dec_T y 0); [contradiction|reflexivity].
Qed.

Lemma ieee_sub_zero x : (XReal x - XReal 0)%ieee = XReal x.
Proof.
  unfold Ieee.sub, Ieee.neg. destruct (Req_dec_T 0 0); [reflexivity|lra].
Qed.

(** The divisor [sigma * sqrt T] vanishes at a zero maturity or at a zero
    volatility. *)
Lemma ieee_den_zero_maturity sigma :
  0 < sigma -> (XReal sigma * Ieee.sqrt 0)%ieee = XReal 0.
Proof.
  intros Hs. unfold Ieee.sqrt. destruct (Rle_dec 0 0); [|lra].
  rewrite sqrt_0. apply ieee_mul_zero_r. lra.
Qed.

Lemma ieee_den_zero_volatility T :
  0 < T -> (XReal 0 * Ieee.sqrt T)%ieee = XReal 0.
Proof.
  intros HT. unfold Ieee.sqrt. destruct (Rle_dec 0 T); [|lra].
  apply ieee_mul_zero_l. apply sqrt_pos.
Qed.

(** The result when [d1] and [d2] are both [inf], both [-inf] or both
    [nan]. *)
Lemma ieee_call_at_pinf cdf S D :
  0 < S -> 0 < D ->
  (XReal S * Ieee.norm_cdf cdf XPInf - XReal D * Ieee.norm_cdf cdf XPInf)%ieee
  = XReal (S - D).
Proof.
  intros HS HD. simpl Ieee.norm_cdf.
  rewrite !ieee_mul_real, ieee_sub_real by lra. f_equal. ring.
Qed.

Lemma ieee_call_at_ninf cdf S D :
  0 <= S -> 0 <= D ->
  (XReal S * Ieee.norm_cdf cdf XNInf - XReal D * Ieee.norm_cdf cdf XNInf)%ieee
  = XReal 0.
Proof.
  intros HS HD. simpl Ieee.norm_cdf.
  rewrite !ieee_mul_zero_r, ieee_sub_zero by lra. reflexivity.
Qed.

Lemma ieee_sub_inf_real x :
  (XPInf - XReal x)%ieee = XPInf /\ (XNInf - XReal x)%ieee = XNInf.
Proof.
  unfold Ieee.sub, Ieee.neg. destruct (Req_dec_T x 0); split; reflexivity.
Qed.


Lemma ieee_log_pos q : 0 < q -> Ieee.log q = XReal (ln q).
Proof. intros H. unfold Ieee.log. destruct (Rlt_dec 0 q); [reflexivity|lra]. Qed.

(** What the pricer returns when the numerator of [d1] is the real [N] and
    the divisor [sigma * sqrt T] is zero. *)
Lemma ieee_degenerate cdf S D N :
  0 < S -> 0 < D ->
  let d1 := (XReal N / XReal 0)%ieee in
  let d2 := (d1 - XReal 0)%ieee in
  (XReal S * Ieee.norm_cdf cdf d1 - XReal D * Ieee.norm_cdf cdf d2)%ieee
  = (if Rlt_dec 0 N then XReal (S - D) else if Rlt_dec N 0 then XReal 0 else XNaN)
  /\
  (XReal D * Ieee.norm_cdf cdf (- d2) - XReal S * Ieee.norm_cdf cdf (- d1))%ieee
  = (if Rlt_dec 0 N then XReal 0 else if Rlt_dec N 0 then XReal (D - S) else XNaN).
Proof.
  intros HS HD d1 d2. unfold d2, d1. rewrite ieee_div_by_zero.
  destruct (Rlt_dec 0 N); [|destruct (Rlt_dec N 0)].
  - rewrite (proj1 (ieee_sub_inf_real 0)). split.
    + apply ieee_call_at_pinf; assumption.
    + simpl Ieee.neg. apply ieee_call_at_ninf; lra.
  - rewrite (proj2 (ieee_sub_inf_real 0)). split.
    + apply ieee_call_at_ninf; lra.
    + simpl Ieee.neg. apply ieee_call_at_pinf; assumption.
  - split; reflexivity.
Qed.

Lemma ln_ratio_sign S K :
  0 < S -> 0 < K ->
  (K < S -> 0 < ln (S / K)) /\ (S < K -> ln (S / K) < 0) /\ (S = K -> ln (S / K) = 0).
Proof.
  intros HS HK.
  assert (Hq : 0 < S / K) by (apply Rdiv_lt_0_compat; assumption).
  repeat split; intros H.
  - rewrite <- ln_1. apply ln_increasing; [lra|].
    apply Rmult_lt_reg_r with K; [exact HK|].
    unfold Rdiv. rewrite Rmult_assoc, Rinv_l by lra. lra.
  - rewrite <- ln_1. apply ln_increasing; [exact Hq|].
    apply Rmult_lt_reg_r with K; [exact HK|].
    unfold Rdiv. rewrite Rmult_assoc, Rinv_l by lra. lra.
  - subst. unfold Rdiv. rewrite Rinv_r by lra. apply ln_1.
Qed.

Lemma forward_moneyness S K T r :
  0 < S -> 0 < K ->
  ln (S / K) + r * T = ln (S / (K * exp (- r * T))).
Proof.
  intros HS HK.
  replace (S / (K * exp (- r * T))) with (S / K * exp (r * T)).
  - rewrite ln_mult by (try apply exp_pos; apply Rdiv_lt_0_compat; assumption).
    rewrite ln_exp. reflexivity.
  - replace (- r * T) with (- (r * T)) by ring. rewrite exp_Ropp.
    pose proof (exp_pos (r * T)). field. split; lra.
Qed.

Lemma ieee_nan_result cdf S D :
  (XReal S * Ieee.norm_cdf cdf XNaN - XReal D * Ieee.norm_cdf cdf XNaN)%ieee = XNaN.
Proof. reflexivity. Qed.

Lemma ieee_div_nan_l b : (XNaN / b)%ieee = XNaN.
Proof. reflexivity. Qed.


Lemma ieee_mul_nan_r a : (a * XNaN)%ieee = XNaN.
Proof. unfold Ieee.mul. simpl Ieee.is_nan. rewrite Bool.orb_true_r. reflexivity. Qed.

Lemma ieee_sub_nan_l b : (XNaN - b)%ieee = XNaN.
Proof. unfold Ieee.sub. destruct (Ieee.neg b); reflexivity. Qed.





(** ** A zero maturity or a zero volatility, of either sign *)

Definition zero_float (z : xfloat) : Prop := z = XReal 0 \/ z = XNegZero.

Definition special (a : xfloat) : Prop := a = XPInf \/ a = XNInf \/ a = XNaN.

(** The quotient of a non-zero real by a zero. *)
Definition quotient_by_zero (N : R) (z : xfloat) : xfloat :=
  match z with
  | XNegZero => if Rlt_dec 0 N then XNInf else XPInf
  | _ => if Rlt_dec 0 N then XPInf else XNInf
  end.

Lemma zero_float_absorb z : zero_float z -> absorb z = Finite 0.
Proof. intros [-> | ->]; reflexivity. Qed.

Lemma fit_zero_float z : zero_float z -> Fp.fit z = z.
Proof.
  intros Hz. apply fit_finite with 0; [apply zero_float_absorb; exact Hz|].
  rewrite Rabs_R0. apply overflow_threshold_pos.
Qed.

Lemma flags_zero_float args z : zero_float z -> Fp.flags args z = [].
Proof.
  intros Hz. apply flags_finite with 0; [apply zero_float_absorb; exact Hz|].
  rewrite Rabs_R0. apply overflow_threshold_pos.
Qed.

Lemma sqrt_zero_float z : zero_float z -> Fp.sqrt z = z.
Proof.
  intros [-> | ->]; [|reflexivity]. simpl. unfold Ieee.sqrt.
  destruct (Rle_dec 0 0); [|lra]. rewrite sqrt_0. reflexivity.
Qed.

Lemma mul_pos_zero_float x z : 0 < x -> zero_float z -> Ieee.mul (XReal x) z = z.
Proof.
  intros Hx [-> | ->]; unfold Ieee.mul, Ieee.signed, Ieee.zero; simpl;
    (destruct (Req_dec_T (x * 0) 0) as [_|H]; [|exfalso; apply H; ring]);
    destruct (Rlt_dec x 0); try lra; try reflexivity.
  destruct (Rlt_dec 0 0); [lra|reflexivity].
Qed.

Lemma mul_zero_float_pos z x : 0 < x -> zero_float z -> Ieee.mul z (XReal x) = z.
Proof.
  intros Hx [-> | ->]; unfold Ieee.mul, Ieee.signed, Ieee.zero; simpl;
    (destruct (Req_dec_T (0 * x) 0) as [_|H]; [|exfalso; apply H; ring]);
    destruct (Rlt_dec x 0); try lra; try reflexivity.
  destruct (Rlt_dec 0 0); [lra|reflexivity].
Qed.

Lemma div_by_zero_float a N z :
  absorb a = Finite N -> N <> 0 -> zero_float z -> Ieee.div a z = quotient_by_zero N z.
Proof.
  intros Ha HN Hz. rewrite (absorb_nonzero _ _ Ha HN).
  destruct Hz as [-> | ->]; unfold Ieee.div, quotient_by_zero; simpl;
    try (destruct (Req_dec_T 0 0); [|lra]);
    (destruct (Req_dec_T N 0); [contradiction|]);
    destruct (Rlt_dec N 0), (Rlt_dec 0 N); try lra; try reflexivity.
  destruct (Rlt_dec 0 0); [lra|reflexivity].
  destruct (Rlt_dec 0 0); [lra|reflexivity].
Qed.

Lemma div_zero_by_zero a z : absorb a = Finite 0 -> zero_float z -> Ieee.div a z = XNaN.
Proof.
  intros Ha Hz.
  assert (Ha' : zero_float a).
  { destruct a as [u| | | |]; simpl in Ha; try discriminate Ha.
    - injection Ha as ->. left. reflexivity.
    - right. reflexivity. }
  destruct Ha' as [-> | ->], Hz as [-> | ->]; unfold Ieee.div; simpl;
    try (destruct (Req_dec_T 0 0); [|lra]); reflexivity.
Qed.

Lemma quotient_by_zero_special N z : special (quotient_by_zero N z).
Proof.
  unfold special, quotient_by_zero.
  destruct z; destruct (Rlt_dec 0 N); auto.
Qed.

Lemma fit_special a : special a -> Fp.fit a = a.
Proof. intros [-> | [-> | ->]]; reflexivity. Qed.

Lemma sub_special_zero a z : special a -> zero_float z -> Ieee.sub a z = a.
Proof.
  intros [-> | [-> | ->]] [-> | ->]; unfold Ieee.sub, Ieee.neg;
    try (destruct (Req_dec_T 0 0)); reflexivity.
Qed.

Lemma special_not_real a x : special a -> absorb a = Finite x -> False.
Proof. intros [-> | [-> | ->]] H; discriminate H. Qed.

(** [d1] and [d2] when the divisor [sigma * np.sqrt(T)] is a zero: both
    are the quotient of the numerator by this zero. *)
Lemma d1_d2_float_zero_divisor (S K T r sigma n : num) (z : xfloat) w :
  numerator_float S K T r sigma w = (Value n, w) ->
  (forall w', globals w' = globals w ->
              divisor_float T sigma w' = (Value (Num NumpyFloat z), w')) ->
  zero_float z -> special (Ieee.div (num_val n) z) ->
  exists d1 d2 w1,
    d1_d2_float S K T r sigma w = (Value (d1, d2), w1) /\
    globals w1 = globals w /\
    num_val d1 = Ieee.div (num_val n) z /\ num_val d2 = Ieee.div (num_val n) z.
Proof.
  intros En Ev Hz Hsp. unfold d1_d2_float.
  rewrite (run_bind_value _ _ _ _ _ En), (run_bind_value _ _ _ _ _ (Ev w eq_refl)).
  unfold Py.truediv at 1. rewrite both_python_numpy_r by reflexivity.
  cbn [andb]. unfold Py.binary at 1. rewrite both_python_numpy_r by reflexivity.
  unfold Py.numpy_float at 1. unfold run_bind at 1. cbn [num_val].
  rewrite (fit_special _ Hsp).
  set (w1 := signal _ w).
  rewrite (run_bind_value _ _ _ _ _ (Ev w1 (signal_globals _ w))).
  unfold Py.sub, Py.binary. rewrite both_python_numpy_r by reflexivity.
  unfold Py.numpy_float at 1. unfold run_bind at 1. cbn [num_val].
  rewrite (sub_special_zero _ _ Hsp Hz), (fit_special _ Hsp).
  eexists _, _, _. split; [reflexivity|].
  split; [|split; reflexivity].
  rewrite signal_globals. unfold w1. apply signal_globals.
Qed.

(** The divisor at a zero maturity and at a zero volatility. *)
Lemma divisor_float_zero_maturity (T sigma : num) (xs : R) w :
  zero_float (num_val T) -> is_real sigma xs -> 0 < xs ->
  lookup (globals w) "np" = Some (BLibrary "numpy") ->
  divisor_float T sigma w = (Value (Num NumpyFloat (num_val T)), w).
Proof.
  intros Hz Hs Hxs Hnp. unfold divisor_float.
  rewrite (run_bind_value _ _ _ _ _ (use_library_bound _ _ _ Hnp)).
  unfold Py.np_sqrt, Py.numpy_float at 1. unfold run_bind at 1.
  rewrite (sqrt_zero_float _ Hz), (fit_zero_float _ Hz), (flags_zero_float _ _ Hz).
  cbn [signal].
  unfold Py.mul, Py.binary. rewrite both_python_numpy_r by reflexivity.
  unfold Py.numpy_float. cbn [num_val].
  assert (Hsig : num_val sigma = XReal xs) by (apply absorb_nonzero; [exact Hs|lra]).
  rewrite Hsig, (mul_pos_zero_float _ _ Hxs Hz), (fit_zero_float _ Hz),
    (flags_zero_float _ _ Hz).
  reflexivity.
Qed.

Lemma divisor_float_zero_volatility (T sigma : num) (xT : R) w :
  zero_float (num_val sigma) -> is_real T xT -> / 2 ^ 100 <= xT <= 2 ^ 100 ->
  lookup (globals w) "np" = Some (BLibrary "numpy") ->
  divisor_float T sigma w = (Value (Num NumpyFloat (num_val sigma)), w).
Proof.
  intros Hz HT HxT Hnp. unfold divisor_float.
  rewrite (run_bind_value _ _ _ _ _ (use_library_bound _ _ _ Hnp)).
  pose proof (inv_pow2_pos 100) as Hi.
  assert (HT0 : 0 < xT) by lra.
  destruct (sqrt_bound_pow2 50 xT HxT) as [Hq1 Hq2].
  pose proof (inv_pow2_pos 50) as Hi'.
  assert (Hq0 : 0 < sqrt xT) by lra.
  assert (Hsq : absorb (Fp.sqrt (num_val T)) = Finite (sqrt xT))
    by (apply absorb_sqrt; [exact HT|lra]).
  assert (Hr : Rabs (sqrt xT) < overflow_threshold).
  { apply below_threshold with 50%nat; [apply bound_pos; lra|lia]. }
  unfold Py.np_sqrt, Py.numpy_float at 1. unfold run_bind at 1.
  rewrite (fit_finite _ _ Hsq Hr), (flags_finite _ _ _ Hsq Hr). cbn [signal].
  unfold Py.mul, Py.binary. rewrite both_python_numpy_r by reflexivity.
  unfold Py.numpy_float. cbn [num_val].
  rewrite (absorb_nonzero _ _ Hsq) by lra.
  rewrite (mul_zero_float_pos _ _ Hq0 Hz), (fit_zero_float _ Hz),
    (flags_zero_float _ _ Hz).
  reflexivity.
Qed.

(** [norm.cdf] at the infinities. *)
Definition weight (a : xfloat) : R :=
  match a with
  | XPInf => 1
  | _ => 0
  end.

Lemma cdf_infinite cdf a :
  a = XPInf \/ a = XNInf ->
  absorb (Ieee.norm_cdf cdf a) = Finite (weight a) /\
  absorb (Ieee.norm_cdf cdf (Ieee.neg a)) = Finite (1 - weight a).
Proof.
  intros [-> | ->]; simpl; split; f_equal; ring.
Qed.

Lemma weight_bound a : Rabs (weight a) <= 1 /\ Rabs (1 - weight a) <= 1.
Proof.
  destruct a; simpl; rewrite ?Rminus_0_r, ?Rabs_R0, ?Rabs_R1;
    try (replace (1 - 1) with 0 by ring; rewrite Rabs_R0); lra.
Qed.

Section PriceAtEdge.

Variable cdf : R -> R.
Variables xS xK xT xr : R.
Hypothesis HS : Rabs xS <= 2 ^ 500.
Hypothesis HK : Rabs xK <= 2 ^ 500.
Hypothesis Hrt : Rabs (xr * xT) <= 300.

(** The prices when [d1] and [d2] are the same infinity. *)
Lemma price_float_at_infinity (S K T r sigma d1 d2 : num) (a : xfloat) w w1 :
  is_real S xS -> is_real K xK -> is_real T xT -> is_real r xr ->
  d1_d2_float S K T r sigma w = (Value (d1, d2), w1) ->
  num_val d1 = a -> num_val d2 = a -> a = XPInf \/ a = XNInf ->
  lookup (globals w1) "np" = Some (BLibrary "numpy") ->
  lookup (globals w1) "norm" = Some (BLibrary "scipy.stats.norm") ->
  exists c p,
    fst (black_scholes_float cdf S K T r sigma "call" w) = Value c /\
    fst (black_scholes_float cdf S K T r sigma "put" w) = Value p /\
    is_real c (weight a * (xS - xK * exp (- xr * xT))) /\
    is_real p ((1 - weight a) * (xK * exp (- xr * xT) - xS)).
Proof.
  intros HS' HK' HT' Hr' Ed Hd1 Hd2 Ha Hnp Hnorm.
  destruct (cdf_infinite cdf a Ha) as [Hw Hw'].
  destruct (weight_bound a) as [Hb Hb'].
  destruct (price_float_call cdf xS xK xT xr HS HK Hrt S K T r sigma d1 d2
              (weight a) (weight a) w w1 HS' HK' HT' Hr' Ed)
    as (c & Ec & Hc); try assumption; try (rewrite ?Hd1, ?Hd2; exact Hw).
  destruct (price_float_put cdf xS xK xT xr HS HK Hrt S K T r sigma d1 d2
              (1 - weight a) (1 - weight a) w w1 HS' HK' HT' Hr' Ed)
    as (p & Ep & Hp); try assumption; try (rewrite ?Hd1, ?Hd2; exact Hw').
  exists c, p. rewrite Ec, Ep. split; [reflexivity|]. split; [reflexivity|].
  split; [apply is_real_eq with (1 := Hc)|apply is_real_eq with (1 := Hp)]; ring.
Qed.

Lemma mul_nan_float (a : num) w :
  Py.mul a (Num NumpyFloat XNaN) w = (Value (Num NumpyFloat XNaN), w).
Proof.
  unfold Py.mul, Py.binary. rewrite both_python_numpy_r by reflexivity.
  unfold Py.numpy_float. cbn [num_val]. rewrite ieee_mul_nan_r.
  unfold Fp.flags. cbn [Ieee.is_nan existsb]. rewrite Bool.orb_true_r.
  reflexivity.
Qed.

Lemma sub_nan_float (b : num) w :
  Py.sub (Num NumpyFloat XNaN) b w = (Value (Num NumpyFloat XNaN), w).
Proof.
  unfold Py.sub, Py.binary. rewrite both_python_numpy_l by reflexivity.
  unfold Py.numpy_float. cbn [num_val]. rewrite ieee_sub_nan_l.
  reflexivity.
Qed.

(** The prices when [d1] and [d2] are [nan]. *)
Lemma price_float_at_nan (S K T r sigma d1 d2 : num) w w1 :
  is_real K xK -> is_real T xT -> is_real r xr ->
  d1_d2_float S K T r sigma w = (Value (d1, d2), w1) ->
  num_val d1 = XNaN -> num_val d2 = XNaN ->
  lookup (globals w1) "np" = Some (BLibrary "numpy") ->
  lookup (globals w1) "norm" = Some (BLibrary "scipy.stats.norm") ->
  exists c p,
    fst (black_scholes_float cdf S K T r sigma "call" w) = Value c /\
    fst (black_scholes_float cdf S K T r sigma "put" w) = Value p /\
    num_val c = XNaN /\ num_val p = XNaN.
Proof.
  intros HK' HT' Hr' Ed Hd1 Hd2 Hnp Hnorm.
  destruct (discounted_strike_float xK xT xr HK Hrt K T r w1 HK' HT' Hr')
    as (ke & Hke & Eke).
  exists (Num NumpyFloat XNaN), (Num NumpyFloat XNaN).
  split; [|split; [|split; reflexivity]].
  - unfold black_scholes_float. rewrite (run_bind_value _ _ _ _ _ Ed).
    cbv beta iota zeta. cbn [String.eqb Ascii.eqb Bool.eqb fst snd].
    rewrite (run_bind_value _ _ _ _ _ (use_library_bound _ _ _ Hnorm)).
    unfold Py.norm_cdf at 1. unfold run_bind at 1, run_ret at 1.
    rewrite Hd1. cbn [Ieee.norm_cdf].
    rewrite (run_bind_value _ _ _ _ _ (mul_nan_float S w1)).
    rewrite (run_bind_value _ _ _ _ _ (use_library_bound _ _ _ Hnp)).
    rewrite Eke.
    rewrite (run_bind_value _ _ _ _ _ (use_library_bound _ _ _ Hnorm)).
    unfold Py.norm_cdf at 1. unfold run_bind at 1, run_ret at 1.
    rewrite Hd2. cbn [Ieee.norm_cdf].
    rewrite (run_bind_value _ _ _ _ _ (mul_nan_float ke w1)).
    rewrite sub_nan_float. reflexivity.
  - unfold black_scholes_float. rewrite (run_bind_value _ _ _ _ _ Ed).
    cbv beta iota zeta. cbn [String.eqb Ascii.eqb Bool.eqb fst snd].
    rewrite (run_bind_value _ _ _ _ _ (use_library_bound _ _ _ Hnp)).
    rewrite Eke.
    rewrite (run_bind_value _ _ _ _ _ (use_library_bound _ _ _ Hnorm)).
    unfold Py.norm_cdf at 1. unfold run_bind at 1, run_ret at 1.
    unfold Py.neg at 1. rewrite Hd2. cbn [num_val Ieee.neg Ieee.norm_cdf].
    rewrite (run_bind_value _ _ _ _ _ (mul_nan_float ke w1)).
    rewrite (run_bind_value _ _ _ _ _ (use_library_bound _ _ _ Hnorm)).
    unfold Py.norm_cdf at 1. unfold run_bind at 1, run_ret at 1.
    unfold Py.neg at 1. rewrite Hd1. cbn [num_val Ieee.neg Ieee.norm_cdf].
    rewrite (run_bind_value _ _ _ _ _ (mul_nan_float S w1)).
    rewrite sub_nan_float. reflexivity.
Qed.

End PriceAtEdge.
(** X16. At a zero maturity the divisor [sigma * np.sqrt(T)] is a zero of
    the sign of [T], and the call divides by it without raising.  For
    spot, strike and volatility positive and inside the range, and away
    from the money: at [T = 0.0] the call returns the intrinsic value
    [max (S - K) 0] and the put [max (K - S) 0]; at [T = -0.0] the sign
    of [d1] is reversed, and the call returns [min (S - K) 0] and the put
    [min (K - S) 0].  At the money both are [nan], for either zero. *)
Theorem zero_maturity_edge (cdf : R -> R) (S K T r sigma : num)
  (xS xK xr xs : R) (w : world) :
  is_real S xS -> is_real K xK -> is_real r xr -> is_real sigma xs ->
  / 2 ^ 500 <= xS <= 2 ^ 500 -> / 2 ^ 500 <= xK <= 2 ^ 500 ->
  Rabs xr <= 2 ^ 100 -> 0 < xs <= 2 ^ 100 ->
  lookup (globals w) "np" = Some (BLibrary "numpy") ->
  lookup (globals w) "norm" = Some (BLibrary "scipy.stats.norm") ->
  zero_float (num_val T) ->
  exists c p,
    fst (black_scholes_float cdf S K T r sigma "call" w) = Value c /\
    fst (black_scholes_float cdf S K T r sigma "put" w) = Value p /\
    (xS = xK -> num_val c = XNaN /\ num_val p = XNaN) /\
    (xS <> xK -> num_val T = XReal 0 ->
     is_real c (Rmax (xS - xK) 0) /\ is_real p (Rmax (xK - xS) 0)) /\
    (xS <> xK -> num_val T = XNegZero ->
     is_real c (Rmin (xS - xK) 0) /\ is_real p (Rmin (xK - xS) 0)).
Proof.
  intros HS HK Hr Hs HbS HbK Hbr [Hs0 Hbs] Hnp Hnorm Hz.
  pose proof (zero_float_absorb _ Hz) as HT.
  pose proof (inv_pow2_pos 500) as Hi.
  assert (HS0 : 0 < xS) by lra. assert (HK0 : 0 < xK) by lra.
  assert (HbT : Rabs 0 <= 2 ^ 100).
  { rewrite Rabs_R0. left. apply pow2_pos. }
  assert (Hbs' : Rabs xs <= 2 ^ 100) by (apply bound_pos; lra).
  assert (HaS : Rabs xS <= 2 ^ 500) by (apply bound_pos; lra).
  assert (HaK : Rabs xK <= 2 ^ 500) by (apply bound_pos; lra).
  assert (Hrt : Rabs (xr * 0) <= 300) by (rewrite Rmult_0_r, Rabs_R0; lra).
  destruct (numerator_float_in_box xS xK 0 xr xs HbS HbK HbT Hbs' Hbr
              S K T r sigma w HS HK HT Hr Hs Hnp) as (n & En & Hn).
  set (N := ln (xS / xK) + (xr + xs * xs / 2) * 0) in Hn.
  assert (HN : N = ln (xS / xK)) by (unfold N; ring).
  assert (Ev : forall w', globals w' = globals w ->
                 divisor_float T sigma w' = (Value (Num NumpyFloat (num_val T)), w')).
  { intros w' Hw'. apply divisor_float_zero_maturity with xs; try assumption.
    rewrite Hw'. exact Hnp. }
  destruct (ln_ratio_sign xS xK HS0 HK0) as (Hgt & Hlt & Heq).
  assert (Hdisc : xK * exp (- xr * 0) = xK).
  { replace (- xr * 0) with 0 by ring. rewrite exp_0. ring. }
  destruct (Req_dec xS xK) as [He|Hne].
  - assert (HN0 : N = 0) by (rewrite HN; apply Heq; exact He).
    rewrite HN0 in Hn.
    pose proof (div_zero_by_zero _ _ Hn Hz) as Hdiv.
    destruct (d1_d2_float_zero_divisor S K T r sigma n (num_val T) w En Ev Hz)
      as (d1 & d2 & w1 & Ed & Hg & Hd1 & Hd2).
    { rewrite Hdiv. right; right. reflexivity. }
    rewrite Hdiv in Hd1, Hd2. rewrite <- Hg in Hnp, Hnorm.
    destruct (price_float_at_nan cdf xK 0 xr HaK Hrt S K T r sigma d1 d2 w w1
                HK HT Hr Ed Hd1 Hd2 Hnp Hnorm) as (c & p & Ec & Ep & Hc & Hp).
    exists c, p. split; [exact Ec|]. split; [exact Ep|].
    split; [intros _; split; assumption|].
    split; intros H; contradiction.
  - assert (HN0 : N <> 0).
    { rewrite HN. destruct (Rtotal_order xS xK) as [H|[H|H]];
        [pose proof (Hlt H)|contradiction|pose proof (Hgt H)]; lra. }
    pose proof (div_by_zero_float _ _ _ Hn HN0 Hz) as Hdiv.
    destruct (d1_d2_float_zero_divisor S K T r sigma n (num_val T) w En Ev Hz)
      as (d1 & d2 & w1 & Ed & Hg & Hd1 & Hd2).
    { rewrite Hdiv. apply quotient_by_zero_special. }
    rewrite Hdiv in Hd1, Hd2. rewrite <- Hg in Hnp, Hnorm.
    assert (Hinf : quotient_by_zero N (num_val T) = XPInf \/
                   quotient_by_zero N (num_val T) = XNInf).
    { unfold quotient_by_zero. destruct (num_val T), (Rlt_dec 0 N); auto. }
    destruct (price_float_at_infinity cdf xS xK 0 xr HaS HaK Hrt S K T r sigma
                d1 d2 _ w w1 HS HK HT Hr Ed Hd1 Hd2 Hinf Hnp Hnorm)
      as (c & p & Ec & Ep & Hc & Hp).
    rewrite Hdisc in Hc, Hp.
    exists c, p. split; [exact Ec|]. split; [exact Ep|].
    split; [intros H; contradiction|].
    split; intros _ HT'; rewrite HT' in Hc, Hp; unfold quotient_by_zero in Hc, Hp;
      destruct (Rlt_dec 0 N) as [HNp|HNn]; cbn [weight] in Hc, Hp.
    + assert (xK < xS).
      { destruct (Rtotal_order xS xK) as [H|[H|H]];
          [pose proof (Hlt H); lra|contradiction|exact H]. }
      split; [apply is_real_eq with (1 := Hc)|apply is_real_eq with (1 := Hp)].
      * rewrite Rmax_left by lra. ring.
      * rewrite Rmax_right by lra. ring.
    + assert (xS < xK).
      { destruct (Rtotal_order xS xK) as [H|[H|H]];
          [exact H|contradiction|pose proof (Hgt H); lra]. }
      split; [apply is_real_eq with (1 := Hc)|apply is_real_eq with (1 := Hp)].
      * rewrite Rmax_right by lra. ring.
      * rewrite Rmax_left by lra. ring.
    + assert (xK < xS).
      { destruct (Rtotal_order xS xK) as [H|[H|H]];
          [pose proof (Hlt H); lra|contradiction|exact H]. }
      split; [apply is_real_eq with (1 := Hc)|apply is_real_eq with (1 := Hp)].
      * rewrite Rmin_right by lra. ring.
      * rewrite Rmin_left by lra. ring.
    + assert (xS < xK).
      { destruct (Rtotal_order xS xK) as [H|[H|H]];
          [exact H|contradiction|pose proof (Hgt H); lra]. }
      split; [apply is_real_eq with (1 := Hc)|apply is_real_eq with (1 := Hp)].
      * rewrite Rmin_left by lra. ring.
      * rewrite Rmin_right by lra. ring.
Qed.

Lemma zero_maturity_edge_witness :
  (/ 2 ^ 500 <= 110 <= 2 ^ 500 /\ / 2 ^ 500 <= 100 <= 2 ^ 500 /\
   Rabs 0.05 <= 2 ^ 100 /\ 0 < 0.2 <= 2 ^ 100 /\ 110 <> 100) /\
  exists c p,
    fst (black_scholes_float norm_cdf (Py.float 110) (Py.float 100)
           (Num PythonFloat XNegZero) (Py.float 0.05) (Py.float 0.2) "call" imported)
    = Value c /\
    fst (black_scholes_float norm_cdf (Py.float 110) (Py.float 100)
           (Num PythonFloat XNegZero) (Py.float 0.05) (Py.float 0.2) "put" imported)
    = Value p /\
    is_real c (Rmin (110 - 100) 0) /\ is_real p (Rmin (100 - 110) 0).
Proof.
  assert (H1 : / 2 ^ 500 <= 110 <= 2 ^ 500)
    by (apply (pow2_interval _ 7); [lia|simpl; lra]).
  assert (H2 : / 2 ^ 500 <= 100 <= 2 ^ 500)
    by (apply (pow2_interval _ 7); [lia|simpl; lra]).
  assert (H3 : Rabs 0.05 <= 2 ^ 100)
    by (apply bound_weaken with 0%nat; [rewrite Rabs_right; simpl; lra|lia]).
  assert (H4 : 0 < 0.2 <= 2 ^ 100).
  { split; [lra|]. apply Rle_trans with (2 ^ 0); [simpl; lra|apply pow2_le; lia]. }
  assert (H5 : 110 <> 100) by lra.
  split; [repeat split; try apply H1; try apply H2; try apply H4; assumption|].
  destruct (zero_maturity_edge norm_cdf (Py.float 110) (Py.float 100)
              (Num PythonFloat XNegZero) (Py.float 0.05) (Py.float 0.2)
              110 100 0.05 0.2 imported eq_refl eq_refl eq_refl eq_refl
              H1 H2 H3 H4 eq_refl eq_refl (or_intror eq_refl))
    as (c & p & Ec & Ep & _ & _ & Hneg).
  exists c, p. split; [exact Ec|]. split; [exact Ep|].
  apply Hneg; [exact H5|reflexivity].
Defined.
(** X17. At a zero volatility the divisor is a zero of the sign of
    [sigma].  For spot, strike and maturity positive and inside the
    range, [|r T| <= 300] and a spot different from the discounted strike
    [K exp (- r T)]: at [sigma = 0.0] the call returns the discounted
    intrinsic value [max (S - K exp (- r T)) 0] and the put
    [max (K exp (- r T) - S) 0]; at [sigma = -0.0] they return
    [min (S - K exp (- r T)) 0] and [min (K exp (- r T) - S) 0].  When
    the spot is the discounted strike both are [nan]. *)
Theorem zero_volatility_edge (cdf : R -> R) (S K T r sigma : num)
  (xS xK xT xr : R) (w : world) :
  is_real S xS -> is_real K xK -> is_real T xT -> is_real r xr ->
  / 2 ^ 500 <= xS <= 2 ^ 500 -> / 2 ^ 500 <= xK <= 2 ^ 500 ->
  / 2 ^ 100 <= xT <= 2 ^ 100 -> Rabs xr <= 2 ^ 100 -> Rabs (xr * xT) <= 300 ->
  lookup (globals w) "np" = Some (BLibrary "numpy") ->
  lookup (globals w) "norm" = Some (BLibrary "scipy.stats.norm") ->
  zero_float (num_val sigma) ->
  exists c p,
    fst (black_scholes_float cdf S K T r sigma "call" w) = Value c /\
    fst (black_scholes_float cdf S K T r sigma "put" w) = Value p /\
    (xS = xK * exp (- xr * xT) -> num_val c = XNaN /\ num_val p = XNaN) /\
    (xS <> xK * exp (- xr * xT) -> num_val sigma = XReal 0 ->
     is_real c (Rmax (xS - xK * exp (- xr * xT)) 0) /\
     is_real p (Rmax (xK * exp (- xr * xT) - xS) 0)) /\
    (xS <> xK * exp (- xr * xT) -> num_val sigma = XNegZero ->
     is_real c (Rmin (xS - xK * exp (- xr * xT)) 0) /\
     is_real p (Rmin (xK * exp (- xr * xT) - xS) 0)).
Proof.
  intros HS HK HT Hr HbS HbK HbT Hbr Hrt Hnp Hnorm Hz.
  pose proof (zero_float_absorb _ Hz) as Hs.
  pose proof (inv_pow2_pos 500) as Hi. pose proof (inv_pow2_pos 100) as Hi'.
  assert (HS0 : 0 < xS) by lra. assert (HK0 : 0 < xK) by lra.
  assert (HT0 : 0 < xT) by lra.
  assert (HaT : Rabs xT <= 2 ^ 100) by (apply bound_pos; lra).
  assert (Hbs : Rabs 0 <= 2 ^ 100).
  { rewrite Rabs_R0. left. apply pow2_pos. }
  assert (HaS : Rabs xS <= 2 ^ 500) by (apply bound_pos; lra).
  assert (HaK : Rabs xK <= 2 ^ 500) by (apply bound_pos; lra).
  set (D := xK * exp (- xr * xT)).
  assert (HD : 0 < D) by (apply Rmult_lt_0_compat; [exact HK0|apply exp_pos]).
  destruct (numerator_float_in_box xS xK xT xr 0 HbS HbK HaT Hbs Hbr
              S K T r sigma w HS HK HT Hr Hs Hnp) as (n & En & Hn).
  set (N := ln (xS / xK) + (xr + 0 * 0 / 2) * xT) in Hn.
  assert (HN : N = ln (xS / D)).
  { unfold N, D. rewrite <- forward_moneyness by assumption. field. }
  assert (Ev : forall w', globals w' = globals w ->
                 divisor_float T sigma w'
                 = (Value (Num NumpyFloat (num_val sigma)), w')).
  { intros w' Hw'. apply divisor_float_zero_volatility with xT; try assumption.
    rewrite Hw'. exact Hnp. }
  destruct (ln_ratio_sign xS D HS0 HD) as (Hgt & Hlt & Heq).
  destruct (Req_dec xS D) as [He|Hne].
  - assert (HN0 : N = 0) by (rewrite HN; apply Heq; exact He).
    rewrite HN0 in Hn.
    pose proof (div_zero_by_zero _ _ Hn Hz) as Hdiv.
    destruct (d1_d2_float_zero_divisor S K T r sigma n (num_val sigma) w En Ev Hz)
      as (d1 & d2 & w1 & Ed & Hg & Hd1 & Hd2).
    { rewrite Hdiv. right; right. reflexivity. }
    rewrite Hdiv in Hd1, Hd2. rewrite <- Hg in Hnp, Hnorm.
    destruct (price_float_at_nan cdf xK xT xr HaK Hrt S K T r sigma d1 d2 w w1
                HK HT Hr Ed Hd1 Hd2 Hnp Hnorm) as (c & p & Ec & Ep & Hc & Hp).
    exists c, p. split; [exact Ec|]. split; [exact Ep|].
    split; [intros _; split; assumption|].
    split; intros H; contradiction.
  - assert (HN0 : N <> 0).
    { rewrite HN. destruct (Rtotal_order xS D) as [H|[H|H]];
        [pose proof (Hlt H)|contradiction|pose proof (Hgt H)]; lra. }
    pose proof (div_by_zero_float _ _ _ Hn HN0 Hz) as Hdiv.
    destruct (d1_d2_float_zero_divisor S K T r sigma n (num_val sigma) w En Ev Hz)
      as (d1 & d2 & w1 & Ed & Hg & Hd1 & Hd2).
    { rewrite Hdiv. apply quotient_by_zero_special. }
    rewrite Hdiv in Hd1, Hd2. rewrite <- Hg in Hnp, Hnorm.
    assert (Hinf : quotient_by_zero N (num_val sigma) = XPInf \/
                   quotient_by_zero N (num_val sigma) = XNInf).
    { unfold quotient_by_zero. destruct (num_val sigma), (Rlt_dec 0 N); auto. }
    destruct (price_float_at_infinity cdf xS xK xT xr HaS HaK Hrt S K T r sigma
                d1 d2 _ w w1 HS HK HT Hr Ed Hd1 Hd2 Hinf Hnp Hnorm)
      as (c & p & Ec & Ep & Hc & Hp).
    fold D in Hc, Hp.
    exists c, p. split; [exact Ec|]. split; [exact Ep|].
    split; [intros H; contradiction|].
    split; intros _ Hs'; rewrite Hs' in Hc, Hp; unfold quotient_by_zero in Hc, Hp;
      destruct (Rlt_dec 0 N) as [HNp|HNn]; cbn [weight] in Hc, Hp.
    + assert (D < xS).
      { destruct (Rtotal_order xS D) as [H|[H|H]];
          [pose proof (Hlt H); lra|contradiction|exact H]. }
      split; [apply is_real_eq with (1 := Hc)|apply is_real_eq with (1 := Hp)].
      * rewrite Rmax_left by lra. ring.
      * rewrite Rmax_right by lra. ring.
    + assert (xS < D).
      { destruct (Rtotal_order xS D) as [H|[H|H]];
          [exact H|contradiction|pose proof (Hgt H); lra]. }
      split; [apply is_real_eq with (1 := Hc)|apply is_real_eq with (1 := Hp)].
      * rewrite Rmax_right by lra. ring.
      * rewrite Rmax_left by lra. ring.
    + assert (D < xS).
      { destruct (Rtotal_order xS D) as [H|[H|H]];
          [pose proof (Hlt H); lra|contradiction|exact H]. }
      split; [apply is_real_eq with (1 := Hc)|apply is_real_eq with (1 := Hp)].
      * rewrite Rmin_right by lra. ring.
      * rewrite Rmin_left by lra. ring.
    + assert (xS < D).
      { destruct (Rtotal_order xS D) as [H|[H|H]];
          [exact H|contradiction|pose proof (Hgt H); lra]. }
      split; [apply is_real_eq with (1 := Hc)|apply is_real_eq with (1 := Hp)].
      * rewrite Rmin_left by lra. ring.
      * rewrite Rmin_right by lra. ring.
Qed.

Lemma zero_volatility_edge_witness :
  (/ 2 ^ 500 <= 110 <= 2 ^ 500 /\ / 2 ^ 500 <= 100 <= 2 ^ 500 /\
   / 2 ^ 100 <= 1 <= 2 ^ 100 /\ Rabs 0.05 <= 2 ^ 100 /\ Rabs (0.05 * 1) <= 300 /\
   110 <> 100 * exp (- (0.05) * 1)) /\
  exists c p,
    fst (black_scholes_float norm_cdf (Py.float 110) (Py.float 100) (Py.float 1)
           (Py.float 0.05) (Num PythonFloat XNegZero) "call" imported) = Value c /\
    fst (black_scholes_float norm_cdf (Py.float 110) (Py.float 100) (Py.float 1)
           (Py.float 0.05) (Num PythonFloat XNegZero) "put" imported) = Value p /\
    is_real c (Rmin (110 - 100 * exp (- (0.05) * 1)) 0) /\
    is_real p (Rmin (100 * exp (- (0.05) * 1) - 110) 0).
Proof.
  assert (H1 : / 2 ^ 500 <= 110 <= 2 ^ 500)
    by (apply (pow2_interval _ 7); [lia|simpl; lra]).
  assert (H2 : / 2 ^ 500 <= 100 <= 2 ^ 500)
    by (apply (pow2_interval _ 7); [lia|simpl; lra]).
  assert (H3 : / 2 ^ 100 <= 1 <= 2 ^ 100)
    by (apply (pow2_interval _ 0); [lia|simpl; lra]).
  assert (H4 : Rabs 0.05 <= 2 ^ 100)
    by (apply bound_weaken with 0%nat; [rewrite Rabs_right; simpl; lra|lia]).
  assert (H5 : Rabs (0.05 * 1) <= 300) by (rewrite Rabs_right; lra).
  assert (H6 : 110 <> 100 * exp (- (0.05) * 1)).
  { assert (H : exp (- (0.05) * 1) < exp 0) by (apply exp_increasing; lra).
    rewrite exp_0 in H. lra. }
  split; [repeat split; try apply H1; try apply H2; try apply H3; assumption|].
  destruct (zero_volatility_edge norm_cdf (Py.float 110) (Py.float 100) (Py.float 1)
              (Py.float 0.05) (Num PythonFloat XNegZero)
              110 100 1 0.05 imported eq_refl eq_refl eq_refl eq_refl
              H1 H2 H3 H4 H5 eq_refl eq_refl (or_intror eq_refl))
    as (c & p & Ec & Ep & _ & _ & Hneg).
  exists c, p. split; [exact Ec|]. split; [exact Ep|].
  apply Hneg; [exact H6|reflexivity].
Defined.

(** ** Running the notebook's cells *)

Lemma lookup_assign x y b g :
  lookup (assign y b g) x = if (x =? y)%string then Some b else lookup g x.
Proof. reflexivity. Qed.

Ltac lookup_step :=
  rewrite lookup_assign;
  match goal with
  | |- context [(?a =? ?b)%string] =>
      let v := eval vm_compute in (a =? b)%string in
      change (a =? b)%string with v
  end;
  cbv iota.

Ltac lookup_simpl := repeat lookup_step.

Lemma lookup_imports g x :
  x <> "norm" -> x <> "plt" -> x <> "np" -> lookup (imports g) x = lookup g x.
Proof.
  intros H1 H2 H3. unfold imports. rewrite !lookup_assign.
  apply String.eqb_neq in H1, H2, H3. rewrite H1, H2, H3. reflexivity.
Qed.

Lemma cell_comprehension_fails f e xs out :
  xs <> [] -> (forall x o, f x o = (Fails e, o)) ->
  cell_comprehension f xs out = (Fails e, out).
Proof.
  intros Hxs Hf. destruct xs as [|x xs]; [contradiction|].
  simpl. rewrite Hf. reflexivity.
Qed.

Lemma linspace_nonempty start stop num :
  num <> 0%nat -> linspace start stop num <> [].
Proof.
  intros Hn. destruct num as [|n]; [contradiction|].
  unfold linspace. simpl seq. simpl map. discriminate.
Qed.

Lemma with_library_bound {A} g x library (fail : cell_exn -> A) k :
  lookup g x = Some (BLibrary library) -> with_library g x library fail k = k.
Proof.
  intros H. unfold with_library. rewrite H, String.eqb_refl. reflexivity.
Qed.

Lemma sensitivity_element_unbound g s out f :
  lookup g "black_scholes" = Some f -> lookup g "S" = None ->
  sensitivity_element g s out = (Fails (NameError "S"), out).
Proof.
  intros Hf HS. unfold sensitivity_element, with_name. rewrite Hf, HS. reflexivity.
Qed.

Lemma maturity_element_unbound g side t out f :
  lookup g "black_scholes" = Some f -> lookup g "S" = None ->
  maturity_element g side t out = (Fails (NameError "S"), out).
Proof.
  intros Hf HS. unfold maturity_element, with_name. rewrite Hf, HS. reflexivity.
Qed.

(** The namespace left by the first three code cells. *)
Definition after_example (cdf : R -> R) (fmt_2f : npfloat -> string) (self : pyfun)
  (g : namespace) : namespace :=
  assign "black_scholes" (BFun (black_scholes_example cdf fmt_2f self))
    (imports (assign "black_scholes" (BFun (black_scholes cdf)) (imports g))).

Lemma sensitivity_cell_unbound g out f :
  lookup g "np" = Some (BLibrary "numpy") ->
  lookup g "black_scholes" = Some f -> lookup g "S" = None ->
  sensitivity_cell g out
  = (Some (NameError "S"), assign "sigmas" (BArray (linspace 0.1 0.5 100)) g, out).
Proof.
  intros Hnp Hf HS. unfold sensitivity_cell.
  rewrite with_library_bound by exact Hnp. cbv zeta.
  rewrite (cell_comprehension_fails _ (NameError "S"));
    [reflexivity|apply linspace_nonempty; discriminate|].
  intros x o. apply sensitivity_element_unbound with f.
  - lookup_simpl. exact Hf.
  - lookup_simpl. exact HS.
Qed.

Lemma maturity_cell_unbound g out f :
  lookup g "np" = Some (BLibrary "numpy") ->
  lookup g "black_scholes" = Some f -> lookup g "S" = None ->
  maturity_cell g out
  = (Some (NameError "S"), assign "times" (BArray (linspace 0.1 2 100)) g, out).
Proof.
  intros Hnp Hf HS. unfold maturity_cell.
  rewrite with_library_bound by exact Hnp. cbv zeta.
  rewrite (cell_comprehension_fails _ (NameError "S"));
    [reflexivity|apply linspace_nonempty; discriminate|].
  intros x o. apply maturity_element_unbound with f.
  - lookup_simpl. exact Hf.
  - lookup_simpl. exact HS.
Qed.

(** X20. No cell binds the name [S] at the top level.  Run top to bottom
    from a namespace in which [S] is unbound, the first three code cells
    complete without printing, and the cell "Sensitivity Analysis" stops
    with [NameError: S] on the first element of the comprehension, after
    binding [sigmas] and before binding [prices] or plotting; the run ends
    there.  Run on its own afterwards, the maturity cell stops in the same
    way after binding [times]. *)
Theorem notebook_run_name_error (cdf : R -> R) (fmt : npfloat -> string)
  (self : pyfun) (g : namespace) (out : stdout) :
  lookup g "S" = None ->
  let g3 := after_example cdf fmt self g in
  let g4 := assign "sigmas" (BArray (linspace 0.1 0.5 100)) g3 in
  run_cells [imports_cell; define_cell cdf; example_cell cdf fmt self] g out
  = (None, g3, out) /\
  sensitivity_cell g3 out = (Some (NameError "S"), g4, out) /\
  run_cells (notebook cdf fmt self) g out = (Some (NameError "S"), g4, out) /\
  maturity_cell g4 out
  = (Some (NameError "S"), assign "times" (BArray (linspace 0.1 2 100)) g4, out).
Proof.
  intros HS g3 g4.
  assert (Hnp : lookup g3 "np" = Some (BLibrary "numpy")).
  { unfold g3, after_example, imports. lookup_simpl. reflexivity. }
  assert (Hf : lookup g3 "black_scholes"
               = Some (BFun (black_scholes_example cdf fmt self))).
  { unfold g3, after_example. lookup_simpl. reflexivity. }
  assert (HS3 : lookup g3 "S" = None).
  { unfold g3, after_example, imports. lookup_simpl. exact HS. }
  assert (Hsens : sensitivity_cell g3 out = (Some (NameError "S"), g4, out)).
  { apply sensitivity_cell_unbound with (1 := Hnp) (2 := Hf) (3 := HS3). }
  assert (Hrun : run_cells [imports_cell; define_cell cdf; example_cell cdf fmt self]
                   g out = (None, g3, out)) by reflexivity.
  split; [|split; [|split]].
  - exact Hrun.
  - exact Hsens.
  - unfold notebook.
    change (run_cells [imports_cell; define_cell cdf; example_cell cdf fmt self;
                       sensitivity_cell; maturity_cell] g out)
      with (match sensitivity_cell g3 out with
            | (None, g', out') => run_cells [maturity_cell] g' out'
            | (Some e, g', out') => (Some e, g', out')
            end).
    rewrite Hsens. reflexivity.
  - apply maturity_cell_unbound with (BFun (black_scholes_example cdf fmt self)).
    + unfold g4. lookup_simpl. exact Hnp.
    + unfold g4. lookup_simpl. exact Hf.
    + unfold g4. lookup_simpl. exact HS3.
Qed.

Lemma notebook_run_name_error_witness :
  lookup [] "S" = None /\
  run_cells (notebook norm_cdf (fun _ => "0.00") (black_scholes norm_cdf)) [] []
  = (Some (NameError "S"),
     assign "sigmas" (BArray (linspace 0.1 0.5 100))
       (after_example norm_cdf (fun _ => "0.00") (black_scholes norm_cdf) []),
     []).
Proof.
  split; [reflexivity|].
  apply (notebook_run_name_error norm_cdf (fun _ => "0.00") (black_scholes norm_cdf)
           [] []).
  reflexivity.
Defined.
